(** * HumanLayer daemon: approval gateway and ephemeral chat

    A shallow embedding of [hld/mcp] (the MCP approval gateway:
    [handleRequestApproval], [ServeHTTP], [listenForApprovalDecisions],
    [encodeImages], [detectMimeType]) and of
    [hld/api/handlers/ephemeral_chat.go] ([HandleEphemeralChat],
    [runEphemeralQuery]), together with the properties the design
    document states about them; and of the git handler of
    [hld/api/handlers] ([HandleGetGitStatus],
    [HandleGenerateCommitMessage], [HandleCommitChanges] and the
    functions they call), with properties read off the code. *)

From Stdlib Require Import ZArith NArith Ascii String List Lia.
From stdpp Require Import base option list gmap strings pretty.

Local Open Scope string_scope.
Local Open Scope list_scope.
Local Open Scope nat_scope.
Local Open Scope stdpp_scope.
Set Warnings "-register-all".

(** ** The parts of the Go standard library the code relies on *)

Module Go.

(** [path/filepath.Ext] on a Unix host: scan from the end of the path up
    to the last separator; the extension starts at the last dot. The
    scan runs over the reversed characters, [acc] collects what was
    passed. *)
Fixpoint Ext_scan (rev_path acc : list ascii) : string :=
  match rev_path with
  | [] => ""
  | c :: r =>
      if Ascii.eqb c "/" then ""
      else if Ascii.eqb c "." then string_of_list_ascii (c :: acc)
      else Ext_scan r (c :: acc)
  end.

Definition Ext (path : string) : string :=
  Ext_scan (rev (list_ascii_of_string path)) [].

(** [strings.ToLower]: a string of ASCII bytes is lowered byte by byte;
    a string with a byte >= 0x80 goes through the Unicode tables, which
    are a parameter of the development. *)
Definition isASCII (c : ascii) : bool := (N_of_ascii c <? 128)%N.

Definition lower_byte (c : ascii) : ascii :=
  let n := N_of_ascii c in
  if ((65 <=? n) && (n <=? 90))%N then ascii_of_N (n + 32) else c.

Fixpoint map_bytes (f : ascii → ascii) (s : string) : string :=
  match s with
  | EmptyString => EmptyString
  | String c r => String (f c) (map_bytes f r)
  end.

(** [net/textproto]: the bytes a header field name may hold (the token
    bytes of RFC 7230). *)
Definition validHeaderFieldByte (c : ascii) : bool :=
  let n := N_of_ascii c in
  ((48 <=? n) && (n <=? 57) || (65 <=? n) && (n <=? 90)
   || (97 <=? n) && (n <=? 122))%N
  || existsb (Ascii.eqb c)
       ["!"; "#"; "$"; "%"; "&"; "'"; "*"; "+"; "-"; "."; "^"; "_"; "`"; "|"; "~"]%char.

Definition upper_byte (c : ascii) : ascii :=
  let n := N_of_ascii c in
  if ((97 <=? n) && (n <=? 122))%N then ascii_of_N (n - 32) else c.

(** The loop of [canonicalMIMEHeaderKey]: upper case for the first
    letter and for a letter after a dash, lower case elsewhere. *)
Fixpoint canonical_bytes (upper : bool) (a : list ascii) : list ascii :=
  match a with
  | [] => []
  | c :: r =>
      let c := if upper then upper_byte c else lower_byte c in
      c :: canonical_bytes (Ascii.eqb c "-") r
  end.

(** [textproto.CanonicalMIMEHeaderKey]: a name with a byte that no field
    name may hold is returned as it is. *)
Definition CanonicalMIMEHeaderKey (s : string) : string :=
  if forallb validHeaderFieldByte (list_ascii_of_string s)
  then string_of_list_ascii (canonical_bytes true (list_ascii_of_string s))
  else s.

Definition ToLower (unicodeToLower : string → string) (s : string) : string :=
  if forallb isASCII (list_ascii_of_string s)
  then map_bytes lower_byte s
  else unicodeToLower s.

(** [encoding/base64.StdEncoding.EncodeToString]: the RFC 4648 alphabet
    with [=] padding. *)
Definition encodeStd : string :=
  "ABCDEFGHIJKLMNOPQRSTUVWXYZabcdefghijklmnopqrstuvwxyz0123456789+/".

Definition enc (v : N) : ascii :=
  match String.get (N.to_nat (N.land v 63)) encodeStd with
  | Some c => c
  | None => "="%char
  end.

Fixpoint Encode (src : list Byte.byte) : list ascii :=
  match src with
  | [] => []
  | [a] =>
      let val := N.shiftl (Byte.to_N a) 16 in
      [enc (N.shiftr val 18); enc (N.shiftr val 12); "="%char; "="%char]
  | [a; b] =>
      let val := N.lor (N.shiftl (Byte.to_N a) 16) (N.shiftl (Byte.to_N b) 8) in
      [enc (N.shiftr val 18); enc (N.shiftr val 12); enc (N.shiftr val 6); "="%char]
  | a :: b :: c :: rest =>
      let val := N.lor (N.lor (N.shiftl (Byte.to_N a) 16)
                              (N.shiftl (Byte.to_N b) 8)) (Byte.to_N c) in
      enc (N.shiftr val 18) :: enc (N.shiftr val 12)
        :: enc (N.shiftr val 6) :: enc val :: Encode rest
  end.

Definition EncodeToString (src : list Byte.byte) : string :=
  string_of_list_ascii (Encode src).

(** Bytes of a string literal, for examples. *)
Definition bytes_of (s : string) : list Byte.byte :=
  map byte_of_ascii (list_ascii_of_string s).

Example Ext_png : Ext "/tmp/shots/a.b/Screen.PNG" = ".PNG".
Proof. reflexivity. Qed.

Example Ext_dir_dot : Ext "/tmp/shots.d/readme" = "".
Proof. reflexivity. Qed.

Example ToLower_ascii f : ToLower f ".JpEg" = ".jpeg".
Proof. reflexivity. Qed.

Example base64_foobar : EncodeToString (bytes_of "foobar") = "Zm9vYmFy".
Proof. reflexivity. Qed.

Example base64_foob : EncodeToString (bytes_of "foob") = "Zm9vYg==".
Proof. reflexivity. Qed.

Example base64_fooba : EncodeToString (bytes_of "fooba") = "Zm9vYmE=".
Proof. reflexivity. Qed.

Example canonical_session_header :
  CanonicalMIMEHeaderKey "X-Session-ID" = "X-Session-Id"
  ∧ CanonicalMIMEHeaderKey "x-session-id" = "X-Session-Id"
  ∧ CanonicalMIMEHeaderKey "Mcp-Session-Id" = "Mcp-Session-Id"
  ∧ CanonicalMIMEHeaderKey "x session" = "x session".
Proof. by vm_compute. Qed.

End Go.

(** A Go call that returns [(value, error)]. Errors are kept as their
    message text. *)
Inductive result (A : Type) : Type :=
| Ok (a : A)
| Err (e : string).
Arguments Ok {A} a.
Arguments Err {A} e.

(** ** hld/mcp: the approval gateway *)

Module MCP.

(** [ApprovalDecision] represents the outcome of an approval request. *)
Record ApprovalDecision := {
  Approved : bool;
  Comment : string;
  ImagePaths : list string;
}.

(** [EncodedImage] represents a base64-encoded image. *)
Record EncodedImage := {
  MimeType : string;
  Data : string;
}.

(** Go values of dynamic type ([interface{}]) that reach the gateway:
    tool arguments, event payloads and response fields. *)
Inductive any :=
| Nil
| Bool (b : bool)
| Str (s : string)
| Strs (l : list string)            (* []string *)
| Ifaces (l : list any)             (* []interface{} *)
| Object (m : list (string * any))  (* map[string]interface{} *)
| Images (l : list EncodedImage)    (* []EncodedImage *)
| Other (tag : nat).                (* a value of any other type *)

Section Images.

(** The host: the Unicode case tables and the file system. *)
Variable unicodeToLower : string → string.
Variable ReadFile : string → option (list Byte.byte).

(** [detectMimeType] returns the MIME type based on file extension. *)
Definition detectMimeType (path : string) : string :=
  let ext := Go.ToLower unicodeToLower (Go.Ext path) in
  if String.eqb ext ".png" then "image/png"
  else if String.eqb ext ".jpg" || String.eqb ext ".jpeg" then "image/jpeg"
  else if String.eqb ext ".gif" then "image/gif"
  else if String.eqb ext ".webp" then "image/webp"
  else "".

(** [encodeImages] reads and base64-encodes images from disk. The loop
    appends to [encoded]; an iteration that cannot read the file or
    does not know the type goes on to the next path. *)
Fixpoint encodeImages_from (encoded : list EncodedImage)
         (imagePaths : list string) : list EncodedImage :=
  match imagePaths with
  | [] => encoded
  | path :: rest =>
      match ReadFile path with
      | None => encodeImages_from encoded rest
      | Some data =>
          let mimeType := detectMimeType path in
          if String.eqb mimeType "" then encodeImages_from encoded rest
          else encodeImages_from
                 (encoded ++ [ {| MimeType := mimeType;
                                  Data := Go.EncodeToString data |} ]) rest
      end
  end.

Definition encodeImages (imagePaths : list string) : list EncodedImage :=
  encodeImages_from [] imagePaths.

(** *** What the design says about [encodeImages]

    The extension, compared without regard to case, selects the MIME
    type; a path outside the table, or whose file cannot be read,
    yields nothing. *)
Definition mime_table : list (string * string) :=
  [ (".png", "image/png"); (".jpg", "image/jpeg"); (".jpeg", "image/jpeg");
    (".gif", "image/gif"); (".webp", "image/webp") ].

Fixpoint assoc (k : string) (t : list (string * string)) : option string :=
  match t with
  | [] => None
  | (k', v) :: t' => if String.eqb k k' then Some v else assoc k t'
  end.

Definition described_image (path : string) : option EncodedImage :=
  match ReadFile path, assoc (Go.ToLower unicodeToLower (Go.Ext path)) mime_table with
  | Some data, Some mime =>
      Some {| MimeType := mime; Data := Go.EncodeToString data |}
  | _, _ => None
  end.

Definition described_images (imagePaths : list string) : list EncodedImage :=
  omap described_image imagePaths.

Definition supported_extensions : list string :=
[".png"; ".jpg"; ".jpeg"; ".gif"; ".webp"].

(** *** Facts about [detectMimeType] and [encodeImages] *)

Lemma detectMimeType_assoc path :
  detectMimeType path
  = default "" (assoc (Go.ToLower unicodeToLower (Go.Ext path)) mime_table).
Proof.
  unfold detectMimeType; cbn [assoc mime_table default].
  generalize (Go.ToLower unicodeToLower (Go.Ext path)); intros ext.
  destruct (String.eqb ext ".png"); [reflexivity|].
  destruct (String.eqb ext ".jpg"); [reflexivity|].
  destruct (String.eqb ext ".jpeg"); [reflexivity|].
  destruct (String.eqb ext ".gif"); [reflexivity|].
  destruct (String.eqb ext ".webp"); reflexivity.
Qed.

Lemma assoc_mime_supported ext :
  assoc ext mime_table = None ↔ ext ∉ supported_extensions.
Proof.
  unfold supported_extensions; cbn [assoc mime_table]. split.
  - intros H Hin. rewrite !elem_of_cons, elem_of_nil in Hin.
    destruct Hin as [->|[->|[->|[->|[->|[]]]]]]; discriminate H.
  - intros H.
    repeat match goal with
           | |- context [String.eqb ext ?s] =>
               destruct (String.eqb_spec ext s) as [->|?];
               [exfalso; apply H; set_solver|]
           end.
    reflexivity.
Qed.

Lemma assoc_mime_nonempty ext mime :
  assoc ext mime_table = Some mime → String.eqb mime "" = false.
Proof.
  cbn [assoc mime_table].
  repeat (destruct (String.eqb ext _); [intros [= <-]; reflexivity|]).
  discriminate.
Qed.

Lemma encodeImages_from_described encoded imagePaths :
  encodeImages_from encoded imagePaths = encoded ++ described_images imagePaths.
Proof.
  revert encoded; induction imagePaths as [|path rest IH]; intros encoded.
  - cbn. by rewrite app_nil_r.
  - cbn [encodeImages_from]. unfold described_images; cbn [omap list_omap].
    unfold described_image at 1. rewrite detectMimeType_assoc.
    destruct (ReadFile path) as [data|]; [|apply IH].
    destruct (assoc _ mime_table) as [mime|] eqn:Hm; cbn [default].
    + unfold id. rewrite (assoc_mime_nonempty _ _ Hm), IH. by rewrite <- app_assoc.
    + cbn. apply IH.
Qed.

Lemma described_images_length imagePaths :
  length (described_images imagePaths) ≤ length imagePaths.
Proof.
  induction imagePaths as [|path rest IH]; cbn; [lia|].
  fold (described_images rest). destruct (described_image path); cbn; lia.
Qed.

(** C10. [encodeImages] is a total function that never reports an error:
    it returns, in input order, one element for each path whose file can
    be read and whose extension, lowered, is one of .png, .jpg, .jpeg,
    .gif, .webp, and skips every other path; an element carries the MIME
    type [detectMimeType] gives for the path and the standard base64
    text of the file's bytes; the result is never longer than the input. *)
Theorem encodeImages_total_skips_and_encodes (imagePaths : list string) :
  encodeImages imagePaths = omap described_image imagePaths
  ∧ length (encodeImages imagePaths) ≤ length imagePaths
  ∧ (∀ path, described_image path = None
             ↔ ReadFile path = None
               ∨ Go.ToLower unicodeToLower (Go.Ext path) ∉ supported_extensions)
  ∧ (∀ path img, described_image path = Some img →
       ∃ data, ReadFile path = Some data
               ∧ MimeType img = detectMimeType path
               ∧ MimeType img ≠ ""
               ∧ Data img = Go.EncodeToString data).
Proof.
  assert (Heq : encodeImages imagePaths = described_images imagePaths)
    by apply (encodeImages_from_described []).
  split; [exact Heq|]. split.
  { rewrite Heq. apply described_images_length. }
  split.
  - intros path. unfold described_image.
    destruct (ReadFile path) as [data|]; [|split; [by left | reflexivity]].
    rewrite <- assoc_mime_supported.
    destruct (assoc _ mime_table);
      (split; [intros ?; try discriminate; by right | intros [?|?]; congruence]).
  - intros path img. unfold described_image. rewrite detectMimeType_assoc.
    destruct (ReadFile path) as [data|]; [|discriminate].
    destruct (assoc _ mime_table) as [mime|] eqn:Hm; [|discriminate].
    intros [= <-]. exists data. cbn. repeat split; try reflexivity.
    intros Hmime. apply assoc_mime_nonempty in Hm. by rewrite Hmime in Hm.
Qed.

End Images.

(** *** Requests, contexts, results *)

(** [mcp.CallToolRequest]: the arguments of the tool call. *)
Record CallToolRequest := {
  Arguments : gmap string any;
}.

(** [request.GetString(key, def)]: the argument when it is a string. *)
Definition GetString (request : CallToolRequest) (key def : string) : string :=
  match Arguments request !! key with
  | Some (Str s) => s
  | _ => def
  end.

(** The values a [context.Context] carries, by key. *)
Abbreviation Context := (gmap string any).

Definition sessionIDKey : string := "session_id".

Record TextContent := {
  ContentType : string;
  Text : string;
}.

Record CallToolResult := {
  Content : list TextContent;
}.

(** [store.Approval], as [approval.Manager] returns it. *)
Record Approval := {
  ID : string;
  SessionID : string;
  ToolUseID : string;
  ToolName : string;
  ToolInput : string;
  Status : string;
  ResponseText : string;
  Attachments : list string;
}.

(** [bus.Event]. *)
Record Event := {
  EventType : string;
  EventData : gmap string any;
}.

Definition EventApprovalResolved : string := "approval_resolved".

(** What a decision submitted to the manager comes to. *)
Inductive DecideResult :=
| Decided
| NotFound
| AlreadyResolved.

(** A decision names its approval by approval id or by tool-use id. *)
Inductive ApprovalRef :=
| ByApprovalID (id : string)
| ByToolUseID (toolUseID : string).

(** [approval.Manager]: the interface the gateway is built on. The
    gateway itself calls [CreateApprovalWithToolUseID] only; [Decide] is
    the entry point of the decision-submission API, which returns the
    events it publishes. *)
Class Manager (M : Type) := {
  CreateApprovalWithToolUseID :
    M → string → string → string → string → result Approval * M;
  Decide :
    M → ApprovalRef → bool → string → list string → DecideResult * M * list Event;
}.

(** [http.Request]: its headers, a [map[string][]string], and the
    context it arrives with. *)
Record Request := {
  Header : gmap string (list string);
  RequestContext : Context;
}.

(** [http.Header.Get]: the first value under the canonical form of the
    name. *)
Definition Header_Get (r : Request) (key : string) : string :=
  match Header r !! Go.CanonicalMIMEHeaderKey key with
  | Some (value :: _) => value
  | _ => ""
  end.

(** [http.Header.Add], and the header map the server reads from the
    header lines of a request: each value is added under the canonical
    form of its name. *)
Definition Header_Add (h : gmap string (list string)) (key value : string)
  : gmap string (list string) :=
  let key := Go.CanonicalMIMEHeaderKey key in
  <[key := default [] (h !! key) ++ [value]]> h.

Definition read_header (lines : list (string * string)) : gmap string (list string) :=
  fold_left (λ h line, Header_Add h line.1 line.2) lines ∅.

(** [ServeHTTP] extracts the session id from the headers and adds it to
    the context the tool handler will run in. *)
Definition ServeHTTP (r : Request) : Context :=
  let sessionID := Header_Get r "X-Session-ID" in
  let sessionID :=
    if String.eqb sessionID "" then
      let mcpSessionID := Header_Get r "Mcp-Session-Id" in
      if negb (String.eqb mcpSessionID "") then mcpSessionID else sessionID
    else sessionID in
  <[sessionIDKey := Str sessionID]> (RequestContext r).

(** [MCPServer]: the auto-deny switch and the [sync.Map] from tool-use id
    to the channel its caller waits on. Channels are references. *)
Record MCPServer := {
  autoDenyAll : bool;
  pendingApprovals : gmap string nat;
}.

(** [NewMCPServer] reads the switch from the process environment. *)
Definition Getenv (environ : gmap string string) (key : string) : string :=
  default "" (environ !! key).

Definition NewMCPServer (environ : gmap string string) : MCPServer :=
  {| autoDenyAll := String.eqb (Getenv environ "MCP_AUTO_DENY_ALL") "true";
     pendingApprovals := ∅ |}.

(** *** One call of [handleRequestApproval], and the gateway around it

    A call suspends in its [select]; between two statements another
    goroutine may run. [Frame] is where a call stands: before its first
    statement, after [CreateApprovalWithToolUseID] has returned a
    not-approved record (before [make] and [Store]), blocked in the
    [select] with its channel, or returned. *)
Inductive Frame :=
| AtEntry (ctx : Context) (request : CallToolRequest)
| AtRegister (input : any) (toolUseID : string)
| AtSelect (input : any) (toolUseID : string) (decisionChan : nat)
| Returned (r : result CallToolResult).

(** A call and the state of its context: [ctxErr] is [ctx.Err()], [None]
    while the context is live. *)
Record Call := {
  frame : Frame;
  ctxErr : option string;
}.

(** The writes to [pendingApprovals], tagged with the call that made them. *)
Inductive MapOp :=
| OpStore (i : nat) (key : string) (ch : nat)
| OpDelete (i : nat) (key : string).

(** What the environment and the goroutines can do next. *)
Inductive Action :=
| Invoke (ctx : Context) (request : CallToolRequest)
| Enter (i : nat)
| Register (i : nat)
| Receive (i : nat)
| CtxDone (i : nat)
| Cancel (i : nat) (err : string)
| Listen
| Publish (event : Event)
| Submit (ref : ApprovalRef) (approve : bool) (comment : string)
         (attachments : list string).

Section Gateway.

Variable unicodeToLower : string → string.
Variable ReadFile : string → option (list Byte.byte).
(** [json.Marshal] of the tool input, and of a response map (whose error
    the code drops). *)
Variable json_Marshal : any → result string.
Variable json_MarshalMap : gmap string any → string.
Context {M : Type} {approvalManager : Manager M}.

(** The gateway, its channels, its collaborators and its calls.
    [channels] holds the buffered decision of each capacity-1 channel (no
    entry: the buffer is empty); [made] counts the channels made so far.
    [subscription] is the listener's [sub.Channel]. *)
Record World := {
  server : MCPServer;
  channels : gmap nat ApprovalDecision;
  made : nat;
  manager : M;
  subscription : list Event;
  calls : list Call;
  journal : list MapOp;
}.

Definition text_result (responseData : gmap string any) : CallToolResult :=
  {| Content := [ {| ContentType := "text"; Text := json_MarshalMap responseData |} ] |}.

(** [handleRequestApproval] from its first statement to the check of
    the created approval's status. *)
Definition handleRequestApproval_enter (s : MCPServer) (m : M)
           (ctx : Context) (request : CallToolRequest) : Frame * M :=
  let toolName := GetString request "tool_name" "" in
  let input := default Nil (Arguments request !! "input") in
  let toolUseID := GetString request "tool_use_id" "" in
  if autoDenyAll s then
    let responseData : gmap string any :=
      {[ "behavior" := Str "deny"; "message" := Str "Auto-denied for testing" ]} in
    (Returned (Ok (text_result responseData)), m)
  else
    let sessionID := match ctx !! sessionIDKey with Some (Str v) => v | _ => "" end in
    if String.eqb sessionID "" then
      (Returned (Err "missing session_id in context"), m)
    else
      match json_Marshal input with
      | Err err => (Returned (Err ("failed to marshal input: " +:+ err)), m)
      | Ok inputJSON =>
          match CreateApprovalWithToolUseID m sessionID toolName inputJSON toolUseID with
          | (Err err, m') =>
              (Returned (Err ("failed to create approval: " +:+ err)), m')
          | (Ok approval, m') =>
              if String.eqb (Status approval) "approved" then
                let responseData : gmap string any :=
                  {[ "behavior" := Str "allow"; "updatedInput" := input ]} in
                (Returned (Ok (text_result responseData)), m')
              else (AtRegister input toolUseID, m')
          end
      end.

(** The response to a decision received from the channel. *)
Definition decision_response (input : any) (decision : ApprovalDecision)
  : gmap string any :=
  let responseData : gmap string any :=
    {[ "behavior" := Str "deny"; "message" := Str (Comment decision) ]} in
  let responseData : gmap string any :=
    if Approved decision
    then {[ "behavior" := Str "allow"; "updatedInput" := input ]}
    else responseData in
  if 0 <? length (ImagePaths decision) then
    let images := encodeImages unicodeToLower ReadFile (ImagePaths decision) in
    if 0 <? length images
    then <["images" := Images images]> responseData
    else responseData
  else responseData.

(** *** The steps of a call *)

(** Lines up to the status check: the call moves to the frame
    [handleRequestApproval_enter] computes. *)
Definition enter (w : World) (i : nat) (c : Call)
           (ctx : Context) (request : CallToolRequest) : World :=
  let '(f, m') := handleRequestApproval_enter (server w) (manager w) ctx request in
  {| server := server w; channels := channels w; made := made w;
     manager := m'; subscription := subscription w;
     calls := <[i := {| frame := f; ctxErr := ctxErr c |}]> (calls w);
     journal := journal w |}.

(** [decisionChan := make(chan ApprovalDecision, 1)] and
    [s.pendingApprovals.Store(toolUseID, decisionChan)]; the deferred
    [Delete] is now pending. *)
Definition register (w : World) (i : nat) (c : Call)
           (input : any) (toolUseID : string) : World :=
  let decisionChan := made w in
  {| server := {| autoDenyAll := autoDenyAll (server w);
                  pendingApprovals :=
                    <[toolUseID := decisionChan]> (pendingApprovals (server w)) |};
     channels := delete decisionChan (channels w);
     made := S (made w);
     manager := manager w; subscription := subscription w;
     calls := <[i := {| frame := AtSelect input toolUseID decisionChan;
                        ctxErr := ctxErr c |}]> (calls w);
     journal := journal w ++ [OpStore i toolUseID decisionChan] |}.

(** Returning from the [select]: the deferred
    [s.pendingApprovals.Delete(toolUseID)] runs, then the caller has [r]. *)
Definition leave (w : World) (i : nat) (c : Call) (toolUseID : string)
           (r : result CallToolResult) : World :=
  {| server := {| autoDenyAll := autoDenyAll (server w);
                  pendingApprovals := delete toolUseID (pendingApprovals (server w)) |};
     channels := channels w; made := made w;
     manager := manager w; subscription := subscription w;
     calls := <[i := {| frame := Returned r; ctxErr := ctxErr c |}]> (calls w);
     journal := journal w ++ [OpDelete i toolUseID] |}.

Definition take_from (w : World) (decisionChan : nat) : World :=
  {| server := server w; channels := delete decisionChan (channels w);
     made := made w; manager := manager w; subscription := subscription w;
     calls := calls w; journal := journal w |}.

(** [case decision := <-decisionChan]: ready when the buffer holds one.
    The receive, the building of the response and the return with its
    deferred [Delete] are one step here; [GatewayFacts.fine_step] takes
    them apart. *)
Definition receive (w : World) (i : nat) (c : Call) (input : any)
           (toolUseID : string) (decisionChan : nat) : option World :=
  match channels w !! decisionChan with
  | Some decision =>
      Some (leave (take_from w decisionChan) i c toolUseID
                  (Ok (text_result (decision_response input decision))))
  | None => None
  end.

(** [case <-ctx.Done()]: ready when the context has ended. *)
Definition ctx_done (w : World) (i : nat) (c : Call) (toolUseID : string)
  : option World :=
  match ctxErr c with
  | Some err => Some (leave w i c toolUseID (Err err))
  | None => None
  end.

(** *** [listenForApprovalDecisions] *)

Fixpoint strings_of (ifacePaths : list any) : list string :=
  match ifacePaths with
  | [] => []
  | Str s :: rest => s :: strings_of rest
  | _ :: rest => strings_of rest
  end.

(** The fields the listener reads from an event's payload. *)
Definition decision_of_event (event : Event) : string * ApprovalDecision :=
  let toolUseID :=
    match EventData event !! "tool_use_id" with Some (Str s) => s | _ => "" end in
  let approved :=
    match EventData event !! "approved" with Some (Bool b) => b | _ => false end in
  let comment :=
    match EventData event !! "response_text" with Some (Str s) => s | _ => "" end in
  let imagePaths :=
    match EventData event !! "image_paths" with
    | Some (Strs paths) => paths
    | Some (Ifaces ifacePaths) => strings_of ifacePaths
    | _ => []
    end in
  (toolUseID,
   {| Approved := approved; Comment := comment; ImagePaths := imagePaths |}).

Definition with_channels (w : World) (chs : gmap nat ApprovalDecision) : World :=
  {| server := server w; channels := chs; made := made w;
     manager := manager w; subscription := subscription w;
     calls := calls w; journal := journal w |}.

Definition with_subscription (w : World) (q : list Event) : World :=
  {| server := server w; channels := channels w; made := made w;
     manager := manager w; subscription := q;
     calls := calls w; journal := journal w |}.

(** What one iteration of the loop does to the gateway: [Load] the
    channel, then the [select] with a [default] around the send. *)
Inductive Delivery :=
| Sent (ch : nat)
| SkippedEmptyID
| SkippedNoHandle
| SkippedFull (ch : nat).

Definition deliver (w : World) (toolUseID : string) : Delivery :=
  if String.eqb toolUseID "" then SkippedEmptyID
  else match pendingApprovals (server w) !! toolUseID with
       | Some ch =>
           match channels w !! ch with
           | None => Sent ch
           | Some _ => SkippedFull ch
           end
       | None => SkippedNoHandle
       end.

(** One iteration of the loop of a running listener: receive the next
    event, or block ([None]) while [sub.Channel] is empty. The end of the
    listener itself (its context done, its subscription closed) is the
    end of the gateway and is not a step. *)
Definition listen (w : World) : option World :=
  match subscription w with
  | [] => None
  | event :: rest =>
      let '(toolUseID, decision) := decision_of_event event in
      let w := with_subscription w rest in
      match deliver w toolUseID with
      | Sent ch => Some (with_channels w (<[ch := decision]> (channels w)))
      | _ => Some w
      end
  end.

(** *** The gateway as a transition system *)

(** Modelled from the spec: the Event Bus (package [bus] is not among the
    sources). A subscription receives its own copy of every published
    event its filter matches; the listener's filter is the single type
    [EventApprovalResolved]. The bound of the delivery queue is left out. *)
Definition bus_publish (q : list Event) (event : Event) : list Event :=
  if String.eqb (EventType event) EventApprovalResolved then q ++ [event] else q.

Definition with_calls (w : World) (cs : list Call) : World :=
  {| server := server w; channels := channels w; made := made w;
     manager := manager w; subscription := subscription w;
     calls := cs; journal := journal w |}.

Definition submit (w : World) (ref : ApprovalRef) (approve : bool)
           (comment : string) (attachments : list string) : World :=
  let '(_, m', events) := Decide (manager w) ref approve comment attachments in
  {| server := server w; channels := channels w; made := made w;
     manager := m'; subscription := fold_left bus_publish events (subscription w);
     calls := calls w; journal := journal w |}.

(** [step w a] is the world after action [a], or [None] when [a] cannot
    happen in [w]: a call that is not at that statement, a [select] case
    that is not ready, a listener with nothing to receive. *)
Definition step (w : World) (a : Action) : option World :=
  match a with
  | Invoke ctx request =>
      Some (with_calls w (calls w ++ [ {| frame := AtEntry ctx request; ctxErr := None |} ]))
  | Enter i =>
      match calls w !! i with
      | Some c =>
          match frame c with
          | AtEntry ctx request => Some (enter w i c ctx request)
          | _ => None
          end
      | None => None
      end
  | Register i =>
      match calls w !! i with
      | Some c =>
          match frame c with
          | AtRegister input toolUseID => Some (register w i c input toolUseID)
          | _ => None
          end
      | None => None
      end
  | Receive i =>
      match calls w !! i with
      | Some c =>
          match frame c with
          | AtSelect input toolUseID decisionChan =>
              receive w i c input toolUseID decisionChan
          | _ => None
          end
      | None => None
      end
  | CtxDone i =>
      match calls w !! i with
      | Some c =>
          match frame c with
          | AtSelect input toolUseID decisionChan => ctx_done w i c toolUseID
          | _ => None
          end
      | None => None
      end
  | Cancel i err =>
      match calls w !! i with
      | Some c =>
          match ctxErr c with
          | None => Some (with_calls w (<[i := {| frame := frame c; ctxErr := Some err |}]> (calls w)))
          | Some _ => Some w
          end
      | None => None
      end
  | Listen => listen w
  | Publish event =>
      Some (with_subscription w (bus_publish (subscription w) event))
  | Submit ref approve comment attachments =>
      Some (submit w ref approve comment attachments)
  end.

Fixpoint run (w : World) (schedule : list Action) : option World :=
  match schedule with
  | [] => Some w
  | a :: rest =>
      match step w a with
      | Some w' => run w' rest
      | None => None
      end
  end.

(** The frame of call [i]. *)
Definition frame_of (w : World) (i : nat) : option Frame :=
  frame <$> calls w !! i.

(** A call is blocked when neither case of its [select] is ready. *)
Definition blocked (w : World) (i : nat) : Prop :=
  step w (Receive i) = None ∧ step w (CtxDone i) = None.

(** The gateway as [NewMCPServer] and [Start] leave it. *)
Definition start (environ : gmap string string) (m : M) : World :=
  {| server := NewMCPServer environ; channels := ∅; made := 0;
     manager := m; subscription := []; calls := []; journal := [] |}.

Definition is_store (op : MapOp) : bool :=
  match op with OpStore _ _ _ => true | OpDelete _ _ => false end.

Definition is_delete_by (i : nat) (op : MapOp) : bool :=
  match op with OpDelete j _ => Nat.eqb i j | OpStore _ _ _ => false end.

(** The number of times call [i] has deregistered a handle. *)
Definition deletes_by (i : nat) (ops : list MapOp) : nat :=
  length (List.filter (is_delete_by i) ops).

(** Call [i] is still in its [select] and has deregistered [n] times so
    far, or it has returned and has deregistered once more. *)
Definition waiting_or_left (n i : nat) (w : World) : Prop :=
  match frame_of w i with
  | Some (AtSelect _ _ _) => deletes_by i (journal w) = n
  | Some (Returned _) => deletes_by i (journal w) = S n
  | _ => False
  end.

(** The session id and the tool input a call works with. *)
Definition session_of (ctx : Context) : string :=
  match ctx !! sessionIDKey with Some (Str v) => v | _ => "" end.

Definition input_of (request : CallToolRequest) : any :=
  default Nil (Arguments request !! "input").

Definition tool_use_id_of (request : CallToolRequest) : string :=
  GetString request "tool_use_id" "".

(** The response of the auto-deny mode. *)
Definition auto_denied : result CallToolResult :=
  Ok (text_result {[ "behavior" := Str "deny";
                     "message" := Str "Auto-denied for testing" ]}).

(** The manager after the decisions a schedule submits, and nothing else. *)
Fixpoint submissions (m : M) (schedule : list Action) : M :=
  match schedule with
  | [] => m
  | Submit ref approve comment attachments :: rest =>
      submissions (Decide m ref approve comment attachments).1.2 rest
  | _ :: rest => submissions m rest
  end.

(** In auto-deny mode a call is either not yet run or already answered. *)
Definition answered_or_new (c : Call) : Prop :=
  match frame c with
  | AtEntry _ _ => True
  | Returned r => r = auto_denied
  | _ => False
  end.

Definition auto_deny_inv (w : World) : Prop :=
  autoDenyAll (server w) = true
  ∧ pendingApprovals (server w) = ∅
  ∧ journal w = []
  ∧ Forall answered_or_new (calls w).

(** *** Auto-deny mode *)

Lemma NewMCPServer_auto_deny environ :
  environ !! "MCP_AUTO_DENY_ALL" = Some "true" →
  autoDenyAll (NewMCPServer environ) = true.
Proof. intros He. unfold NewMCPServer, Getenv. cbn. by rewrite He. Qed.

Lemma enter_auto_deny s m ctx request :
  autoDenyAll s = true →
  handleRequestApproval_enter s m ctx request = (Returned auto_denied, m).
Proof. intros Hs. unfold handleRequestApproval_enter. by rewrite Hs. Qed.

Lemma auto_deny_step w a w' :
  auto_deny_inv w → step w a = Some w' →
  auto_deny_inv w' ∧ manager w' = submissions (manager w) [a].
Proof.
  intros (Hd & Hp & Hj & Hc) Hstep.
  assert (Hfr : ∀ i c, calls w !! i = Some c → answered_or_new c).
  { intros i c Hi. eapply Forall_lookup_1; eauto. }
  unfold auto_deny_inv.
  destruct a as [ctx request|i|i|i|i|i err| |event|ref approve comment att]; cbn in Hstep.
  - injection Hstep as <-. cbn. repeat split; try done.
    apply Forall_app; split; [done|]. by repeat constructor.
  - destruct (calls w !! i) as [c|] eqn:Hi; [|done].
    destruct (frame c) as [ctx request| | |] eqn:Hf; try done.
    injection Hstep as <-. unfold enter. rewrite enter_auto_deny by done. cbn.
    repeat split; try done.
    apply Forall_insert; [done|]. unfold answered_or_new. by cbn.
  - destruct (calls w !! i) as [c|] eqn:Hi; [|done].
    specialize (Hfr _ _ Hi). unfold answered_or_new in Hfr.
    by destruct (frame c).
  - destruct (calls w !! i) as [c|] eqn:Hi; [|done].
    specialize (Hfr _ _ Hi). unfold answered_or_new in Hfr.
    by destruct (frame c).
  - destruct (calls w !! i) as [c|] eqn:Hi; [|done].
    specialize (Hfr _ _ Hi). unfold answered_or_new in Hfr.
    by destruct (frame c).
  - destruct (calls w !! i) as [c|] eqn:Hi; [|done].
    destruct (ctxErr c); injection Hstep as <-; cbn; repeat split; try done.
    apply Forall_insert; [done|]. unfold answered_or_new. cbn. by apply (Hfr i).
  - unfold listen in Hstep. destruct (subscription w) as [|event rest]; [done|].
    destruct (decision_of_event event) as [toolUseID decision].
    destruct (deliver _ _); injection Hstep as <-; cbn; by repeat split.
  - injection Hstep as <-. by cbn.
  - injection Hstep as <-. unfold submit. cbn [submissions].
    destruct (Decide _ _ _ _ _) as [[r m'] events]. by cbn.
Qed.

Lemma submissions_app m s1 s2 :
  submissions m (s1 ++ s2) = submissions (submissions m s1) s2.
Proof.
  revert m; induction s1 as [|a s1 IH]; intros m; [done|].
  destruct a; cbn; apply IH.
Qed.

Lemma auto_deny_run schedule : ∀ w w',
  auto_deny_inv w → run w schedule = Some w' →
  auto_deny_inv w' ∧ manager w' = submissions (manager w) schedule.
Proof.
  induction schedule as [|a rest IH]; intros w w' Hinv Hrun; cbn in Hrun.
  - injection Hrun as <-. by split.
  - destruct (step w a) as [w1|] eqn:Hstep; [|done].
    destruct (auto_deny_step _ _ _ Hinv Hstep) as [Hinv1 Hm1].
    destruct (IH _ _ Hinv1 Hrun) as [Hinv' Hm'].
    split; [done|]. rewrite Hm', Hm1. by rewrite <- submissions_app.
Qed.

Lemma frame_of_insert w i c cs f e :
  calls w !! i = Some c → cs = <[i := {| frame := f; ctxErr := e |}]> (calls w) →
  frame <$> cs !! i = Some f.
Proof.
  intros Hi ->. rewrite list_lookup_insert_eq; [done|].
  by eapply lookup_lt_Some.
Qed.

(** C5. With [MCP_AUTO_DENY_ALL=true] in the environment of
    [NewMCPServer], over every schedule of the gateway: no handle is
    ever stored in [pendingApprovals] (the map is empty and its journal
    of writes is empty), the approval manager is touched by nothing but
    the decisions submitted from outside (no approval is created), and a
    call is either still to run, in which case its next step answers it
    at once with behavior deny, or already answered with deny; no call is
    ever parked in the [select]. *)
Theorem auto_deny_all_never_creates_or_waits
        (environ : gmap string string) (m : M) (schedule : list Action) (w : World) :
  environ !! "MCP_AUTO_DENY_ALL" = Some "true" →
  run (start environ m) schedule = Some w →
  pendingApprovals (server w) = ∅
  ∧ journal w = []
  ∧ manager w = submissions m schedule
  ∧ ∀ i f, frame_of w i = Some f →
      match f with
      | AtEntry ctx request =>
          ∃ w', step w (Enter i) = Some w'
                ∧ frame_of w' i = Some (Returned auto_denied)
                ∧ manager w' = manager w
                ∧ server w' = server w
                ∧ journal w' = journal w
      | Returned r => r = auto_denied
      | AtRegister _ _ | AtSelect _ _ _ => False
      end.
Proof.
  intros Henv Hrun.
  assert (Hinv0 : auto_deny_inv (start environ m)).
  { unfold auto_deny_inv; cbn. repeat split; try done.
    unfold Getenv. by rewrite Henv. }
  destruct (auto_deny_run _ _ _ Hinv0 Hrun) as [(Hd & Hp & Hj & Hc) Hm].
  repeat split; try done.
  intros i f Hf. unfold frame_of in Hf.
  destruct (calls w !! i) as [c|] eqn:Hi; [|done].
  injection Hf as <-.
  pose proof (Forall_lookup_1 _ _ _ _ Hc Hi) as Hans. unfold answered_or_new in Hans.
  destruct (frame c) as [ctx request| | |r] eqn:Hfr; try done.
  exists (enter w i c ctx request). cbn. rewrite Hi, Hfr.
  split; [done|]. unfold enter, frame_of. rewrite enter_auto_deny by done. cbn.
  repeat split; try done. by eapply frame_of_insert.
Qed.

(** *** The session id *)

Lemma ServeHTTP_session r :
  session_of (ServeHTTP r)
  = if String.eqb (Header_Get r "X-Session-ID") ""
    then Header_Get r "Mcp-Session-Id"
    else Header_Get r "X-Session-ID".
Proof.
  unfold session_of, ServeHTTP. rewrite lookup_insert_eq.
  destruct (String.eqb_spec (Header_Get r "X-Session-ID") "") as [HX|HX]; [|done].
  destruct (String.eqb_spec (Header_Get r "Mcp-Session-Id") "") as [HM|HM]; cbn; congruence.
Qed.

Lemma enter_missing_session s m ctx request :
  session_of ctx = "" →
  handleRequestApproval_enter s m ctx request
  = (Returned (if autoDenyAll s then auto_denied
               else Err "missing session_id in context"), m).
Proof.
  intros Hs. unfold handleRequestApproval_enter. fold (session_of ctx).
  rewrite Hs. by destruct (autoDenyAll s).
Qed.

(** C4, as the code has it. A request that reaches [ServeHTTP] with
    neither an [X-Session-ID] nor an [Mcp-Session-Id] header (absent or
    empty, the names looked up in their canonical form, as
    [Header.Get] does) creates no approval: the manager, the handle map and its
    journal are untouched. With auto-deny off the call fails with the
    error "missing session_id in context"; in auto-deny mode, which takes
    precedence and does not consult the session id, it is answered deny. *)
Theorem missing_session_creates_no_approval
        (w : World) (i : nat) (c : Call) (r : Request) (request : CallToolRequest) :
  calls w !! i = Some c →
  frame c = AtEntry (ServeHTTP r) request →
  Header_Get r "X-Session-ID" = "" →
  Header_Get r "Mcp-Session-Id" = "" →
  ∃ w', step w (Enter i) = Some w'
        ∧ manager w' = manager w
        ∧ server w' = server w
        ∧ journal w' = journal w
        ∧ frame_of w' i
          = Some (Returned (if autoDenyAll (server w) then auto_denied
                            else Err "missing session_id in context")).
Proof.
  intros Hi Hf HX HM.
  assert (Hs : session_of (ServeHTTP r) = "").
  { rewrite ServeHTTP_session, HX. by cbn. }
  exists (enter w i c (ServeHTTP r) request). cbn. rewrite Hi, Hf.
  split; [done|]. unfold enter, frame_of.
  rewrite enter_missing_session by done. cbn.
  repeat split; try done. by eapply frame_of_insert.
Qed.

(** *** Approvals resolved at creation *)

(** C2, as the code has it. With auto-deny off, a session id and an
    input that marshals, when [CreateApprovalWithToolUseID] returns an
    approval: if its status is "approved" the call returns at once with
    behavior allow and the original input, and writes nothing to
    [pendingApprovals]; with any other status (pending, denied) the call
    goes on to register a fresh, empty channel under the tool-use id and
    to wait on it. *)
Theorem approved_at_creation_returns_allow
        (w : World) (i : nat) (c : Call) (ctx : Context) (request : CallToolRequest)
        (inputJSON : string) (approval : Approval) (m' : M) :
  calls w !! i = Some c →
  frame c = AtEntry ctx request →
  autoDenyAll (server w) = false →
  session_of ctx ≠ "" →
  json_Marshal (input_of request) = Ok inputJSON →
  CreateApprovalWithToolUseID (manager w) (session_of ctx)
    (GetString request "tool_name" "") inputJSON (tool_use_id_of request)
  = (Ok approval, m') →
  ∃ w', step w (Enter i) = Some w'
        ∧ manager w' = m'
        ∧ server w' = server w
        ∧ channels w' = channels w
        ∧ journal w' = journal w
        ∧ if String.eqb (Status approval) "approved"
          then frame_of w' i
               = Some (Returned (Ok (text_result
                    {[ "behavior" := Str "allow";
                       "updatedInput" := input_of request ]})))
          else frame_of w' i
               = Some (AtRegister (input_of request) (tool_use_id_of request))
               ∧ ∃ w'', step w' (Register i) = Some w''
                        ∧ pendingApprovals (server w'') !! tool_use_id_of request
                          = Some (made w')
                        ∧ channels w'' !! made w' = None
                        ∧ frame_of w'' i
                          = Some (AtSelect (input_of request)
                                           (tool_use_id_of request) (made w')).
Proof.
  intros Hi Hf Hd Hs Hj Hc.
  assert (Henter : handleRequestApproval_enter (server w) (manager w) ctx request
                   = (if String.eqb (Status approval) "approved"
                      then Returned (Ok (text_result
                             {[ "behavior" := Str "allow";
                                "updatedInput" := input_of request ]}))
                      else AtRegister (input_of request) (tool_use_id_of request), m')).
  { unfold handleRequestApproval_enter. rewrite Hd. fold (session_of ctx).
    apply String.eqb_neq in Hs. rewrite Hs.
    fold (input_of request). rewrite Hj.
    fold (tool_use_id_of request). rewrite Hc.
    by destruct (String.eqb (Status approval) "approved"). }
  exists (enter w i c ctx request). cbn. rewrite Hi, Hf.
  split; [done|]. unfold enter. rewrite Henter. cbn.
  repeat split; try done.
  assert (Hlt : i < length (calls w)) by by eapply lookup_lt_Some.
  destruct (String.eqb (Status approval) "approved").
  - unfold frame_of. cbn. by rewrite list_lookup_insert_eq.
  - split; [unfold frame_of; cbn; by rewrite list_lookup_insert_eq|].
    eexists. cbn. rewrite list_lookup_insert_eq by done. cbn.
    split; [reflexivity|]. cbn.
    rewrite lookup_insert_eq, lookup_delete_eq. repeat split.
    unfold frame_of; cbn. rewrite list_lookup_insert_eq; [done|].
    by rewrite length_insert.
Qed.

(** *** The listener *)

Lemma listen_total w : subscription w ≠ [] → is_Some (listen w).
Proof.
  unfold listen. destruct (subscription w) as [|event rest]; [done|]. intros _.
  destruct (decision_of_event event) as [toolUseID decision].
  by destruct (deliver _ _).
Qed.

Lemma listen_unmatched w event rest :
  subscription w = event :: rest →
  pendingApprovals (server w) !! (decision_of_event event).1 = None →
  listen w = Some (with_subscription w rest).
Proof.
  intros Hq Hnone. unfold listen. rewrite Hq.
  destruct (decision_of_event event) as [toolUseID decision]. cbn in Hnone.
  unfold deliver. cbn. rewrite Hnone. by destruct (String.eqb toolUseID "").
Qed.

Lemma listen_full w event rest ch d :
  subscription w = event :: rest →
  pendingApprovals (server w) !! (decision_of_event event).1 = Some ch →
  channels w !! ch = Some d →
  listen w = Some (with_subscription w rest).
Proof.
  intros Hq Hch Hd. unfold listen. rewrite Hq.
  destruct (decision_of_event event) as [toolUseID decision]. cbn in Hch.
  unfold deliver. cbn. rewrite Hch, Hd. by destruct (String.eqb toolUseID "").
Qed.

(** C8. When the listener takes an event whose tool-use id has no
    handle in [pendingApprovals], or whose handle's one slot is taken,
    the iteration completes (it neither blocks nor fails) and changes
    nothing but the queue it read from: no channel, call, map entry or
    journal entry is touched. The loop then goes on: in every world the
    listener can take the next event whenever one is queued. *)
Theorem listener_skips_unmatched_and_goes_on
        (w : World) (event : Event) (rest : list Event) :
  subscription w = event :: rest →
  (pendingApprovals (server w) !! (decision_of_event event).1 = None
   ∨ ∃ ch d, pendingApprovals (server w) !! (decision_of_event event).1 = Some ch
             ∧ channels w !! ch = Some d) →
  step w Listen = Some (with_subscription w rest)
  ∧ channels (with_subscription w rest) = channels w
  ∧ calls (with_subscription w rest) = calls w
  ∧ server (with_subscription w rest) = server w
  ∧ journal (with_subscription w rest) = journal w
  ∧ ∀ w0 : World, subscription w0 ≠ [] → is_Some (step w0 Listen).
Proof.
  intros Hq Hcase. split.
  - cbn. destruct Hcase as [Hnone|(ch & d & Hch & Hd)].
    + by apply (listen_unmatched w event rest).
    + by apply (listen_full w event rest ch d).
  - repeat split. intros w0. apply listen_total.
Qed.

(** *** The response to a decision *)

Lemma decision_response_images input decision :
  decision_response input decision
  = let responseData : gmap string any :=
      if Approved decision
      then {[ "behavior" := Str "allow"; "updatedInput" := input ]}
      else {[ "behavior" := Str "deny"; "message" := Str (Comment decision) ]} in
    match described_images unicodeToLower ReadFile (ImagePaths decision) with
    | [] => responseData
    | images => <["images" := Images images]> responseData
    end.
Proof.
  unfold decision_response.
  pose proof (encodeImages_from_described unicodeToLower ReadFile []
                (ImagePaths decision)) as Henc.
  cbn [app] in Henc. fold (encodeImages unicodeToLower ReadFile (ImagePaths decision)) in Henc.
  rewrite Henc.
  destruct (ImagePaths decision) as [|p ps] eqn:Hp; cbn [length Nat.ltb Nat.leb].
  - cbn. by destruct (Approved decision).
  - destruct (described_images _ _ (p :: ps)) as [|img imgs]; cbn; by destruct (Approved decision).
Qed.

(** C7, as the code has it. When the waiting call receives a decision it
    returns the marshalled response map in which: an approved decision
    gives behavior allow and updatedInput the original input; a denied
    one gives behavior deny and message the comment; and, for either,
    images holds, base64-encoded with their MIME types and in order, the
    attachments whose file can be read and whose extension is a known
    image type; the field is absent when no attachment qualifies. *)
Theorem decision_translated_to_response
        (w : World) (i : nat) (c : Call) (input : any) (toolUseID : string)
        (decisionChan : nat) (decision : ApprovalDecision) :
  calls w !! i = Some c →
  frame c = AtSelect input toolUseID decisionChan →
  channels w !! decisionChan = Some decision →
  ∃ w' responseData,
    step w (Receive i) = Some w'
    ∧ frame_of w' i = Some (Returned (Ok (text_result responseData)))
    ∧ responseData !! "behavior"
      = Some (Str (if Approved decision then "allow" else "deny"))
    ∧ responseData !! "updatedInput"
      = (if Approved decision then Some input else None)
    ∧ responseData !! "message"
      = (if Approved decision then None else Some (Str (Comment decision)))
    ∧ responseData !! "images"
      = match described_images unicodeToLower ReadFile (ImagePaths decision) with
        | [] => None
        | images => Some (Images images)
        end.
Proof.
  intros Hi Hf Hd.
  exists (leave (take_from w decisionChan) i c toolUseID
                (Ok (text_result (decision_response input decision)))),
         (decision_response input decision).
  split; [cbn; rewrite Hi, Hf; unfold receive; by rewrite Hd|].
  split; [unfold frame_of; cbn; by eapply frame_of_insert|].
  rewrite decision_response_images. cbn zeta.
  destruct (described_images _ _ _) as [|img imgs];
    destruct (Approved decision); repeat split; by simplify_map_eq.
Qed.

(** *** Deregistration *)

#[local] Arguments deletes_by : simpl never.

Lemma deletes_by_snoc_delete i j key ops :
  deletes_by i (ops ++ [OpDelete j key])
  = if Nat.eqb i j then S (deletes_by i ops) else deletes_by i ops.
Proof.
  unfold deletes_by. rewrite List.filter_app, length_app. cbn.
  destruct (Nat.eqb i j); cbn; lia.
Qed.

Lemma deletes_by_snoc_store i j key ch ops :
  deletes_by i (ops ++ [OpStore j key ch]) = deletes_by i ops.
Proof.
  unfold deletes_by. rewrite List.filter_app, length_app. cbn. lia.
Qed.

Lemma frame_of_insert_ne w i j c :
  i ≠ j → frame <$> <[j := c]> (calls w) !! i = frame_of w i.
Proof. intros Hne. unfold frame_of. by rewrite list_lookup_insert_ne. Qed.

Lemma leave_waiting_or_left n i w0 w c input toolUseID ch r :
  calls w !! i = Some c → frame c = AtSelect input toolUseID ch →
  calls w0 = calls w → journal w0 = journal w →
  waiting_or_left n i w → waiting_or_left n i (leave w0 i c toolUseID r).
Proof.
  intros Hi Hf Hc Hj. unfold waiting_or_left, frame_of. rewrite Hi. cbn.
  rewrite Hf. intros Hn. rewrite Hc, Hj.
  rewrite list_lookup_insert_eq by by eapply lookup_lt_Some. cbn.
  by rewrite deletes_by_snoc_delete, Nat.eqb_refl, Hn.
Qed.

Lemma leave_other n i j w0 w c toolUseID r :
  i ≠ j → calls w0 = calls w → journal w0 = journal w →
  waiting_or_left n i w → waiting_or_left n i (leave w0 j c toolUseID r).
Proof.
  intros Hne Hc Hj. unfold waiting_or_left, frame_of. cbn. rewrite Hc, Hj.
  rewrite list_lookup_insert_ne by done. rewrite deletes_by_snoc_delete.
  by destruct (Nat.eqb_spec i j).
Qed.

Lemma step_waiting_or_left n i w a w' :
  waiting_or_left n i w → step w a = Some w' → waiting_or_left n i w'.
Proof.
  intros Hinv Hstep.
  destruct a as [ctx request|j|j|j|j|j err| |event|ref approve comment att];
    cbn in Hstep.
  - injection Hstep as <-. revert Hinv. unfold waiting_or_left, frame_of. cbn.
    destruct (calls w !! i) as [c|] eqn:Hi; [|done].
    by rewrite (lookup_app_l_Some _ _ _ _ Hi).
  - destruct (calls w !! j) as [c|] eqn:Hj; [|done].
    destruct (frame c) as [ctx request| | |] eqn:Hf; try done.
    injection Hstep as <-. revert Hinv. unfold waiting_or_left, enter.
    destruct (handleRequestApproval_enter _ _ _ _) as [f m']. unfold frame_of. cbn.
    destruct (decide (i = j)) as [->|Hne].
    + by rewrite Hj; cbn; rewrite Hf.
    + by rewrite list_lookup_insert_ne.
  - destruct (calls w !! j) as [c|] eqn:Hj; [|done].
    destruct (frame c) as [|input toolUseID| |] eqn:Hf; try done.
    injection Hstep as <-. revert Hinv. unfold waiting_or_left, frame_of. cbn.
    destruct (decide (i = j)) as [->|Hne].
    + by rewrite Hj; cbn; rewrite Hf.
    + by rewrite list_lookup_insert_ne, deletes_by_snoc_store.
  - destruct (calls w !! j) as [c|] eqn:Hj; [|done].
    destruct (frame c) as [| |input toolUseID ch|] eqn:Hf; try done.
    unfold receive in Hstep. destruct (channels w !! ch); [|done].
    injection Hstep as <-.
    destruct (decide (i = j)) as [->|Hne].
    + by eapply (leave_waiting_or_left n j (take_from w ch) w).
    + by apply (leave_other n i j (take_from w ch) w).
  - destruct (calls w !! j) as [c|] eqn:Hj; [|done].
    destruct (frame c) as [| |input toolUseID ch|] eqn:Hf; try done.
    unfold ctx_done in Hstep. destruct (ctxErr c); [|done].
    injection Hstep as <-.
    destruct (decide (i = j)) as [->|Hne].
    + by eapply (leave_waiting_or_left n j w w).
    + by apply (leave_other n i j w w).
  - destruct (calls w !! j) as [c|] eqn:Hj; [|done].
    destruct (ctxErr c); injection Hstep as <-; [done|].
    revert Hinv. unfold waiting_or_left, frame_of. cbn.
    destruct (decide (i = j)) as [->|Hne].
    + rewrite Hj, list_lookup_insert_eq by by eapply lookup_lt_Some. by cbn.
    + by rewrite list_lookup_insert_ne.
  - unfold listen in Hstep. destruct (subscription w) as [|event rest]; [done|].
    destruct (decision_of_event event) as [toolUseID decision].
    by destruct (deliver _ _); injection Hstep as <-.
  - by injection Hstep as <-.
  - injection Hstep as <-. revert Hinv. unfold waiting_or_left, frame_of, submit.
    by destruct (Decide _ _ _ _ _) as [[r m'] events].
Qed.

Lemma run_waiting_or_left n i schedule : ∀ w w',
  waiting_or_left n i w → run w schedule = Some w' → waiting_or_left n i w'.
Proof.
  induction schedule as [|a rest IH]; intros w w' Hinv Hrun; cbn in Hrun.
  - by injection Hrun as <-.
  - destruct (step w a) as [w1|] eqn:Hstep; [|done].
    eapply IH; [|exact Hrun]. by eapply step_waiting_or_left.
Qed.

Lemma leave_facts w0 i c toolUseID r :
  i < length (calls w0) →
  let w' := leave w0 i c toolUseID r in
  pendingApprovals (server w') !! toolUseID = None
  ∧ journal w' = journal w0 ++ [OpDelete i toolUseID]
  ∧ frame_of w' i = Some (Returned r)
  ∧ step w' (Enter i) = None ∧ step w' (Register i) = None
  ∧ step w' (Receive i) = None ∧ step w' (CtxDone i) = None.
Proof.
  intros Hlt. cbn. unfold frame_of. cbn.
  rewrite lookup_delete_eq, list_lookup_insert_eq by done. by cbn.
Qed.

(** C6. A call that has registered its handle and waits in the [select]
    deregisters it exactly once, whichever case ends the wait. At the
    step that returns (decision received or context done) the deferred
    [Delete] runs: [pendingApprovals] has no entry for the tool-use id,
    the journal gains that one [Delete], and the call can take no
    further step. After a return on cancellation, a resolution event for
    the same tool-use id is consumed by the listener without touching
    any channel or call. Over every schedule the number of [Delete]s the
    call has made is unchanged while it waits and exactly one more once
    it has returned. *)
Theorem wait_handle_deregistered_exactly_once
        (w : World) (i : nat) (c : Call) (input : any) (toolUseID : string)
        (decisionChan : nat) :
  calls w !! i = Some c →
  frame c = AtSelect input toolUseID decisionChan →
  (∀ a w', a = Receive i ∨ a = CtxDone i → step w a = Some w' →
     pendingApprovals (server w') !! toolUseID = None
     ∧ journal w' = journal w ++ [OpDelete i toolUseID]
     ∧ (∃ r, frame_of w' i = Some (Returned r))
     ∧ step w' (Enter i) = None ∧ step w' (Register i) = None
     ∧ step w' (Receive i) = None ∧ step w' (CtxDone i) = None
     ∧ (a = CtxDone i → ∀ event rest,
          subscription w' = event :: rest →
          (decision_of_event event).1 = toolUseID →
          step w' Listen = Some (with_subscription w' rest)
          ∧ channels (with_subscription w' rest) = channels w'
          ∧ calls (with_subscription w' rest) = calls w'))
  ∧ (∀ schedule w', run w schedule = Some w' →
       match frame_of w' i with
       | Some (AtSelect _ _ _) =>
           deletes_by i (journal w') = deletes_by i (journal w)
       | Some (Returned _) =>
           deletes_by i (journal w') = S (deletes_by i (journal w))
       | _ => False
       end).
Proof.
  intros Hi Hf.
  assert (Hlt : i < length (calls w)) by by eapply lookup_lt_Some.
  split.
  - intros a w' [->| ->] Hstep; cbn in Hstep; rewrite Hi, Hf in Hstep.
    + unfold receive in Hstep.
      destruct (channels w !! decisionChan) as [decision|]; [|done].
      injection Hstep as <-.
      destruct (leave_facts (take_from w decisionChan) i c toolUseID
                  (Ok (text_result (decision_response input decision))) Hlt)
        as (H1 & H2 & H3 & H4 & H5 & H6 & H7).
      repeat split; try done. by eexists.
    + unfold ctx_done in Hstep. destruct (ctxErr c) as [err|]; [|done].
      injection Hstep as <-.
      destruct (leave_facts w i c toolUseID (Err err) Hlt)
        as (H1 & H2 & H3 & H4 & H5 & H6 & H7).
      split; [done|]. split; [done|]. split; [by eexists|].
      do 4 (split; [done|]).
      intros _ event rest Hq Ht. split; [|done].
      apply (listen_unmatched _ event rest Hq). by rewrite Ht.
  - intros schedule w' Hrun.
    apply (run_waiting_or_left (deletes_by i (journal w)) i schedule w w');
      [|done].
    unfold waiting_or_left, frame_of. by rewrite Hi; cbn; rewrite Hf.
Qed.

End Gateway.

End MCP.

(** ** The Approval Manager *)

Module ApprovalManager.
Import MCP.

(** Modelled from the spec: the Approval Manager and the store behind it
    (packages [approval] and [store] are not among the sources). The
    state is the set of known sessions, each with its allow-list of tool
    names, the "auto-deny all" policy, and the approval records, exactly
    one per tool-use id. Each operation is atomic, as the design
    requires of the guarded transition. *)
Record State := {
  sessions : gmap string (list string);
  autoDeny : bool;
  approvals : gmap string Approval;
}.

Definition approval_id (toolUseID : string) : string :=
  "approval-" +:+ toolUseID.

Fixpoint strip_prefix (p s : string) : option string :=
  match p, s with
  | EmptyString, _ => Some s
  | String a p', String b s' => if Ascii.eqb a b then strip_prefix p' s' else None
  | String _ _, EmptyString => None
  end.

(** The tool-use id a decision is addressed to. *)
Definition target (ref : ApprovalRef) : option string :=
  match ref with
  | ByToolUseID toolUseID => Some toolUseID
  | ByApprovalID id => strip_prefix "approval-" id
  end.

(** Modelled from the spec: [CreateApproval] fails with SessionNotFound
    for an unknown session; under an auto-policy the approval is created
    already resolved (denied under "auto-deny all", approved for a tool
    on the session's allow-list); otherwise it is created pending. The
    record is stored before the call returns. A tool-use id that already
    has its approval keeps it. *)
Definition CreateApproval (st : State)
           (sessionID toolName toolInput toolUseID : string)
  : result Approval * State :=
  match sessions st !! sessionID with
  | None => (Err "SessionNotFound", st)
  | Some allowList =>
      match approvals st !! toolUseID with
      | Some existing => (Ok existing, st)
      | None =>
          let status :=
            if autoDeny st then "denied"
            else if existsb (String.eqb toolName) allowList then "approved"
            else "pending" in
          let a := {| ID := approval_id toolUseID; SessionID := sessionID;
                      ToolUseID := toolUseID; ToolName := toolName;
                      ToolInput := toolInput; Status := status;
                      ResponseText := ""; Attachments := [] |} in
          (Ok a, {| sessions := sessions st; autoDeny := autoDeny st;
                    approvals := <[toolUseID := a]> (approvals st) |})
      end
  end.

(** Modelled from the spec: the resolution event carries the tool-use
    id, the boolean outcome, the comment and the attachment references,
    under the keys the gateway's listener reads. *)
Definition resolution_event (toolUseID : string) (approve : bool)
           (comment : string) (attachments : list string) : Event :=
  {| EventType := EventApprovalResolved;
     EventData := {[ "tool_use_id" := Str toolUseID;
                     "approved" := Bool approve;
                     "response_text" := Str comment;
                     "image_paths" := Strs attachments ]} |}.

Definition resolved (a : Approval) (approve : bool) (comment : string)
           (attachments : list string) : Approval :=
  {| ID := ID a; SessionID := SessionID a; ToolUseID := ToolUseID a;
     ToolName := ToolName a; ToolInput := ToolInput a;
     Status := if approve then "approved" else "denied";
     ResponseText := comment; Attachments := attachments |}.

(** Modelled from the spec: [Decide] fails with NotFound when the
    approval does not exist and with AlreadyResolved when it is no
    longer pending; otherwise it commits the decision and publishes
    exactly one resolution event, as one atomic step. *)
Definition Decide (st : State) (ref : ApprovalRef) (approve : bool)
           (comment : string) (attachments : list string)
  : DecideResult * State * list Event :=
  match target ref with
  | None => (NotFound, st, [])
  | Some toolUseID =>
      match approvals st !! toolUseID with
      | None => (NotFound, st, [])
      | Some a =>
          if String.eqb (Status a) "pending" then
            (Decided,
             {| sessions := sessions st; autoDeny := autoDeny st;
                approvals := <[toolUseID := resolved a approve comment attachments]>
                               (approvals st) |},
             [resolution_event toolUseID approve comment attachments])
          else (AlreadyResolved, st, [])
      end
  end.

#[export] Instance State_Manager : Manager State :=
  {| MCP.CreateApprovalWithToolUseID := CreateApproval; MCP.Decide := Decide |}.

(** A decision as a client submits it. *)
Record Decision := {
  ref : ApprovalRef;
  approve : bool;
  comment : string;
  attachments : list string;
}.

(** Decisions applied one after the other, in the order in which their
    atomic steps take place: what each caller is told, the final state,
    and the events published. *)
Fixpoint decide_all (st : State) (ds : list Decision)
  : list (Decision * DecideResult) * State * list Event :=
  match ds with
  | [] => ([], st, [])
  | d :: rest =>
      let '(r, st1, ev1) := Decide st (ref d) (approve d) (comment d) (attachments d) in
      let '(rs, st2, ev2) := decide_all st1 rest in
      ((d, r) :: rs, st2, ev1 ++ ev2)
  end.

(** The number of decisions addressed to [toolUseID] that succeeded. *)
Definition succeeded_for (toolUseID : string) (p : Decision * DecideResult) : bool :=
  match p.2, target (ref p.1) with
  | Decided, Some t => String.eqb t toolUseID
  | _, _ => false
  end.

Definition successes (toolUseID : string) (rs : list (Decision * DecideResult)) : nat :=
  length (List.filter (succeeded_for toolUseID) rs).

(** *** Facts about [Decide] *)

Lemma target_approval_id toolUseID :
  target (ByApprovalID (approval_id toolUseID)) = Some toolUseID.
Proof. reflexivity. Qed.

Lemma decide_all_cons st d rest :
  decide_all st (d :: rest)
  = let x := Decide st (ref d) (approve d) (comment d) (attachments d) in
    let y := decide_all x.1.2 rest in
    ((d, x.1.1) :: y.1.1, y.1.2, x.2 ++ y.2).
Proof.
  cbn [decide_all]. destruct (Decide _ _ _ _ _) as [[r st1] ev1]. cbn.
  by destruct (decide_all st1 rest) as [[rs st2] ev2].
Qed.

Lemma resolved_not_pending a approve comment attachments :
  String.eqb (Status (resolved a approve comment attachments)) "pending" = false.
Proof. by destruct approve. Qed.

Lemma Decide_already_resolved st r t a approve comment attachments :
  target r = Some t → approvals st !! t = Some a →
  String.eqb (Status a) "pending" = false →
  Decide st r approve comment attachments = (AlreadyResolved, st, []).
Proof. intros Ht Ha Hs. unfold Decide. by rewrite Ht, Ha, Hs. Qed.

Lemma decide_all_already_resolved st t a ds :
  approvals st !! t = Some a →
  String.eqb (Status a) "pending" = false →
  Forall (λ d, target (ref d) = Some t) ds →
  decide_all st ds = (map (λ d, (d, AlreadyResolved)) ds, st, []).
Proof.
  intros Ha Hs Hall. induction Hall as [|d rest Hd _ IH]; [done|].
  rewrite decide_all_cons.
  rewrite (Decide_already_resolved st (ref d) t a _ _ _ Hd Ha Hs). cbn.
  by rewrite IH.
Qed.

(** The cases of one [Decide], as seen from tool-use id [t]. *)
Lemma Decide_cases st r approve comment attachments t :
  let x := Decide st r approve comment attachments in
  (x.1.1 ≠ Decided ∧ x.1.2 = st)
  ∨ (x.1.1 = Decided ∧ target r = Some t
     ∧ ∃ a, approvals x.1.2 !! t = Some a
            ∧ String.eqb (Status a) "pending" = false)
  ∨ (x.1.1 = Decided ∧ target r ≠ Some t
     ∧ approvals x.1.2 !! t = approvals st !! t).
Proof.
  unfold Decide. destruct (target r) as [t'|]; [|by left].
  destruct (approvals st !! t') as [a|] eqn:Ha; [|by left].
  destruct (String.eqb (Status a) "pending"); [|by left].
  right. destruct (decide (t' = t)) as [->|Hne]; cbn.
  - left. repeat split. eexists. rewrite lookup_insert_eq. split; [done|].
    apply resolved_not_pending.
  - right. repeat split; [congruence|]. by rewrite lookup_insert_ne.
Qed.

Lemma successes_cons t d r rs :
  successes t ((d, r) :: rs)
  = (if succeeded_for t (d, r) then 1 else 0) + successes t rs.
Proof. unfold successes. cbn. by destruct (succeeded_for t (d, r)). Qed.

Lemma succeeded_for_not_decided t d r :
  r ≠ Decided → succeeded_for t (d, r) = false.
Proof. by destruct r. Qed.

Lemma succeeded_for_other t d r :
  target (ref d) ≠ Some t → succeeded_for t (d, r) = false.
Proof.
  intros Hne. unfold succeeded_for. cbn. destruct r; try done.
  destruct (target (ref d)) as [t'|]; [|done].
  apply String.eqb_neq. congruence.
Qed.

Lemma no_success_once_resolved t ds : ∀ st,
  (∀ a, approvals st !! t = Some a → String.eqb (Status a) "pending" = false) →
  successes t (decide_all st ds).1.1 = 0.
Proof.
  induction ds as [|d rest IH]; intros st Hres; [done|].
  rewrite decide_all_cons. cbn zeta. cbn [fst snd]. rewrite successes_cons.
  pose proof (Decide_cases st (ref d) (approve d) (comment d) (attachments d) t) as Hc.
  cbn zeta in Hc.
  destruct (Decide st (ref d) (approve d) (comment d) (attachments d))
    as [[r st1] ev1] eqn:HD. cbn [fst snd] in *.
  destruct Hc as [[Hr ->]|[(-> & Ht & a & Ha & Hs)|(-> & Ht & Heq)]].
  - rewrite succeeded_for_not_decided by done. by rewrite IH.
  - exfalso. unfold Decide in HD. rewrite Ht in HD.
    destruct (approvals st !! t) as [a0|] eqn:Ha0; [|done].
    by rewrite (Hres _ eq_refl) in HD.
  - rewrite succeeded_for_other by done. rewrite IH; [done|].
    intros a Ha. apply Hres. by rewrite <- Heq.
Qed.

Lemma at_most_one_success t ds : ∀ st,
  successes t (decide_all st ds).1.1 ≤ 1.
Proof.
  induction ds as [|d rest IH]; intros st; [cbn; lia|].
  rewrite decide_all_cons. cbn zeta. cbn [fst snd]. rewrite successes_cons.
  pose proof (Decide_cases st (ref d) (approve d) (comment d) (attachments d) t) as Hc.
  cbn zeta in Hc.
  destruct (Decide st (ref d) (approve d) (comment d) (attachments d))
    as [[r st1] ev1]. cbn [fst snd] in *.
  destruct Hc as [[Hr ->]|[(-> & Ht & a & Ha & Hs)|(-> & Ht & Heq)]].
  - rewrite succeeded_for_not_decided by done. apply IH.
  - rewrite no_success_once_resolved; [destruct (succeeded_for _ _); lia|].
    intros a' Ha'. congruence.
  - rewrite succeeded_for_other by done. apply IH.
Qed.

(** Duplicate decisions on one pending approval, each [Decide] taken as
    one atomic step, one after the other: the first is committed (the
    record takes its outcome, comment and attachments) and its caller is
    told Decided; every later caller is told AlreadyResolved and leaves
    the state as the first left it; exactly one resolution event is
    published. And for every state and every sequence of decisions, at
    most one decision addressed to a given tool-use id succeeds. *)
Theorem duplicate_decisions_commit_once
        (st : State) (t : string) (a : Approval) (d : Decision) (ds : list Decision) :
  approvals st !! t = Some a →
  Status a = "pending" →
  Forall (λ d', target (ref d') = Some t) (d :: ds) →
  decide_all st (d :: ds)
  = ((d, Decided) :: map (λ d', (d', AlreadyResolved)) ds,
     {| sessions := sessions st; autoDeny := autoDeny st;
        approvals := <[t := resolved a (approve d) (comment d) (attachments d)]>
                       (approvals st) |},
     [resolution_event t (approve d) (comment d) (attachments d)])
  ∧ successes t (decide_all st (d :: ds)).1.1 = 1
  ∧ ∀ st0 ds0, successes t (decide_all st0 ds0).1.1 ≤ 1.
Proof.
  intros Ha Hs Hall. apply Forall_cons in Hall as [Hd Hds].
  assert (Heq : decide_all st (d :: ds)
    = ((d, Decided) :: map (λ d', (d', AlreadyResolved)) ds,
       {| sessions := sessions st; autoDeny := autoDeny st;
          approvals := <[t := resolved a (approve d) (comment d) (attachments d)]>
                         (approvals st) |},
       [resolution_event t (approve d) (comment d) (attachments d)])).
  { rewrite decide_all_cons. cbn zeta. unfold Decide. rewrite Hd, Ha, Hs. cbn [fst snd].
    erewrite decide_all_already_resolved; [done| |apply resolved_not_pending|done].
    cbn. by rewrite lookup_insert_eq. }
  split; [exact Heq|]. split; [|intros st0 ds0; apply at_most_one_success].
  pose proof (at_most_one_success t (d :: ds) st) as Hle.
  rewrite Heq in *. cbn [fst snd] in *. rewrite successes_cons in *.
  unfold succeeded_for in *. cbn [fst snd] in *. rewrite Hd in *.
  rewrite String.eqb_refl in *. lia.
Qed.

End ApprovalManager.

(** ** Decisions submitted at the same time *)

Module DecideRace.
Import MCP ApprovalManager.

(** Modelled from the spec: the store contract behind [Decide] (package
    [store] is not among the sources). [GetApproval] reads the record of
    a tool-use id. [ResolveApproval] is the guarded transition of the
    record, which the design requires to be atomic per key: it commits
    the decision when the record is still pending, and reports whether
    it did. *)
Definition GetApproval (st : State) (toolUseID : string) : option Approval :=
  approvals st !! toolUseID.

Definition ResolveApproval (st : State) (toolUseID : string) (approve : bool)
           (comment : string) (attachments : list string) : bool * State :=
  match approvals st !! toolUseID with
  | Some a =>
      if String.eqb (Status a) "pending" then
        (true,
         {| sessions := sessions st; autoDeny := autoDeny st;
            approvals := <[toolUseID := resolved a approve comment attachments]>
                           (approvals st) |})
      else (false, st)
  | None => (false, st)
  end.

(** Modelled from the spec: where a caller of [Decide] stands. Between
    two calls to the store another caller may run: a caller that has
    read a pending record has not yet committed anything, and one whose
    decision is committed has not yet published its event. *)
Inductive Stage :=
| Called
| SawPending
| Committed
| Done (r : DecideResult).

Record Caller := {
  decision : Decision;
  stage : Stage;
}.

(** The store, the callers and the events published so far. *)
Record Race := {
  store : State;
  callers : list Caller;
  published : list Event;
}.

(** Modelled from the spec: the next step of one caller of [Decide]:
    look the approval up (NotFound when it does not exist,
    AlreadyResolved when it is no longer pending); resolve it through
    the guarded transition (AlreadyResolved when another caller came
    first); publish the resolution event and return. *)
Definition advance_caller (st : State) (c : Caller) : State * Stage * list Event :=
  let d := decision c in
  match stage c, target (ref d) with
  | Done r, _ => (st, Done r, [])
  | _, None => (st, Done NotFound, [])
  | Called, Some toolUseID =>
      match GetApproval st toolUseID with
      | None => (st, Done NotFound, [])
      | Some a =>
          if String.eqb (Status a) "pending" then (st, SawPending, [])
          else (st, Done AlreadyResolved, [])
      end
  | SawPending, Some toolUseID =>
      let '(won, st') :=
        ResolveApproval st toolUseID (approve d) (comment d) (attachments d) in
      if won then (st', Committed, []) else (st', Done AlreadyResolved, [])
  | Committed, Some toolUseID =>
      (st, Done Decided,
       [resolution_event toolUseID (approve d) (comment d) (attachments d)])
  end.

(** Caller [i] takes its next step; a caller that has returned, or an
    index that names no caller, changes nothing. *)
Definition advance (r : Race) (i : nat) : Race :=
  match callers r !! i with
  | None => r
  | Some c =>
      let '(st, s, events) := advance_caller (store r) c in
      {| store := st;
         callers := <[i := {| decision := decision c; stage := s |}]> (callers r);
         published := published r ++ events |}
  end.

(** The steps of the callers, interleaved as the schedule says. *)
Definition run_race (r : Race) (schedule : list nat) : Race :=
  fold_left advance schedule r.

Definition start_race (st : State) (ds : list Decision) : Race :=
  {| store := st;
     callers := map (λ d, {| decision := d; stage := Called |}) ds;
     published := [] |}.

(** The caller's decision for [toolUseID] has been committed. *)
Definition won (toolUseID : string) (c : Caller) : bool :=
  match stage c with
  | Committed | Done Decided =>
      bool_decide (target (ref (decision c)) = Some toolUseID)
  | _ => false
  end.

Definition winners (toolUseID : string) (r : Race) : nat :=
  length (List.filter (won toolUseID) (callers r)).

(** How often caller [i] is scheduled. *)
Definition turns (i : nat) (schedule : list nat) : nat :=
  length (List.filter (Nat.eqb i) schedule).

(** The steps a caller still has to take. *)
Definition remaining (s : Stage) : nat :=
  match s with
  | Called => 3
  | SawPending => 2
  | Committed => 1
  | Done _ => 0
  end.

Definition resolved_by (st : State) (toolUseID : string) (a : Approval)
           (d : Decision) : State :=
  {| sessions := sessions st; autoDeny := autoDeny st;
     approvals := <[toolUseID := resolved a (approve d) (comment d) (attachments d)]>
                    (approvals st) |}.

(** *** One caller alone *)

(** A caller that is not interrupted does what the atomic [Decide]
    does. *)
Lemma uninterrupted_is_Decide st d :
  run_race (start_race st [d]) [0; 0; 0]
  = let x := Decide st (ref d) (approve d) (comment d) (attachments d) in
    {| store := x.1.2;
       callers := [ {| decision := d; stage := Done x.1.1 |} ];
       published := x.2 |}.
Proof.
  unfold Decide, run_race, start_race, advance, advance_caller, GetApproval,
    ResolveApproval.
  destruct (target (ref d)) as [t|] eqn:Ht;
    [|by repeat (cbn; rewrite ?Ht)].
  destruct (approvals st !! t) as [a|] eqn:Ha;
    [|by repeat (cbn; rewrite ?Ht, ?Ha)].
  destruct (String.eqb (Status a) "pending") eqn:Hs;
    by repeat (cbn; rewrite ?Ht, ?Ha, ?Hs).
Qed.

(** *** At most one winner *)

Lemma filter_insert {A} (P : A → bool) (l : list A) : ∀ i x y,
  l !! i = Some x →
  length (List.filter P (<[i := y]> l)) + (if P x then 1 else 0)
  = length (List.filter P l) + (if P y then 1 else 0).
Proof.
  induction l as [|z l IH]; intros [|i] x y Hi; try done.
  - injection Hi as ->. cbn [insert list_insert List.filter].
    destruct (P x), (P y); cbn [length]; lia.
  - specialize (IH i x y Hi).
    change (<[S i := y]> (z :: l)) with (z :: <[i := y]> l).
    cbn [List.filter]. destruct (P z); cbn [length]; lia.
Qed.

(** No winner for the id yet, or one and the record is resolved. *)
Definition one_winner (t : string) (r : Race) : Prop :=
  winners t r = 0
  ∨ (winners t r = 1
     ∧ ∃ a, approvals (store r) !! t = Some a
            ∧ String.eqb (Status a) "pending" = false).

(** A step that leaves the caller's claim on [t] and the record of [t]
    as they were. *)
Lemma one_winner_kept t r i d s s' st' events :
  callers r !! i = Some {| decision := d; stage := s |} →
  won t {| decision := d; stage := s' |} = won t {| decision := d; stage := s |} →
  approvals st' !! t = approvals (store r) !! t →
  one_winner t r →
  one_winner t {| store := st';
                  callers := <[i := {| decision := d; stage := s' |}]> (callers r);
                  published := published r ++ events |}.
Proof.
  intros Hi Hwon Hrecord Hinv.
  pose proof (filter_insert (won t) (callers r) i _
                {| decision := d; stage := s' |} Hi) as Hcount.
  rewrite Hwon in Hcount. unfold one_winner, winners in *. cbn [callers store].
  rewrite Hrecord.
  destruct Hinv as [H0|[H1 Ha]]; [left|right; split; [|done]]; lia.
Qed.

Lemma advance_one_winner t r i : one_winner t r → one_winner t (advance r i).
Proof.
  intros Hinv. unfold advance.
  destruct (callers r !! i) as [[d s]|] eqn:Hi; [|done].
  unfold advance_caller. cbn [decision stage].
  destruct s as [| | |res].
  - (* the lookup *)
    destruct (target (ref d)) as [t'|]; [|by (eapply one_winner_kept; [exact Hi|done..])].
    unfold GetApproval.
    destruct (approvals (store r) !! t') as [a|]; [|by (eapply one_winner_kept; [exact Hi|done..])].
    destruct (String.eqb (Status a) "pending"); by (eapply one_winner_kept; [exact Hi|done..]).
  - (* the guarded transition *)
    destruct (target (ref d)) as [t'|] eqn:Ht; [|by (eapply one_winner_kept; [exact Hi|done..])].
    unfold ResolveApproval.
    destruct (approvals (store r) !! t') as [a|] eqn:Ha; [|by (eapply one_winner_kept; [exact Hi|done..])].
    destruct (String.eqb (Status a) "pending") eqn:Hs; [|by (eapply one_winner_kept; [exact Hi|done..])].
    destruct (decide (t' = t)) as [->|Hne].
    + pose proof (filter_insert (won t) (callers r) i _
                    {| decision := d; stage := Committed |} Hi) as Hcount.
      assert (Hnow : won t {| decision := d; stage := Committed |} = true).
      { unfold won. cbn [stage decision]. by rewrite bool_decide_eq_true_2. }
      assert (Hbefore : won t {| decision := d; stage := SawPending |} = false)
        by done.
      rewrite Hnow, Hbefore in Hcount.
      unfold one_winner, winners in *. cbn [callers store approvals].
      destruct Hinv as [H0|[H1 (a' & Ha' & Hs')]]; [|congruence].
      right. split; [lia|]. eexists. rewrite lookup_insert_eq. split; [done|].
      apply resolved_not_pending.
    + eapply one_winner_kept; [exact Hi| |  |done].
      * unfold won. cbn [stage decision]. rewrite Ht.
        apply bool_decide_eq_false_2. congruence.
      * cbn. by rewrite lookup_insert_ne.
  - (* the publication *)
    destruct (target (ref d)) as [t'|] eqn:Ht; [by (eapply one_winner_kept; [exact Hi|done..])|].
    eapply one_winner_kept; [exact Hi| |done..].
    unfold won. cbn [stage decision]. rewrite Ht.
    by rewrite bool_decide_eq_false_2.
  - (* returned *)
    by (eapply one_winner_kept; [exact Hi|done..]).
Qed.

Lemma run_race_invariant (P : Race → Prop) :
  (∀ r i, P r → P (advance r i)) →
  ∀ schedule r, P r → P (run_race r schedule).
Proof.
  intros Hstep. induction schedule as [|i rest IH]; intros r HP; [done|].
  cbn. apply IH, Hstep, HP.
Qed.

Lemma start_no_winner t st ds : winners t (start_race st ds) = 0.
Proof. unfold winners, start_race. cbn. by induction ds. Qed.

Lemma at_most_one_winner t st ds schedule :
  winners t (run_race (start_race st ds) schedule) ≤ 1.
Proof.
  assert (H : one_winner t (run_race (start_race st ds) schedule)).
  { apply run_race_invariant; [intros; by apply advance_one_winner|].
    left. apply start_no_winner. }
  destruct H as [H|[H _]]; lia.
Qed.

(** *** Every caller returns *)

Lemma advance_other r i j : i ≠ j → callers (advance r j) !! i = callers r !! i.
Proof.
  intros Hne. unfold advance. destruct (callers r !! j) as [c|]; [|done].
  destruct (advance_caller (store r) c) as [[st s] events]. cbn.
  by rewrite list_lookup_insert_ne.
Qed.

Lemma advance_caller_remaining st c :
  remaining (advance_caller st c).1.2 ≤ remaining (stage c) - 1.
Proof.
  unfold advance_caller. cbn zeta.
  destruct (stage c); destruct (target (ref (decision c))) as [t|]; cbn; try lia.
  - unfold GetApproval. destruct (approvals st !! t) as [a|]; cbn; [|lia].
    destruct (String.eqb (Status a) "pending"); cbn; lia.
  - destruct (ResolveApproval _ _ _ _ _) as [[|] st']; cbn; lia.
Qed.

Lemma advance_remaining r i c :
  callers r !! i = Some c →
  ∃ c', callers (advance r i) !! i = Some c'
        ∧ decision c' = decision c
        ∧ remaining (stage c') ≤ remaining (stage c) - 1.
Proof.
  intros Hi. unfold advance. rewrite Hi.
  pose proof (advance_caller_remaining (store r) c) as Hle.
  destruct (advance_caller (store r) c) as [[st s] events]. cbn in *.
  eexists. split; [apply list_lookup_insert_eq; by eapply lookup_lt_Some|done].
Qed.

(** After [turns i schedule] of its steps, caller [i] has that many
    fewer to take. *)
Lemma run_race_remaining schedule : ∀ r i c,
  callers r !! i = Some c →
  ∃ c', callers (run_race r schedule) !! i = Some c'
        ∧ decision c' = decision c
        ∧ remaining (stage c') ≤ remaining (stage c) - turns i schedule.
Proof.
  induction schedule as [|j rest IH]; intros r i c Hi.
  - exists c. cbn. split; [done|]. split; [done|lia].
  - cbn [run_race fold_left]. unfold turns. cbn [List.filter].
    destruct (Nat.eqb_spec i j) as [<-|Hne].
    + destruct (advance_remaining r i c Hi) as (c1 & H1 & Hd1 & Hle1).
      destruct (IH (advance r i) i c1 H1) as (c' & H' & Hd' & Hle').
      exists c'. split; [done|]. split; [congruence|].
      unfold turns in Hle'. cbn [length]. lia.
    + destruct (IH (advance r j) i c) as (c' & H' & Hd' & Hle').
      { by rewrite advance_other. }
      by exists c'.
Qed.

(** *** Duplicate decisions on one pending approval *)

Section Duplicates.

Variable st : State.
Variable t : string.
Variable a : Approval.
Variable ds : list Decision.
Hypothesis pending_at_start : approvals st !! t = Some a ∧ Status a = "pending".
Hypothesis same_approval : Forall (λ d, target (ref d) = Some t) ds.

(** Nothing is committed yet: every caller is before its call of
    [ResolveApproval]. *)
Definition undecided (r : Race) : Prop :=
  store r = st ∧ published r = []
  ∧ ∀ j c, callers r !! j = Some c → stage c = Called ∨ stage c = SawPending.

(** The decision of caller [i] is the one committed: the record holds
    it, its event is published once the caller has returned, and every
    other caller has not got through or has returned AlreadyResolved. *)
Definition decided_by (i : nat) (d : Decision) (r : Race) : Prop :=
  ds !! i = Some d
  ∧ store r = resolved_by st t a d
  ∧ (∃ c, callers r !! i = Some c
          ∧ ((stage c = Committed ∧ published r = [])
             ∨ (stage c = Done Decided
                ∧ published r
                  = [resolution_event t (approve d) (comment d) (attachments d)])))
  ∧ ∀ j c, j ≠ i → callers r !! j = Some c →
      stage c = Called ∨ stage c = SawPending ∨ stage c = Done AlreadyResolved.

Definition duplicates_inv (r : Race) : Prop :=
  map decision (callers r) = ds
  ∧ (undecided r ∨ ∃ i d, decided_by i d r).

Lemma start_duplicates_inv : duplicates_inv (start_race st ds).
Proof.
  split.
  - unfold start_race. cbn. rewrite map_map. cbn. apply map_id.
  - left. repeat split. intros j c Hj. unfold start_race in Hj. cbn in Hj.
    apply list_lookup_fmap_Some in Hj as (d & -> & _). by left.
Qed.

Lemma caller_target r j c :
  map decision (callers r) = ds → callers r !! j = Some c →
  target (ref (decision c)) = Some t ∧ ds !! j = Some (decision c).
Proof.
  intros Hds Hj.
  assert (Hd : ds !! j = Some (decision c)).
  { rewrite <- Hds. change (map decision (callers r)) with (decision <$> callers r).
    by rewrite list_lookup_fmap, Hj. }
  split; [|done].
  by apply (Forall_lookup_1 _ _ _ _ same_approval Hd).
Qed.

Lemma map_decision_insert r j c s :
  callers r !! j = Some c →
  map decision (<[j := {| decision := decision c; stage := s |}]> (callers r))
  = map decision (callers r).
Proof.
  intros Hj. change (map decision ?l) with (decision <$> l).
  rewrite list_fmap_insert. cbn. apply list_insert_id.
  by rewrite list_lookup_fmap, Hj.
Qed.

Lemma advance_duplicates_inv r j : duplicates_inv r → duplicates_inv (advance r j).
Proof.
  destruct pending_at_start as [Ha Hs].
  intros [Hds Hcases]. unfold advance.
  destruct (callers r !! j) as [c|] eqn:Hj; [|done].
  destruct (caller_target r j c Hds Hj) as [Ht Hdj].
  unfold advance_caller. rewrite Ht.
  destruct Hcases as [(Hst & Hpub & Hstages)|(i & d & Hi & Hst & Hwinner & Hothers)].
  - (* nothing committed yet *)
    destruct (Hstages j c Hj) as [Hc|Hc]; rewrite Hc.
    + unfold GetApproval. rewrite Hst, Ha, Hs. cbn.
      split; [cbn [callers]; by rewrite (map_decision_insert r _ c _ Hj)|]. left. rewrite app_nil_r.
      repeat split; try done. intros k ck Hk. cbn [callers] in Hk.
      destruct (decide (k = j)) as [->|Hne].
      * rewrite list_lookup_insert_eq in Hk by (by eapply lookup_lt_Some).
        injection Hk as <-. by right.
      * rewrite list_lookup_insert_ne in Hk by done. by eapply Hstages.
    + unfold ResolveApproval. rewrite Hst, Ha, Hs. cbn.
      split; [cbn [callers]; by rewrite (map_decision_insert r _ c _ Hj)|]. right. exists j, (decision c).
      split; [done|]. split; [done|]. split.
      * eexists. split; [apply list_lookup_insert_eq; by eapply lookup_lt_Some|].
        left. by rewrite Hpub.
      * intros k ck Hne Hk. cbn [callers] in Hk. rewrite list_lookup_insert_ne in Hk by done.
        destruct (Hstages k ck Hk); auto.
  - (* caller [i] has committed *)
    assert (Hrecord : approvals (store r) !! t
                      = Some (resolved a (approve d) (comment d) (attachments d))).
    { rewrite Hst. cbn. apply lookup_insert_eq. }
    destruct (decide (j = i)) as [->|Hne].
    + destruct Hwinner as (ci & Hci & Hstage). rewrite Hj in Hci. injection Hci as <-.
      assert (Hd : decision c = d) by congruence.
      destruct Hstage as [[Hc Hpub]|[Hc Hpub]]; rewrite Hc.
      * split; [cbn [callers]; by rewrite (map_decision_insert r _ c _ Hj)|]. right. exists i, d. cbn.
        split; [done|]. split; [done|]. split.
        -- eexists. split; [apply list_lookup_insert_eq; by eapply lookup_lt_Some|].
           right. by rewrite Hpub, Hd.
        -- intros k ck Hk Hlook. cbn [callers] in Hlook. rewrite list_lookup_insert_ne in Hlook by done.
           by eapply Hothers.
      * split; [cbn [callers]; by rewrite (map_decision_insert r _ c _ Hj)|]. right. exists i, d. cbn.
        rewrite app_nil_r.
        split; [done|]. split; [done|]. split.
        -- eexists. split; [apply list_lookup_insert_eq; by eapply lookup_lt_Some|].
           by right.
        -- intros k ck Hk Hlook. cbn [callers] in Hlook. rewrite list_lookup_insert_ne in Hlook by done.
           by eapply Hothers.
    + assert (Hafter : ∀ s,
        s = Called ∨ s = SawPending ∨ s = Done AlreadyResolved →
        duplicates_inv
          {| store := store r;
             callers := <[j := {| decision := decision c; stage := s |}]> (callers r);
             published := published r ++ [] |}).
      { intros s Hs'. split; [cbn [callers]; by rewrite (map_decision_insert r _ c _ Hj)|]. right. exists i, d.
        cbn. rewrite app_nil_r. split; [done|]. split; [done|]. split.
        - destruct Hwinner as (ci & Hci & Hstage). exists ci. cbn [callers].
          by rewrite list_lookup_insert_ne.
        - intros k ck Hk Hlook. cbn [callers] in Hlook. destruct (decide (k = j)) as [->|Hkj].
          + rewrite list_lookup_insert_eq in Hlook by (by eapply lookup_lt_Some).
            by injection Hlook as <-.
          + rewrite list_lookup_insert_ne in Hlook by done. by eapply Hothers. }
      destruct (Hothers j c Hne Hj) as [Hc|[Hc|Hc]]; rewrite Hc.
      * unfold GetApproval. rewrite Hrecord, resolved_not_pending. apply Hafter. auto.
      * unfold ResolveApproval. rewrite Hrecord, resolved_not_pending. apply Hafter. auto.
      * apply Hafter. auto.
Qed.

End Duplicates.

(** C3. Duplicate decisions on one pending approval, submitted at the
    same time. Each caller of [Decide] reads the record, resolves it
    through the store's guarded transition and publishes its event, and
    the steps of the callers interleave in any order: two callers may
    both have read the record as pending before either resolves it.
    Whatever the order, once every caller has taken its three steps,
    exactly one caller has returned Decided, every other caller has
    returned AlreadyResolved, the record holds the decision of that one
    caller (its outcome, comment and attachments) and nothing else of
    the state has changed, and exactly one resolution event has been
    published, the one of that decision. And for every state, every set
    of decisions and every schedule, at any point at most one decision
    addressed to a given tool-use id has been committed. *)
Theorem concurrent_decisions_commit_once
        (st : State) (t : string) (a : Approval) (ds : list Decision)
        (schedule : list nat) :
  approvals st !! t = Some a →
  Status a = "pending" →
  ds ≠ [] →
  Forall (λ d, target (ref d) = Some t) ds →
  (∀ i, i < length ds → 3 ≤ turns i schedule) →
  (∃ i d,
     ds !! i = Some d
     ∧ callers (run_race (start_race st ds) schedule)
       = <[i := {| decision := d; stage := Done Decided |}]>
           (map (λ d', {| decision := d'; stage := Done AlreadyResolved |}) ds)
     ∧ store (run_race (start_race st ds) schedule) = resolved_by st t a d
     ∧ published (run_race (start_race st ds) schedule)
       = [resolution_event t (approve d) (comment d) (attachments d)])
  ∧ ∀ st0 ds0 schedule0 t0,
      winners t0 (run_race (start_race st0 ds0) schedule0) ≤ 1.
Proof.
  intros Ha Hs Hne Hall Hfair. split; [|intros; apply at_most_one_winner].
  set (r := run_race (start_race st ds) schedule).
  assert (Hinv : duplicates_inv st t a ds r).
  { apply run_race_invariant; [|by apply start_duplicates_inv].
    intros r0 i. by apply advance_duplicates_inv. }
  assert (Hdone : ∀ j c, callers r !! j = Some c → ∃ res, stage c = Done res).
  { intros j c Hj.
    assert (Hlt : j < length ds).
    { destruct Hinv as [Hds _]. rewrite <- Hds, length_map. by eapply lookup_lt_Some. }
    destruct (lookup_lt_is_Some_2 (callers (start_race st ds)) j) as [c0 Hc0].
    { unfold start_race. cbn. by rewrite length_map. }
    destruct (run_race_remaining schedule _ j c0 Hc0) as (c' & Hc' & _ & Hle).
    fold r in Hc'. rewrite Hj in Hc'. injection Hc' as <-.
    specialize (Hfair j Hlt).
    assert (Hstart : stage c0 = Called).
    { unfold start_race in Hc0. cbn in Hc0.
      apply list_lookup_fmap_Some in Hc0 as (d0 & -> & _). done. }
    rewrite Hstart in Hle. cbn in Hle.
    destruct (stage c) as [| | |res]; cbn in Hle; try lia. by exists res. }
  destruct Hinv as [Hds [(_ & _ & Hstages)|(i & d & Hi & Hst & Hwinner & Hothers)]].
  - (* some caller exists and has returned: it cannot be undecided *)
    destruct ds as [|d0 rest]; [done|].
    destruct (callers r) as [|c0 cs] eqn:Hcs; [done|]. rewrite <- Hcs in *.
    assert (H0 : callers r !! 0 = Some c0) by (by rewrite Hcs).
    destruct (Hdone 0 c0 H0) as [res Hres].
    destruct (Hstages 0 c0 H0); congruence.
  - exists i, d. split; [done|]. split; [|split; [done|]].
    + apply list_eq. intros j.
      destruct (callers r !! j) as [c|] eqn:Hj.
      * destruct (Hdone j c Hj) as [res Hres].
        assert (Hdj : ds !! j = Some (decision c)).
        { rewrite <- Hds. change (map decision (callers r)) with (decision <$> callers r).
          by rewrite list_lookup_fmap, Hj. }
        destruct (decide (j = i)) as [->|Hji].
        -- rewrite list_lookup_insert_eq
             by (rewrite length_map; by eapply lookup_lt_Some).
           destruct Hwinner as (ci & Hci & Hstage). rewrite Hj in Hci.
           injection Hci as <-.
           destruct Hstage as [[Hc _]|[Hc _]]; [congruence|].
           destruct c as [dc sc]. cbn in *. congruence.
        -- rewrite list_lookup_insert_ne by done.
           change (map ?f ds) with (f <$> ds). rewrite list_lookup_fmap, Hdj. cbn.
           destruct (Hothers j c Hji Hj) as [Hc|[Hc|Hc]]; try congruence.
           destruct c as [dc sc]. cbn in *. congruence.
      * symmetry. apply lookup_ge_None. apply lookup_ge_None in Hj.
        rewrite length_insert, length_map. rewrite <- Hds, length_map. done.
    + destruct Hwinner as (ci & Hci & Hstage).
      destruct (Hdone i ci Hci) as [res Hres].
      destruct Hstage as [[Hc _]|[_ Hpub]]; [congruence|done].
Qed.

End DecideRace.

(** ** Scenarios: a concrete host, manager and gateway *)

Module Scenarios.
Import MCP ApprovalManager.

(** A host with two files, ASCII paths, and a plain rendering of values. *)
Definition lower (s : string) : string := s.

Definition disk : gmap string (list Byte.byte) :=
  {[ "/tmp/shot.png" := Go.bytes_of "foobar";
     "/tmp/scan.bmp" := Go.bytes_of "BM" ]}.

Definition readFile (path : string) : option (list Byte.byte) := disk !! path.

Definition show (v : any) : string :=
  match v with
  | Nil => "null"
  | Bool true => "true"
  | Bool false => "false"
  | Str s => s
  | Images l => String.concat "," (map Data l)
  | _ => "{}"
  end.

Definition marshal (v : any) : result string := Ok (show v).

Definition marshalMap (m : gmap string any) : string :=
  String.concat ";" (map (λ kv, kv.1 +:+ "=" +:+ show kv.2) (map_to_list m)).

Definition Step := step lower readFile marshal marshalMap (M := State).
Definition Run := run lower readFile marshal marshalMap (M := State).
Definition Result := text_result marshalMap.

(** Session S1 is known, has an empty allow-list, and nothing is decided
    by policy. *)
Definition store_S1 : State :=
  {| sessions := {[ "S1" := [] ]}; autoDeny := false; approvals := ∅ |}.

(** The same store under the manager's "auto-deny all" policy. *)
Definition store_deny_all : State :=
  {| sessions := {[ "S1" := [] ]}; autoDeny := true; approvals := ∅ |}.

Definition ls_input : any := Object [("command", Str "ls")].

Definition request_t1 : CallToolRequest :=
  {| Arguments := {[ "tool_name" := Str "Bash";
                     "input" := ls_input;
                     "tool_use_id" := Str "t1" ]} |}.

Definition from_S1 : Request :=
  {| Header := read_header [("X-Session-ID", "S1")]; RequestContext := ∅ |}.

Definition no_headers : Request :=
  {| Header := ∅; RequestContext := ∅ |}.

Definition auto_deny_env : gmap string string :=
  {[ "MCP_AUTO_DENY_ALL" := "true" ]}.

(** The decision is submitted after [CreateApprovalWithToolUseID] has
    returned and before the call has stored its channel. *)
Definition schedule_race : list Action :=
  [ Invoke (ServeHTTP from_S1) request_t1;
    Enter 0;
    Submit (ByToolUseID "t1") true "looks fine" [];
    Listen;
    Register 0 ].

(** The decision is submitted once the call waits. *)
Definition schedule_wait_then_decide (approve : bool) (comment : string)
           (attachments : list string) : list Action :=
  [ Invoke (ServeHTTP from_S1) request_t1;
    Enter 0;
    Register 0;
    Submit (ByToolUseID "t1") approve comment attachments;
    Listen;
    Receive 0 ].

Definition status_of (w : World) (toolUseID : string) : option string :=
  Status <$> approvals (MCP.manager w) !! toolUseID.

(** The world a schedule leads to (the start when it cannot run). *)
Definition after (w0 : World) (schedule : list Action) : World :=
  default w0 (Run w0 schedule).

Definition decision_bmp_and_gone : ApprovalDecision :=
  {| Approved := true; Comment := "ok";
     ImagePaths := ["/tmp/scan.bmp"; "/tmp/gone.png"] |}.

(** *** The race between the decision and the registration *)

(** C1, at the schedule where the code departs from it. The call has
    created the pending approval t1 and not yet stored its channel; a
    client approves t1, the manager commits the decision and publishes
    the event; the listener takes the event, finds no handle for t1 and
    drops it; the call then stores its channel and waits. The approval is
    approved, the event queue is empty, the channel is empty, and neither
    case of the call's [select] is ready: the resolution is lost. *)
Theorem decision_before_registration_is_dropped :
  (∃ w1, Run (start ∅ store_S1) (take 2 schedule_race) = Some w1
         ∧ frame_of w1 0 = Some (AtRegister ls_input "t1")
         ∧ status_of w1 "t1" = Some "pending"
         ∧ (MCP.Decide (MCP.manager w1) (ByToolUseID "t1") true "looks fine" []).1.1
           = Decided)
  ∧ ∃ w, Run (start ∅ store_S1) schedule_race = Some w
         ∧ status_of w "t1" = Some "approved"
         ∧ subscription w = []
         ∧ frame_of w 0 = Some (AtSelect ls_input "t1" 0)
         ∧ pendingApprovals (server w) !! "t1" = Some 0
         ∧ channels w !! 0 = None
         ∧ blocked lower readFile marshal marshalMap w 0
         ∧ Step w Listen = None.
Proof.
  split.
  - eexists. split; [vm_compute; reflexivity|]. by vm_compute.
  - eexists. split; [vm_compute; reflexivity|]. by vm_compute.
Qed.

(** The same decision, submitted once the call waits, reaches it. *)
Example decision_after_registration_is_delivered :
  frame_of (after (start ∅ store_S1)
                  (schedule_wait_then_decide true "looks fine" [])) 0
  = Some (Returned (Ok (Result {[ "behavior" := Str "allow";
                                  "updatedInput" := ls_input ]}))).
Proof. by vm_compute. Qed.

(** *** Where the code departs from the design's wording *)

(** C2 does not hold for an approval created denied: under the
    manager's auto-deny policy [CreateApprovalWithToolUseID] returns the
    approval with status denied, and the call does not return: it stores
    a channel under t1 and blocks in its [select]. *)
Lemma denied_at_creation_registers_and_waits :
  (Status <$> approvals
     (CreateApproval store_deny_all "S1" "Bash" "{}" "t1").2 !! "t1")
  = Some "denied"
  ∧ ∃ w, Run (start ∅ store_deny_all)
             [Invoke (ServeHTTP from_S1) request_t1; Enter 0; Register 0] = Some w
         ∧ status_of w "t1" = Some "denied"
         ∧ frame_of w 0 = Some (AtSelect ls_input "t1" 0)
         ∧ pendingApprovals (server w) !! "t1" = Some 0
         ∧ journal w = [OpStore 0 "t1" 0]
         ∧ blocked lower readFile marshal marshalMap w 0.
Proof.
  split; [by vm_compute|].
  eexists. split; [vm_compute; reflexivity|]. by vm_compute.
Qed.

(** The session header is found under any spelling of its name, and
    [X-Session-ID] comes before [Mcp-Session-Id]. *)
Example session_header_in_any_case :
  session_of (ServeHTTP {| Header := read_header [("x-session-id", "S1")];
                           RequestContext := ∅ |}) = "S1"
  ∧ session_of (ServeHTTP {| Header := read_header [("mcp-session-id", "S2");
                                                    ("X-SESSION-ID", "S1")];
                             RequestContext := ∅ |}) = "S1"
  ∧ session_of (ServeHTTP {| Header := read_header [("X-Session-ID", "");
                                                    ("Mcp-Session-Id", "S2")];
                             RequestContext := ∅ |}) = "S2"
  ∧ session_of (ServeHTTP no_headers) = "".
Proof. by vm_compute. Qed.

(** C4 does not hold in auto-deny mode: a request with no session header
    is not failed, it is answered deny. *)
Lemma auto_deny_answers_without_session :
  session_of (ServeHTTP no_headers) = ""
  ∧ ∃ w, Run (start auto_deny_env store_S1)
             [Invoke (ServeHTTP no_headers) request_t1; Enter 0] = Some w
         ∧ frame_of w 0
           = Some (Returned (Ok (Result
                {[ "behavior" := Str "deny";
                   "message" := Str "Auto-denied for testing" ]}))).
Proof.
  split; [by vm_compute|].
  eexists. split; [vm_compute; reflexivity|]. by vm_compute.
Qed.

(** C7 does not hold for every attachment: a decision that carries a
    readable .bmp file and the path of a .png file that cannot be read is
    answered with no images field. *)
Lemma attachments_not_inlined :
  readFile "/tmp/scan.bmp" = Some (Go.bytes_of "BM")
  ∧ readFile "/tmp/gone.png" = None
  ∧ decision_response lower readFile ls_input decision_bmp_and_gone
    = {[ "behavior" := Str "allow"; "updatedInput" := ls_input ]}
  ∧ decision_response lower readFile ls_input decision_bmp_and_gone !! "images"
    = None
  ∧ frame_of (after (start ∅ store_S1)
                (schedule_wait_then_decide true "ok"
                   ["/tmp/scan.bmp"; "/tmp/gone.png"])) 0
    = Some (Returned (Ok (Result (decision_response lower readFile ls_input
                                    decision_bmp_and_gone)))).
Proof. by vm_compute. Qed.

(** *** The theorems at concrete inputs *)

Definition store_allow_Bash : State :=
  {| sessions := {[ "S1" := ["Bash"] ]}; autoDeny := false; approvals := ∅ |}.

Definition call_at_entry (r : Request) : Call :=
  {| frame := AtEntry (ServeHTTP r) request_t1; ctxErr := None |}.

Definition call_waiting : Call :=
  {| frame := AtSelect ls_input "t1" 0; ctxErr := None |}.

Definition approval_t1_approved : Approval :=
  {| ID := "approval-t1"; SessionID := "S1"; ToolUseID := "t1";
     ToolName := "Bash"; ToolInput := "{}"; Status := "approved";
     ResponseText := ""; Attachments := [] |}.

Definition waiting_world : World :=
  after (start ∅ store_S1)
        [Invoke (ServeHTTP from_S1) request_t1; Enter 0; Register 0].

Definition decided_world : World :=
  after waiting_world
        [Submit (ByToolUseID "t1") false "not now" ["/tmp/shot.png"]; Listen].

Definition stray_event : Event :=
  resolution_event "t9" true "late" [].

Definition pending_t2 : Approval :=
  {| ID := "approval-t2"; SessionID := "S1"; ToolUseID := "t2";
     ToolName := "Bash"; ToolInput := "{}"; Status := "pending";
     ResponseText := ""; Attachments := [] |}.

Definition store_with_t2 : State :=
  {| sessions := {[ "S1" := [] ]}; autoDeny := false;
     approvals := {[ "t2" := pending_t2 ]} |}.

Definition approve_t2 : Decision :=
  {| ref := ByToolUseID "t2"; approve := true; comment := "looks fine";
     attachments := [] |}.

Definition deny_t2 : Decision :=
  {| ref := ByApprovalID "approval-t2"; approve := false; comment := "no";
     attachments := [] |}.

Lemma approved_at_creation_witness :
  ∃ w', Step (after (start ∅ store_allow_Bash)
                    [Invoke (ServeHTTP from_S1) request_t1]) (Enter 0) = Some w'
        ∧ journal w' = []
        ∧ frame_of w' 0
          = Some (Returned (Ok (Result {[ "behavior" := Str "allow";
                                          "updatedInput" := ls_input ]}))).
Proof.
  destruct (approved_at_creation_returns_allow lower readFile marshal marshalMap
              (after (start ∅ store_allow_Bash)
                     [Invoke (ServeHTTP from_S1) request_t1])
              0 (call_at_entry from_S1) (ServeHTTP from_S1) request_t1 "{}"
              approval_t1_approved
              (CreateApproval store_allow_Bash "S1" "Bash" "{}" "t1").2)
    as (w' & H1 & _ & _ & _ & H5 & H6);
    [by vm_compute ..|].
  exists w'. split; [exact H1|]. split; [exact H5|exact H6].
Defined.

Lemma missing_session_witness :
  ∃ w', Step (after (start ∅ store_S1)
                    [Invoke (ServeHTTP no_headers) request_t1]) (Enter 0) = Some w'
        ∧ MCP.manager w' = store_S1
        ∧ frame_of w' 0 = Some (Returned (Err "missing session_id in context")).
Proof.
  destruct (missing_session_creates_no_approval lower readFile marshal marshalMap
              (after (start ∅ store_S1)
                     [Invoke (ServeHTTP no_headers) request_t1])
              0 (call_at_entry no_headers) no_headers request_t1)
    as (w' & H1 & H2 & _ & _ & H5);
    [by vm_compute ..|].
  exists w'. split; [exact H1|]. split; [exact H2|exact H5].
Defined.

Lemma auto_deny_witness :
  journal (after (start auto_deny_env store_S1)
                 [Invoke (ServeHTTP from_S1) request_t1; Enter 0]) = [].
Proof.
  exact (proj1 (proj2
    (auto_deny_all_never_creates_or_waits lower readFile marshal marshalMap
       auto_deny_env store_S1
       [Invoke (ServeHTTP from_S1) request_t1; Enter 0]
       (after (start auto_deny_env store_S1)
              [Invoke (ServeHTTP from_S1) request_t1; Enter 0])
       eq_refl eq_refl))).
Defined.

Lemma deregistered_once_witness :
  deletes_by 0 (journal (after waiting_world
                               [Cancel 0 "context canceled"; CtxDone 0]))
  = S (deletes_by 0 (journal waiting_world)).
Proof.
  exact (proj2
    (wait_handle_deregistered_exactly_once lower readFile marshal marshalMap
       waiting_world 0 call_waiting ls_input "t1" 0 eq_refl eq_refl)
    [Cancel 0 "context canceled"; CtxDone 0]
    (after waiting_world [Cancel 0 "context canceled"; CtxDone 0])
    eq_refl).
Defined.

Lemma decision_translated_witness :
  ∃ w' responseData,
    Step decided_world (Receive 0) = Some w'
    ∧ frame_of w' 0 = Some (Returned (Ok (Result responseData)))
    ∧ responseData !! "behavior" = Some (Str "deny")
    ∧ responseData !! "message" = Some (Str "not now")
    ∧ responseData !! "images"
      = Some (Images [ {| MimeType := "image/png"; Data := "Zm9vYmFy" |} ]).
Proof.
  destruct (decision_translated_to_response lower readFile marshal marshalMap
              decided_world 0 call_waiting ls_input "t1" 0
              {| Approved := false; Comment := "not now";
                 ImagePaths := ["/tmp/shot.png"] |})
    as (w' & responseData & H1 & H2 & H3 & _ & H5 & H6);
    [by vm_compute ..|].
  exists w', responseData. repeat split; assumption.
Defined.

Lemma listener_skips_witness :
  Step (after (start ∅ store_S1) [Publish stray_event]) Listen
  = Some (with_subscription (after (start ∅ store_S1) [Publish stray_event]) []).
Proof.
  exact (proj1
    (listener_skips_unmatched_and_goes_on lower readFile marshal marshalMap
       (after (start ∅ store_S1) [Publish stray_event]) stray_event []
       eq_refl (or_introl eq_refl))).
Defined.

Lemma duplicate_decisions_in_turn :
  successes "t2" (decide_all store_with_t2 [approve_t2; deny_t2; approve_t2]).1.1 = 1.
Proof.
  refine (proj1 (proj2
    (duplicate_decisions_commit_once store_with_t2 "t2" pending_t2
       approve_t2 [deny_t2; approve_t2] eq_refl eq_refl _))).
  repeat constructor.
Qed.

(** Two callers of [Decide] on the pending approval t2: both read the
    record as pending before either resolves it, and the denial gets to
    the store first. *)
Definition schedule_both_read_pending : list nat := [0; 1; 1; 0; 1; 0].

Example denial_wins_the_race :
  DecideRace.run_race (DecideRace.start_race store_with_t2 [approve_t2; deny_t2])
                      [0; 1]
  = {| DecideRace.store := store_with_t2;
       DecideRace.callers :=
         [ {| DecideRace.decision := approve_t2;
              DecideRace.stage := DecideRace.SawPending |};
           {| DecideRace.decision := deny_t2;
              DecideRace.stage := DecideRace.SawPending |} ];
       DecideRace.published := [] |}
  ∧ DecideRace.stage
      <$> DecideRace.callers
            (DecideRace.run_race
               (DecideRace.start_race store_with_t2 [approve_t2; deny_t2])
               schedule_both_read_pending)
    = [DecideRace.Done AlreadyResolved; DecideRace.Done Decided].
Proof. by vm_compute. Qed.

Lemma concurrent_decisions_witness :
  ∃ i d,
    [approve_t2; deny_t2] !! i = Some d
    ∧ DecideRace.callers
        (DecideRace.run_race
           (DecideRace.start_race store_with_t2 [approve_t2; deny_t2])
           schedule_both_read_pending)
      = <[i := {| DecideRace.decision := d;
                  DecideRace.stage := DecideRace.Done Decided |}]>
          (map (λ d', {| DecideRace.decision := d';
                         DecideRace.stage := DecideRace.Done AlreadyResolved |})
               [approve_t2; deny_t2])
    ∧ DecideRace.store
        (DecideRace.run_race
           (DecideRace.start_race store_with_t2 [approve_t2; deny_t2])
           schedule_both_read_pending)
      = DecideRace.resolved_by store_with_t2 "t2" pending_t2 d
    ∧ DecideRace.published
        (DecideRace.run_race
           (DecideRace.start_race store_with_t2 [approve_t2; deny_t2])
           schedule_both_read_pending)
      = [resolution_event "t2" (approve d) (comment d) (attachments d)].
Proof.
  refine (proj1 (DecideRace.concurrent_decisions_commit_once
                   store_with_t2 "t2" pending_t2 [approve_t2; deny_t2]
                   schedule_both_read_pending eq_refl eq_refl _ _ _)).
  - discriminate.
  - by repeat constructor.
  - intros [|[|i]] Hi; cbn in *; lia.
Defined.

End Scenarios.

(** ** hld/api/handlers: the ephemeral chat *)

Module EphemeralChat.

Local Open Scope Z_scope.

Definition nl : string := String "010"%char EmptyString.

(** [store.Session] and the conversation events, as the handler reads them. *)
Record Session := {
  ID : string;
  Query : string;
  Summary : string;
  WorkingDir : string;
  Status : string;
}.

Record ConversationEvent := {
  EventType : string;
  Role : string;
  Content : string;
  ToolName : string;
}.

(** [store.ConversationStore], the two methods the handler calls. *)
Record ConversationStore := {
  GetSession : string → result Session;
  GetSessionConversation : string → result (list ConversationEvent);
}.

(** The methods of the store a handler may call: the two reads above and
    the writes of the store contract. *)
Inductive StoreCall :=
| CallGetSession (id : string)
| CallGetSessionConversation (id : string)
| CallGetApproval (id : string)
| CallCreateApproval (id : string)
| CallResolveApproval (id : string).


(** [claudecode.SessionConfig] and [claudecode.Result]. *)
Inductive Model := ModelSonnet | ModelNamed (name : string).

Inductive OutputFormat := OutputJSON | OutputNamed (name : string).

Record SessionConfig := {
  ConfigQuery : string;
  ConfigModel : Model;
  ConfigOutputFormat : OutputFormat;
  MaxTurns : Z;
  ConfigWorkingDir : string;
}.

Record ClaudeResult := {
  IsError : bool;
  Error : string;
  Result : string;
}.

(** [EphemeralChatHandler]: [claudeClient] is nil when no client could
    be created; a client is its [LaunchAndWait]. *)
Record EphemeralChatHandler := {
  store : ConversationStore;
  claudeClient : option (SessionConfig → result ClaudeResult);
}.

Record RequestContext := {
  IncludeRecentEvents : bool;
  MaxEvents : Z;
}.

Record EphemeralChatRequest := {
  Message : string;
  Context : RequestContext;
}.

(** What the handler writes to the connection, or the panic it ends in. *)
Inductive Reply :=
| JSONError (code : Z) (error : string)
| JSONContent (code : Z) (content : string)
| Panic (msg : string).

(** The reply, the calls made to the store and the queries launched. *)
Record Outcome := {
  reply : Reply;
  store_calls : list StoreCall;
  launches : list SessionConfig;
}.

(** Go's [int]: 64 bits, two's complement. *)
Definition wrap64 (z : Z) : Z := (z + 2 ^ 63) mod 2 ^ 64 - 2 ^ 63.

(** [events[startIdx:]]: out of range panics. *)
Definition slice_from {A} (startIdx : Z) (events : list A) : option (list A) :=
  if (startIdx <? 0) || (Z.of_nat (length events) <? startIdx) then None
  else Some (drop (Z.to_nat startIdx) events).

(** The body of the loop over the recent events. *)
Definition event_summary (event : ConversationEvent) : option string :=
  if String.eqb (EventType event) "message" && negb (String.eqb (Content event) "") then
    let role := if String.eqb (Role event) "assistant" then "Assistant" else "User" in
    let content := Content event in
    let content :=
      if 500 <? Z.of_nat (String.length content)
      then String.substring 0 500 content +:+ "..."
      else content in
    Some (role +:+ ": " +:+ content)
  else if String.eqb (EventType event) "tool_call" && negb (String.eqb (ToolName event) "") then
    Some ("Tool Call: " +:+ ToolName event)
  else None.

(** The context lines taken from the session record. *)
Definition session_parts (session : Session) : list string :=
  ["Session Query: " +:+ Query session]
  ++ (if String.eqb (Summary session) "" then []
      else ["Session Summary: " +:+ Summary session])
  ++ (if String.eqb (WorkingDir session) "" then []
      else ["Working Directory: " +:+ WorkingDir session])
  ++ ["Session Status: " +:+ Status session].

(** The context lines taken from the recent events. *)
Definition event_parts (recentEvents : list ConversationEvent) : list string :=
  let eventSummaries := omap event_summary recentEvents in
  if 0 <? Z.of_nat (length eventSummaries)
  then [nl +:+ "Recent Conversation:" +:+ nl +:+ String.concat nl eventSummaries]
  else [].

Definition build_query (sessionContext message : string) : string :=
  "You are answering a clarifying question about a coding session." +:+ nl
  +:+ "The user is reviewing a session and wants to understand what's happening before making a decision." +:+ nl
  +:+ "Provide concise, helpful answers based on the context below." +:+ nl
  +:+ nl
  +:+ "Session Context:" +:+ nl
  +:+ sessionContext +:+ nl
  +:+ nl
  +:+ "User's Question: " +:+ message +:+ nl
  +:+ nl
  +:+ "Important: Keep your response focused and concise. This is an ephemeral chat.".

(** [runEphemeralQuery] launches a Claude Code process for the query and
    waits for its result; the second component is what was launched. *)
Definition runEphemeralQuery (client : SessionConfig → result ClaudeResult)
           (session : Session) (query : string)
  : result string * list SessionConfig :=
  let config := {| ConfigQuery := query;
                   ConfigModel := ModelSonnet;
                   ConfigOutputFormat := OutputJSON;
                   MaxTurns := 1;
                   ConfigWorkingDir := WorkingDir session |} in
  match client config with
  | Err err => (Err ("failed to run claude query: " +:+ err), [config])
  | Ok result =>
      if IsError result
      then (Err ("claude returned error: " +:+ Error result), [config])
      else (Ok (Result result), [config])
  end.

(** "Take last N events". *)
Definition recent_events (maxEvents : Z) (events : list ConversationEvent)
  : option (list ConversationEvent) :=
  let startIdx := 0 in
  let startIdx :=
    if maxEvents <? Z.of_nat (length events)
    then wrap64 (Z.of_nat (length events) - maxEvents)
    else startIdx in
  slice_from startIdx events.

(** The optional part of the context: the lines for the recent events
    ([None] when slicing panics) and the store calls made for them. *)
Definition conversation_parts (h : EphemeralChatHandler) (sessionID : string)
           (includeRecentEvents : bool) (maxEvents : Z)
  : option (list string) * list StoreCall :=
  if includeRecentEvents then
    match GetSessionConversation (store h) sessionID with
    | Ok events =>
        if 0 <? Z.of_nat (length events) then
          (event_parts <$> recent_events maxEvents events,
           [CallGetSessionConversation sessionID])
        else (Some [], [CallGetSessionConversation sessionID])
    | Err _ => (Some [], [CallGetSessionConversation sessionID])
    end
  else (Some [], []).

(** [HandleEphemeralChat] processes an ephemeral chat request; [body] is
    the request as [ShouldBindJSON] parsed it, [None] when it could not. *)
Definition HandleEphemeralChat (h : EphemeralChatHandler) (sessionID : string)
           (body : option EphemeralChatRequest) : Outcome :=
  match claudeClient h with
  | None =>
      {| reply := JSONError 503 "Claude Code not available";
         store_calls := []; launches := [] |}
  | Some client =>
      match body with
      | None =>
          {| reply := JSONError 400 "Invalid request body";
             store_calls := []; launches := [] |}
      | Some req =>
          if String.eqb (Message req) "" then
            {| reply := JSONError 400 "Message is required";
               store_calls := []; launches := [] |}
          else
            let maxEvents :=
              if MaxEvents (Context req) =? 0 then 20 else MaxEvents (Context req) in
            match GetSession (store h) sessionID with
            | Err _ =>
                {| reply := JSONError 404 "Session not found";
                   store_calls := [CallGetSession sessionID]; launches := [] |}
            | Ok session =>
                let contextParts := session_parts session in
                let '(parts, calls) :=
                  conversation_parts h sessionID
                    (IncludeRecentEvents (Context req)) maxEvents in
                match parts with
                | None =>
                    {| reply := Panic "slice bounds out of range";
                       store_calls := CallGetSession sessionID :: calls;
                       launches := [] |}
                | Some parts =>
                    let contextParts := contextParts ++ parts in
                    let sessionContext := String.concat nl contextParts in
                    let query := build_query sessionContext (Message req) in
                    let '(response, launched) := runEphemeralQuery client session query in
                    {| reply := match response with
                                | Err _ => JSONError 500 "Failed to get AI response"
                                | Ok content => JSONContent 200 content
                                end;
                       store_calls := CallGetSession sessionID :: calls;
                       launches := launched |}
                end
            end
      end
  end.

(** *** What the design says: the last N events *)

Definition last_events (n : nat) (events : list ConversationEvent)
  : list ConversationEvent :=
  drop (length events - n) events.


(** The prompt for a session, a question and the events shown. *)
Definition prompt (session : Session) (message : string)
           (shown : list ConversationEvent) : string :=
  build_query (String.concat nl (session_parts session ++ event_parts shown)) message.


(** *** Facts about the handler *)

Lemma wrap64_in_range z : - 2 ^ 63 ≤ z < 2 ^ 63 → wrap64 z = z.
Proof. unfold wrap64. intros Hz. rewrite Z.mod_small; lia. Qed.

Lemma wrap64_above z : 2 ^ 63 ≤ z < 2 ^ 64 → wrap64 z < 0.
Proof.
  unfold wrap64. intros Hz.
  replace (z + 2 ^ 63) with ((z - 2 ^ 63) + 1 * 2 ^ 64) by lia.
  rewrite Z.mod_add by lia. rewrite Z.mod_small; lia.
Qed.


(** Slicing succeeds with the last [maxEvents] events when [maxEvents]
    is positive, and panics on a non-empty conversation when it is
    negative. *)
Lemma recent_events_cases maxEvents events :
  - 2 ^ 63 ≤ maxEvents < 2 ^ 63 → maxEvents ≠ 0 →
  0 < Z.of_nat (length events) < 2 ^ 63 →
  recent_events maxEvents events
  = if 0 <? maxEvents then Some (last_events (Z.to_nat maxEvents) events) else None.
Proof.
  intros Hm Hnz Hlen. unfold recent_events, slice_from, last_events.
  destruct (Z.ltb_spec 0 maxEvents) as [Hpos|Hneg].
  - destruct (Z.ltb_spec maxEvents (Z.of_nat (length events))) as [Hlt|Hge].
    + rewrite wrap64_in_range by lia.
      destruct (Z.ltb_spec (Z.of_nat (length events) - maxEvents) 0); [lia|].
      destruct (Z.ltb_spec (Z.of_nat (length events))
                           (Z.of_nat (length events) - maxEvents)); [lia|].
      cbn. do 2 f_equal. lia.
    + cbn. destruct (Z.ltb_spec (Z.of_nat (length events)) 0); [lia|].
      cbn. do 2 f_equal. lia.
  - destruct (Z.ltb_spec maxEvents (Z.of_nat (length events))) as [Hlt|Hge]; [|lia].
    destruct (Z_lt_le_dec (Z.of_nat (length events) - maxEvents) (2 ^ 63)) as [Hin|Hout].
    + rewrite wrap64_in_range by lia.
      destruct (Z.ltb_spec (Z.of_nat (length events) - maxEvents) 0); [done|].
      destruct (Z.ltb_spec (Z.of_nat (length events))
                           (Z.of_nat (length events) - maxEvents)); [done|lia].
    + assert (wrap64 (Z.of_nat (length events) - maxEvents) < 0)
        by (apply wrap64_above; lia).
      destruct (Z.ltb_spec (wrap64 (Z.of_nat (length events) - maxEvents)) 0); [done|lia].
Qed.



Lemma last_events_none events : last_events 0 events = [].
Proof. unfold last_events. rewrite Nat.sub_0_r. apply drop_all. Qed.






(** *** A concrete session *)

Definition message_event (role content : string) : ConversationEvent :=
  {| EventType := "message"; Role := role; Content := content; ToolName := "" |}.

Definition tool_event (name : string) : ConversationEvent :=
  {| EventType := "tool_call"; Role := ""; Content := ""; ToolName := name |}.

Definition demo_session : Session :=
  {| ID := "S1"; Query := "fix the build"; Summary := "";
     WorkingDir := "/repo"; Status := "running" |}.

Definition demo_conversation : list ConversationEvent :=
  [ message_event "user" "fix the build";
    tool_event "Bash";
    message_event "assistant" "done" ].

Definition demo_store : ConversationStore :=
  {| GetSession := λ id, if String.eqb id "S1" then Ok demo_session
                         else Err "not found";
     GetSessionConversation := λ id, if String.eqb id "S1" then Ok demo_conversation
                                     else Err "not found" |}.

Definition demo_handler : EphemeralChatHandler :=
  {| store := demo_store;
     claudeClient := Some (λ config,
       Ok {| IsError := false; Error := ""; Result := "It ran the build." |}) |}.

Definition ask (maxEvents : Z) : EphemeralChatRequest :=
  {| Message := "what happened?";
     Context := {| IncludeRecentEvents := true; MaxEvents := maxEvents |} |}.

Example chat_shows_last_two :
  ConfigQuery <$> launches (HandleEphemeralChat demo_handler "S1" (Some (ask 2)))
  = [prompt demo_session "what happened?" [tool_event "Bash"; message_event "assistant" "done"]]
  ∧ reply (HandleEphemeralChat demo_handler "S1" (Some (ask 2)))
    = JSONContent 200 "It ran the build.".
Proof. by vm_compute. Qed.

Example chat_negative_max_events_panics :
  HandleEphemeralChat demo_handler "S1" (Some (ask (-1)))
  = {| reply := Panic "slice bounds out of range";
       store_calls := [CallGetSession "S1"; CallGetSessionConversation "S1"];
       launches := [] |}.
Proof. by vm_compute. Qed.


End EphemeralChat.

(** ** More on the gateway: invariants of the handle map *)

Module GatewayFacts.
Import MCP.

(** Every entry of [pendingApprovals] belongs to a call that has
    registered under that id with that channel and has not returned. *)
Definition no_leak {M : Type} (w : World (M := M)) : Prop :=
  ∀ key ch, pendingApprovals (server w) !! key = Some ch →
    ∃ i c input, calls w !! i = Some c ∧ frame c = AtSelect input key ch.

(** Every channel in the map has been made. *)
Definition made_before {M : Type} (w : World (M := M)) : Prop :=
  ∀ key ch, pendingApprovals (server w) !! key = Some ch → ch < made w.

(** Call [i] waits under the empty id on an empty channel that no other
    id leads to, or it has returned an error. *)
Definition waits_unreachable {M : Type} (i : nat) (input : any) (ch : nat)
           (w : World (M := M)) : Prop :=
  (frame_of w i = Some (AtSelect input "" ch)
   ∧ channels w !! ch = None
   ∧ ch < made w
   ∧ ∀ key, pendingApprovals (server w) !! key = Some ch → key = "")
  ∨ ∃ err, frame_of w i = Some (Returned (Err err)).

Section Facts.

Variable unicodeToLower : string → string.
Variable ReadFile : string → option (list Byte.byte).
Variable json_Marshal : any → result string.
Variable json_MarshalMap : gmap string any → string.
Context {M : Type} {approvalManager : Manager M}.

Local Abbreviation step := (step unicodeToLower ReadFile json_Marshal json_MarshalMap).
Local Abbreviation run := (run unicodeToLower ReadFile json_Marshal json_MarshalMap).
Local Abbreviation World := (World (M := M)).

Lemma run_app (s1 s2 : list Action) : ∀ w : World,
  run w (s1 ++ s2) = run w s1 ≫= λ w1, run w1 s2.
Proof.
  induction s1 as [|a s1 IH]; intros w; [done|]. cbn.
  destruct (step w a) as [w1|]; [apply IH|done].
Qed.

(** An invariant of single steps is an invariant of schedules. *)
Lemma run_invariant (P : World → Prop) :
  (∀ w a w', P w → step w a = Some w' → P w') →
  ∀ schedule w w', P w → run w schedule = Some w' → P w'.
Proof.
  intros Hstep. induction schedule as [|a rest IH]; intros w w' HP Hrun; cbn in Hrun.
  - by injection Hrun as <-.
  - destruct (step w a) as [w1|] eqn:Ha; [|done]. eauto.
Qed.

(** *** No leaked registration *)

Lemma no_leak_insert_call (w : World) j cj f e key ch :
  calls w !! j = Some cj →
  (∀ input k ch', frame cj ≠ AtSelect input k ch') →
  (∃ i c input, calls w !! i = Some c ∧ frame c = AtSelect input key ch) →
  ∃ i c input, <[j := {| frame := f; ctxErr := e |}]> (calls w) !! i = Some c
               ∧ frame c = AtSelect input key ch.
Proof.
  intros Hj Hnot (i & c & input & Hi & Hf).
  exists i, c, input. split; [|done].
  rewrite list_lookup_insert_ne; [done|]. intros ->.
  rewrite Hj in Hi. injection Hi as ->. by eapply Hnot.
Qed.

Lemma step_no_leak (w : World) a w' :
  no_leak w → step w a = Some w' → no_leak w'.
Proof.
  intros Hinv Hstep key ch.
  destruct a as [ctx request|j|j|j|j|j err| |event|ref approve comment att];
    cbn in Hstep.
  - injection Hstep as <-. cbn. intros Hk.
    destruct (Hinv _ _ Hk) as (i & c & input & Hi & Hf).
    exists i, c, input. split; [|done]. by apply lookup_app_l_Some.
  - destruct (calls w !! j) as [cj|] eqn:Hj; [|done].
    destruct (frame cj) as [ctx request| | |] eqn:Hfj; try done.
    injection Hstep as <-. unfold enter.
    destruct (handleRequestApproval_enter _ _ _ _ _ _) as [f m']. cbn. intros Hk.
    apply (no_leak_insert_call w j cj f (ctxErr cj) key ch Hj);
      [intros ???; by rewrite Hfj|by apply Hinv].
  - destruct (calls w !! j) as [cj|] eqn:Hj; [|done].
    destruct (frame cj) as [|input toolUseID| |] eqn:Hfj; try done.
    injection Hstep as <-. cbn. intros Hk.
    destruct (decide (toolUseID = key)) as [->|Hne].
    + rewrite lookup_insert_eq in Hk. injection Hk as <-.
      eexists j, _, input. split.
      * cbn. apply list_lookup_insert_eq. by eapply lookup_lt_Some.
      * done.
    + rewrite lookup_insert_ne in Hk by done.
      apply (no_leak_insert_call w j cj _ (ctxErr cj) key ch Hj);
        [intros ???; by rewrite Hfj|by apply Hinv].
  - destruct (calls w !! j) as [cj|] eqn:Hj; [|done].
    destruct (frame cj) as [| |input toolUseID chj|] eqn:Hfj; try done.
    unfold receive in Hstep. destruct (channels w !! chj); [|done].
    injection Hstep as <-. cbn. intros Hk.
    apply lookup_delete_Some in Hk as [Hne Hk].
    destruct (Hinv _ _ Hk) as (i & c & input' & Hi & Hf).
    exists i, c, input'. split; [|done].
    rewrite list_lookup_insert_ne; [done|]. intros ->.
    rewrite Hj in Hi. injection Hi as ->. congruence.
  - destruct (calls w !! j) as [cj|] eqn:Hj; [|done].
    destruct (frame cj) as [| |input toolUseID chj|] eqn:Hfj; try done.
    unfold ctx_done in Hstep. destruct (ctxErr cj); [|done].
    injection Hstep as <-. cbn. intros Hk.
    apply lookup_delete_Some in Hk as [Hne Hk].
    destruct (Hinv _ _ Hk) as (i & c & input' & Hi & Hf).
    exists i, c, input'. split; [|done].
    rewrite list_lookup_insert_ne; [done|]. intros ->.
    rewrite Hj in Hi. injection Hi as ->. congruence.
  - destruct (calls w !! j) as [cj|] eqn:Hj; [|done].
    destruct (ctxErr cj); injection Hstep as <-; [apply Hinv|].
    cbn. intros Hk. destruct (Hinv _ _ Hk) as (i & c & input & Hi & Hf).
    destruct (decide (i = j)) as [->|Hne].
    + exists j. eexists _, input. split.
      * apply list_lookup_insert_eq. by eapply lookup_lt_Some.
      * cbn. congruence.
    + exists i, c, input. by rewrite list_lookup_insert_ne.
  - unfold listen in Hstep. destruct (subscription w) as [|event rest]; [done|].
    destruct (decision_of_event event) as [toolUseID decision].
    destruct (deliver _ _); injection Hstep as <-; apply Hinv.
  - injection Hstep as <-. apply Hinv.
  - injection Hstep as <-. unfold submit.
    destruct (Decide _ _ _ _ _) as [[r m'] events]. apply Hinv.
Qed.

(** *** The return of a call, statement by statement

    [receive] and [ctx_done] take a call from its [select] to its
    return in one step. In the code the deferred [Delete] runs only when
    the function returns: once a case of the [select] is taken, the
    response is built while the entry is still in [pendingApprovals],
    and other goroutines may run in between. Here the return is split:
    [returning] holds, for each call that has left its [select] and has
    not yet returned, the result it is about to return. *)
Record Fine := {
  world : World;
  returning : gmap nat (result CallToolResult);
}.

Inductive FineAction :=
| Coarse (a : Action)
| TakeDecision (i : nat)
| TakeDone (i : nat)
| Return (i : nat).

(** [TakeDecision]: [case decision := <-decisionChan] and the building
    of the response; [TakeDone]: [case <-ctx.Done()]; [Return]: the
    [return] and the deferred [s.pendingApprovals.Delete(toolUseID)].
    Every other action is as in [step]. *)
Definition fine_step (f : Fine) (a : FineAction) : option Fine :=
  match a with
  | Coarse (Receive _) | Coarse (CtxDone _) => None
  | Coarse a =>
      w' ← step (world f) a; Some {| world := w'; returning := returning f |}
  | TakeDecision i =>
      match calls (world f) !! i, returning f !! i with
      | Some c, None =>
          match frame c with
          | AtSelect input toolUseID decisionChan =>
              match channels (world f) !! decisionChan with
              | Some decision =>
                  Some {| world := take_from (world f) decisionChan;
                          returning :=
                            <[i := Ok (text_result json_MarshalMap
                                         (decision_response unicodeToLower ReadFile
                                                            input decision))]>
                              (returning f) |}
              | None => None
              end
          | _ => None
          end
      | _, _ => None
      end
  | TakeDone i =>
      match calls (world f) !! i, returning f !! i with
      | Some c, None =>
          match frame c, ctxErr c with
          | AtSelect input toolUseID decisionChan, Some err =>
              Some {| world := world f;
                      returning := <[i := Err err]> (returning f) |}
          | _, _ => None
          end
      | _, _ => None
      end
  | Return i =>
      match calls (world f) !! i, returning f !! i with
      | Some c, Some r =>
          match frame c with
          | AtSelect input toolUseID decisionChan =>
              Some {| world := leave (world f) i c toolUseID r;
                      returning := delete i (returning f) |}
          | _ => None
          end
      | _, _ => None
      end
  end.

Fixpoint fine_run (f : Fine) (schedule : list FineAction) : option Fine :=
  match schedule with
  | [] => Some f
  | a :: rest =>
      match fine_step f a with
      | Some f' => fine_run f' rest
      | None => None
      end
  end.

Definition fine_start (environ : gmap string string) (m : M) : Fine :=
  {| world := start environ m; returning := ∅ |}.

(** Where a call that has registered and not returned stands: in its
    [select], or past it with its result, before the deferred
    [Delete]. *)
Inductive Position :=
| InSelect (input : any) (toolUseID : string) (decisionChan : nat)
| PastSelect (input : any) (toolUseID : string) (decisionChan : nat)
             (r : result CallToolResult).

Definition position (f : Fine) (i : nat) : option Position :=
  match frame_of (world f) i with
  | Some (AtSelect input toolUseID decisionChan) =>
      Some (match returning f !! i with
            | None => InSelect input toolUseID decisionChan
            | Some r => PastSelect input toolUseID decisionChan r
            end)
  | _ => None
  end.

(** The two steps of a return, taken without interruption, are the one
    step of [step]. *)
Lemma fine_return_is_step (f : Fine) (i : nat) (w' : World) :
  returning f !! i = None →
  (step (world f) (Receive i) = Some w' →
   fine_run f [TakeDecision i; Return i]
   = Some {| world := w'; returning := returning f |})
  ∧ (step (world f) (CtxDone i) = Some w' →
     fine_run f [TakeDone i; Return i]
     = Some {| world := w'; returning := returning f |}).
Proof.
  intros Hnone. split; intros Hstep; cbn in Hstep |- *; rewrite Hnone.
  - destruct (calls (world f) !! i) as [c|] eqn:Hi; [|done].
    destruct (frame c) as [| |input key ch|] eqn:Hf; try done.
    unfold receive in Hstep.
    destruct (channels (world f) !! ch) as [decision|]; [|done].
    injection Hstep as <-. cbn. rewrite Hi, lookup_insert_eq, Hf.
    by rewrite delete_insert_id.
  - destruct (calls (world f) !! i) as [c|] eqn:Hi; [|done].
    destruct (frame c) as [| |input key ch|] eqn:Hf; try done.
    unfold ctx_done in Hstep. destruct (ctxErr c) as [err|]; [|done].
    injection Hstep as <-. cbn. rewrite Hi, lookup_insert_eq, Hf.
    by rewrite delete_insert_id.
Qed.

Lemma fine_step_no_leak (f : Fine) a f' :
  no_leak (world f) → fine_step f a = Some f' → no_leak (world f').
Proof.
  intros Hinv Hstep.
  destruct a as [a|i|i|i].
  - assert (Hcoarse : ∃ w', step (world f) a = Some w' ∧ world f' = w').
    { unfold fine_step in Hstep.
      destruct a; try done;
        apply bind_Some in Hstep as (w' & Hw & [= <-]); by exists w'. }
    destruct Hcoarse as (w' & Hw & ->). by eapply step_no_leak.
  - cbn in Hstep. destruct (calls (world f) !! i) as [c|]; [|done].
    destruct (returning f !! i); [done|].
    destruct (frame c) as [| |input key ch|]; try done.
    destruct (channels (world f) !! ch); [|done].
    by injection Hstep as <-.
  - cbn in Hstep. destruct (calls (world f) !! i) as [c|]; [|done].
    destruct (returning f !! i); [done|].
    destruct (frame c) as [| |input key ch|]; try done.
    destruct (ctxErr c); [|done]. by injection Hstep as <-.
  - cbn in Hstep. destruct (calls (world f) !! i) as [c|] eqn:Hi; [|done].
    destruct (returning f !! i) as [r|]; [|done].
    destruct (frame c) as [| |input key ch|] eqn:Hf; try done.
    injection Hstep as <-. cbn [world]. intros key' ch' Hk. cbn in Hk.
    apply lookup_delete_Some in Hk as [Hne Hk]. cbn [leave calls].
    destruct (Hinv _ _ Hk) as (j & cj & input' & Hj & Hfj).
    exists j, cj, input'. split; [|done].
    rewrite list_lookup_insert_ne; [done|]. intros ->.
    rewrite Hi in Hj. injection Hj as ->. congruence.
Qed.

Lemma fine_run_invariant (P : Fine → Prop) :
  (∀ f a f', P f → fine_step f a = Some f' → P f') →
  ∀ schedule f f', P f → fine_run f schedule = Some f' → P f'.
Proof.
  intros Hstep. induction schedule as [|a rest IH]; intros f f' HP Hrun; cbn in Hrun.
  - by injection Hrun as <-.
  - destruct (fine_step f a) as [f1|] eqn:Ha; [|done]. eauto.
Qed.

(** X1. Over every schedule of a gateway built by [NewMCPServer], with
    the return of a call taken statement by statement, every entry of
    [pendingApprovals] belongs to a call that has registered under that
    tool-use id with that channel and has not returned: the call is in
    its [select], or past it and about to run its deferred [Delete]. A
    call that has returned, by decision or by cancellation, leaves no
    registration behind, and no entry exists for a call that never
    registered. *)
Theorem pendingApprovals_never_leaks
        (environ : gmap string string) (m : M) (schedule : list FineAction)
        (f : Fine) :
  fine_run (fine_start environ m) schedule = Some f →
  ∀ key ch, pendingApprovals (server (world f)) !! key = Some ch →
    ∃ i input,
      position f i = Some (InSelect input key ch)
      ∨ ∃ r, position f i = Some (PastSelect input key ch r).
Proof.
  intros Hrun key ch Hk.
  assert (Hinv : no_leak (world f)).
  { apply (fine_run_invariant (λ f, no_leak (world f)) fine_step_no_leak
                              schedule (fine_start environ m)); [|done].
    intros k c. cbn. by rewrite lookup_empty. }
  destruct (Hinv _ _ Hk) as (i & c & input & Hi & Hf).
  exists i, input. unfold position, frame_of. rewrite Hi. cbn. rewrite Hf.
  destruct (returning f !! i) as [r|]; [right; by exists r|by left].
Qed.

(** *** Channels are fresh *)

Lemma step_made_before (w : World) a w' :
  made_before w → step w a = Some w' → made_before w'.
Proof.
  intros Hinv Hstep key ch.
  destruct a as [ctx request|j|j|j|j|j err| |event|ref approve comment att];
    cbn in Hstep.
  - injection Hstep as <-. apply Hinv.
  - destruct (calls w !! j) as [cj|]; [|done].
    destruct (frame cj); try done. injection Hstep as <-. unfold enter.
    destruct (handleRequestApproval_enter _ _ _ _ _ _) as [f m']. apply Hinv.
  - destruct (calls w !! j) as [cj|]; [|done].
    destruct (frame cj) as [|input toolUseID| |]; try done.
    injection Hstep as <-. cbn. intros Hk.
    destruct (decide (toolUseID = key)) as [->|Hne].
    + rewrite lookup_insert_eq in Hk. injection Hk as <-. lia.
    + rewrite lookup_insert_ne in Hk by done. specialize (Hinv _ _ Hk). lia.
  - destruct (calls w !! j) as [cj|]; [|done].
    destruct (frame cj) as [| |input toolUseID chj|]; try done.
    unfold receive in Hstep. destruct (channels w !! chj); [|done].
    injection Hstep as <-. cbn. intros Hk.
    apply lookup_delete_Some in Hk as [_ Hk]. by apply (Hinv key).
  - destruct (calls w !! j) as [cj|]; [|done].
    destruct (frame cj) as [| |input toolUseID chj|]; try done.
    unfold ctx_done in Hstep. destruct (ctxErr cj); [|done].
    injection Hstep as <-. cbn. intros Hk.
    apply lookup_delete_Some in Hk as [_ Hk]. by apply (Hinv key).
  - destruct (calls w !! j) as [cj|]; [|done].
    destruct (ctxErr cj); injection Hstep as <-; apply Hinv.
  - unfold listen in Hstep. destruct (subscription w) as [|event rest]; [done|].
    destruct (decision_of_event event) as [toolUseID decision].
    destruct (deliver _ _); injection Hstep as <-; apply Hinv.
  - injection Hstep as <-. apply Hinv.
  - injection Hstep as <-. unfold submit.
    destruct (Decide _ _ _ _ _) as [[r m'] events]. apply Hinv.
Qed.

(** *** A call without a tool-use id *)

Lemma frame_of_lookup (w : World) i f :
  frame_of w i = Some f → ∃ c, calls w !! i = Some c ∧ frame c = f.
Proof.
  unfold frame_of. destruct (calls w !! i) as [c|]; [|done].
  intros [= <-]. by exists c.
Qed.

Lemma step_waits_unreachable i input ch (w : World) a w' :
  waits_unreachable i input ch w → step w a = Some w' →
  waits_unreachable i input ch w'.
Proof.
  intros [(Hf & Hch & Hlt & Hkeys)|[err Hf]] Hstep;
    destruct (frame_of_lookup _ _ _ Hf) as (c & Hi & Hfc);
    destruct a as [ctx request|j|j|j|j|j err'| |event|ref approve comment att];
    cbn in Hstep.
  - injection Hstep as <-. left. repeat split; try done.
    unfold frame_of. cbn. by rewrite (lookup_app_l_Some _ _ _ _ Hi), <- Hfc.
  - destruct (calls w !! j) as [cj|] eqn:Hj; [|done].
    destruct (frame cj) as [ctx request| | |] eqn:Hfj; try done.
    injection Hstep as <-. unfold enter.
    destruct (handleRequestApproval_enter _ _ _ _ _ _) as [f m'].
    left. repeat split; try done. unfold frame_of. cbn.
    rewrite list_lookup_insert_ne; [done|]. intros ->. congruence.
  - destruct (calls w !! j) as [cj|] eqn:Hj; [|done].
    destruct (frame cj) as [|input' toolUseID| |] eqn:Hfj; try done.
    injection Hstep as <-. left. cbn. split; [|split; [|split]].
    + unfold frame_of. cbn.
      rewrite list_lookup_insert_ne; [done|]. intros ->. congruence.
    + apply lookup_delete_None. by right.
    + lia.
    + intros key Hk. destruct (decide (toolUseID = key)) as [->|Hne].
      * rewrite lookup_insert_eq in Hk. injection Hk as Hk. lia.
      * rewrite lookup_insert_ne in Hk by done. by apply Hkeys.
  - destruct (calls w !! j) as [cj|] eqn:Hj; [|done].
    destruct (frame cj) as [| |input' toolUseID chj|] eqn:Hfj; try done.
    unfold receive in Hstep. destruct (channels w !! chj) as [d|] eqn:Hd; [|done].
    injection Hstep as <-.
    assert (Hne : i ≠ j) by (intros ->; congruence).
    left. cbn. split; [|split; [|split]].
    + unfold frame_of. cbn. by rewrite list_lookup_insert_ne.
    + apply lookup_delete_None. by right.
    + done.
    + intros key Hk. apply lookup_delete_Some in Hk as [_ Hk]. by apply Hkeys.
  - destruct (calls w !! j) as [cj|] eqn:Hj; [|done].
    destruct (frame cj) as [| |input' toolUseID chj|] eqn:Hfj; try done.
    unfold ctx_done in Hstep. destruct (ctxErr cj) as [e|] eqn:He; [|done].
    injection Hstep as <-.
    destruct (decide (i = j)) as [->|Hne].
    + right. exists e. unfold frame_of. cbn.
      rewrite list_lookup_insert_eq; [done|]. by eapply lookup_lt_Some.
    + left. cbn. split; [|split; [|split]]; try done.
      * unfold frame_of. cbn. by rewrite list_lookup_insert_ne.
      * intros key Hk. apply lookup_delete_Some in Hk as [_ Hk]. by apply Hkeys.
  - destruct (calls w !! j) as [cj|] eqn:Hj; [|done].
    destruct (ctxErr cj); injection Hstep as <-; [by left|].
    left. cbn. repeat split; try done. unfold frame_of. cbn.
    destruct (decide (i = j)) as [->|Hne].
    + rewrite list_lookup_insert_eq by by eapply lookup_lt_Some. cbn. congruence.
    + by rewrite list_lookup_insert_ne.
  - unfold listen in Hstep. destruct (subscription w) as [|event rest]; [done|].
    destruct (decision_of_event event) as [toolUseID decision].
    unfold deliver in Hstep. cbn in Hstep.
    destruct (String.eqb_spec toolUseID "") as [->|Hne];
      [injection Hstep as <-; by left|].
    destruct (pendingApprovals (server w) !! toolUseID) as [ch'|] eqn:Hk;
      [|injection Hstep as <-; by left].
    destruct (channels w !! ch') eqn:Hd; injection Hstep as <-; [by left|].
    left. cbn. repeat split; try done.
    rewrite lookup_insert_ne; [done|]. intros ->. by apply Hne, Hkeys.
  - injection Hstep as <-. by left.
  - injection Hstep as <-. unfold submit.
    destruct (Decide _ _ _ _ _) as [[r m'] events]. by left.
  - injection Hstep as <-. right. exists err. unfold frame_of. cbn.
    by rewrite (lookup_app_l_Some _ _ _ _ Hi), <- Hfc.
  - destruct (calls w !! j) as [cj|] eqn:Hj; [|done].
    destruct (frame cj) as [ctx request| | |] eqn:Hfj; try done.
    injection Hstep as <-. unfold enter.
    destruct (handleRequestApproval_enter _ _ _ _ _ _) as [f m'].
    right. exists err. unfold frame_of. cbn.
    rewrite list_lookup_insert_ne; [done|]. intros ->. congruence.
  - destruct (calls w !! j) as [cj|] eqn:Hj; [|done].
    destruct (frame cj) as [|input' toolUseID| |] eqn:Hfj; try done.
    injection Hstep as <-. right. exists err. unfold frame_of. cbn.
    rewrite list_lookup_insert_ne; [done|]. intros ->. congruence.
  - destruct (calls w !! j) as [cj|] eqn:Hj; [|done].
    destruct (frame cj) as [| |input' toolUseID chj|] eqn:Hfj; try done.
    unfold receive in Hstep. destruct (channels w !! chj) as [d|]; [|done].
    injection Hstep as <-. right. exists err. unfold frame_of. cbn.
    rewrite list_lookup_insert_ne; [done|]. intros ->. congruence.
  - destruct (calls w !! j) as [cj|] eqn:Hj; [|done].
    destruct (frame cj) as [| |input' toolUseID chj|] eqn:Hfj; try done.
    unfold ctx_done in Hstep. destruct (ctxErr cj) as [e|]; [|done].
    injection Hstep as <-. right. exists err. unfold frame_of. cbn.
    rewrite list_lookup_insert_ne; [done|]. intros ->. congruence.
  - destruct (calls w !! j) as [cj|] eqn:Hj; [|done].
    destruct (ctxErr cj); injection Hstep as <-; [by right; exists err|].
    right. exists err. unfold frame_of. cbn.
    destruct (decide (i = j)) as [->|Hne].
    + rewrite list_lookup_insert_eq by by eapply lookup_lt_Some. cbn. congruence.
    + by rewrite list_lookup_insert_ne.
  - unfold listen in Hstep. destruct (subscription w) as [|event rest]; [done|].
    destruct (decision_of_event event) as [toolUseID decision].
    destruct (deliver _ _); injection Hstep as <-; right; by exists err.
  - injection Hstep as <-. right. by exists err.
  - injection Hstep as <-. unfold submit.
    destruct (Decide _ _ _ _ _) as [[r m'] events]. right. by exists err.
Qed.

(** X2. A call that registers under the empty tool-use id (the
    [tool_use_id] argument was missing, not a string, or empty) can
    never be resolved: the listener skips every event with an empty id,
    so over every schedule the call either still waits, with its
    receive case not ready, or has returned the error of its cancelled
    context. It never returns a response. *)
Theorem call_without_tool_use_id_is_never_resolved
        (environ : gmap string string) (m : M) (before later : list Action)
        (w w' : World) (i : nat) (c : Call) (input : any) :
  run (start environ m) before = Some w →
  calls w !! i = Some c →
  frame c = AtRegister input "" →
  run w (Register i :: later) = Some w' →
  (frame_of w' i = Some (AtSelect input "" (made w))
   ∧ step w' (Receive i) = None)
  ∨ ∃ err, frame_of w' i = Some (Returned (Err err)).
Proof.
  intros Hbefore Hi Hf Hrun.
  assert (Hmade : made_before w).
  { apply (run_invariant made_before step_made_before before (start environ m));
      [|done]. intros k ch. cbn. by rewrite lookup_empty. }
  cbn in Hrun. rewrite Hi, Hf in Hrun.
  assert (H1 : waits_unreachable i input (made w) (register w i c input "")).
  { left. cbn. split; [|split; [|split]].
    - unfold frame_of. cbn.
      rewrite list_lookup_insert_eq; [done|]. by eapply lookup_lt_Some.
    - apply lookup_delete_eq.
    - lia.
    - intros key Hk. destruct (decide ("" = key)) as [<-|Hne]; [done|].
      rewrite lookup_insert_ne in Hk by done. specialize (Hmade _ _ Hk). lia. }
  pose proof (run_invariant _ (step_waits_unreachable i input (made w))
                later _ _ H1 Hrun) as [(Hfr & Hch & _ & _)|Herr].
  - left. split; [done|].
    destruct (frame_of_lookup _ _ _ Hfr) as (c' & Hi' & Hf').
    cbn. rewrite Hi', Hf'. unfold receive. by rewrite Hch.
  - by right.
Qed.

(** X3. Delivery. When a call waits under a non-empty tool-use id, its
    channel is the one registered under that id and is empty, and the
    next queued event carries that id, then the listener's step puts
    the event's decision into the channel, and the call's receive case
    returns the response built from exactly that decision, removes the
    registration and leaves the channel empty. *)
Theorem resolution_event_reaches_waiting_call
        (w : World) (i : nat) (c : Call) (input : any) (toolUseID : string)
        (ch : nat) (event : Event) (rest : list Event) :
  calls w !! i = Some c →
  frame c = AtSelect input toolUseID ch →
  toolUseID ≠ "" →
  pendingApprovals (server w) !! toolUseID = Some ch →
  channels w !! ch = None →
  subscription w = event :: rest →
  (decision_of_event event).1 = toolUseID →
  ∃ w1 w2,
    step w Listen = Some w1
    ∧ channels w1 !! ch = Some (decision_of_event event).2
    ∧ step w1 (Receive i) = Some w2
    ∧ frame_of w2 i
      = Some (Returned (Ok (text_result json_MarshalMap
           (decision_response unicodeToLower ReadFile input
              (decision_of_event event).2))))
    ∧ pendingApprovals (server w2) !! toolUseID = None
    ∧ channels w2 !! ch = None
    ∧ subscription w2 = rest.
Proof.
  intros Hi Hf Hne Hk Hch Hq Ht.
  assert (Hlt : i < length (calls w)) by by eapply lookup_lt_Some.
  destruct (decision_of_event event) as [t decision] eqn:Hev. cbn in Ht. subst t.
  eexists _, _. split.
  { cbn. unfold listen. rewrite Hq, Hev. unfold deliver. cbn.
    apply String.eqb_neq in Hne. by rewrite Hne, Hk, Hch. }
  cbn. split; [by rewrite lookup_insert_eq|]. rewrite Hi, Hf.
  unfold receive. cbn. rewrite lookup_insert_eq. split; [done|].
  unfold frame_of. cbn.
  rewrite list_lookup_insert_eq, !lookup_delete_eq by done. by cbn.
Qed.

(** X4. Errors before registration. With auto-deny off and a session id
    present: when the tool input cannot be marshalled the call fails
    with "failed to marshal input: ..." and the approval manager is not
    called; when [CreateApprovalWithToolUseID] fails the call fails with
    "failed to create approval: ..." wrapping the manager's error. In
    both cases nothing is written to [pendingApprovals], no channel is
    made and the call takes no further step. *)
Theorem creation_errors_fail_the_call
        (w : World) (i : nat) (c : Call) (ctx : Context) (request : CallToolRequest) :
  calls w !! i = Some c →
  frame c = AtEntry ctx request →
  autoDenyAll (server w) = false →
  session_of ctx ≠ "" →
  ∃ w', step w (Enter i) = Some w'
    ∧ server w' = server w ∧ made w' = made w ∧ journal w' = journal w
    ∧ match json_Marshal (input_of request) with
      | Err err =>
          frame_of w' i = Some (Returned (Err ("failed to marshal input: " +:+ err)))
          ∧ manager w' = manager w
      | Ok inputJSON =>
          ∀ err m',
            CreateApprovalWithToolUseID (manager w) (session_of ctx)
              (GetString request "tool_name" "") inputJSON (tool_use_id_of request)
            = (Err err, m') →
            frame_of w' i
            = Some (Returned (Err ("failed to create approval: " +:+ err)))
            ∧ step w' (Register i) = None
            ∧ step w' (Receive i) = None
            ∧ step w' (CtxDone i) = None
      end.
Proof.
  intros Hi Hf Hd Hs.
  assert (Hlt : i < length (calls w)) by by eapply lookup_lt_Some.
  exists (enter json_Marshal json_MarshalMap w i c ctx request).
  cbn. rewrite Hi, Hf. split; [done|].
  unfold enter, handleRequestApproval_enter. rewrite Hd.
  fold (session_of ctx). apply String.eqb_neq in Hs. rewrite Hs.
  fold (input_of request). fold (tool_use_id_of request).
  destruct (json_Marshal (input_of request)) as [inputJSON|err].
  - destruct (CreateApprovalWithToolUseID _ _ _ _ _) as [[a|e] m1] eqn:Hc.
    + destruct (String.eqb (Status a) "approved"); cbn; repeat split; done.
    + cbn. repeat split; try done.
      all: injection H as <- <-.
      all: unfold frame_of; cbn; by rewrite list_lookup_insert_eq.
  - cbn. repeat split; try done.
    unfold frame_of. cbn. by rewrite list_lookup_insert_eq.
Qed.

(** *** What a returning call touches *)

Lemma return_step_inv (w : World) i c input toolUseID ch a w' :
  calls w !! i = Some c → frame c = AtSelect input toolUseID ch →
  a = Receive i ∨ a = CtxDone i → step w a = Some w' →
  ∃ r chs,
    w' = leave (with_channels w chs) i c toolUseID r
    ∧ ∀ ch', ch' ≠ ch → chs !! ch' = channels w !! ch'.
Proof.
  intros Hi Hf [->| ->] Hstep; cbn in Hstep; rewrite Hi, Hf in Hstep.
  - unfold receive in Hstep. destruct (channels w !! ch) as [d|]; [|done].
    injection Hstep as <-. eexists _, (delete ch (channels w)).
    split; [done|]. intros ch' Hne. by rewrite lookup_delete_ne.
  - unfold ctx_done in Hstep. destruct (ctxErr c) as [err|]; [|done].
    injection Hstep as <-. exists (Err err), (channels w). by destruct w.
Qed.

(** X5. Cancelling a call, or a call returning from its [select], does
    not disturb the other waits. Cancelling changes no map entry, no
    channel and no call's position. A return (by decision or by
    cancellation) leaves every other call as it was, every registration
    under another tool-use id in place, every other channel's content
    untouched, and the manager, the event queue and the channel counter
    unchanged. *)
Theorem cancel_and_return_leave_other_waits
        (w : World) (i : nat) (c : Call) (input : any) (toolUseID : string) (ch : nat) :
  calls w !! i = Some c →
  frame c = AtSelect input toolUseID ch →
  (∀ err w1, step w (Cancel i err) = Some w1 →
     server w1 = server w ∧ channels w1 = channels w
     ∧ ∀ j, frame_of w1 j = frame_of w j)
  ∧ (∀ a w', a = Receive i ∨ a = CtxDone i → step w a = Some w' →
       (∀ j, j ≠ i → calls w' !! j = calls w !! j)
       ∧ (∀ key, key ≠ toolUseID →
            pendingApprovals (server w') !! key = pendingApprovals (server w) !! key)
       ∧ (∀ ch', ch' ≠ ch → channels w' !! ch' = channels w !! ch')
       ∧ manager w' = manager w
       ∧ subscription w' = subscription w
       ∧ made w' = made w).
Proof.
  intros Hi Hf. split.
  - intros err w1 Hstep. cbn in Hstep. rewrite Hi in Hstep.
    destruct (ctxErr c); injection Hstep as <-; [done|].
    cbn. repeat split. intros j. unfold frame_of. cbn.
    destruct (decide (j = i)) as [->|Hne].
    + rewrite list_lookup_insert_eq by by eapply lookup_lt_Some.
      by rewrite Hi.
    + by rewrite list_lookup_insert_ne.
  - intros a w' Ha Hstep.
    destruct (return_step_inv _ _ _ _ _ _ _ _ Hi Hf Ha Hstep) as (r & chs & -> & Hchs).
    cbn. repeat split; try done.
    + intros j Hne. by rewrite list_lookup_insert_ne.
    + intros key Hne. by rewrite lookup_delete_ne.
Qed.

(** X6. Two calls waiting under the same tool-use id share one map
    entry. When one of them returns, its deferred [Delete] removes the
    entry although the other still waits: the other call is left in its
    [select] with no registration, and the next resolution event for
    that id is consumed without reaching it. *)
Theorem duplicate_tool_use_id_loses_the_handle
        (w w' : World) (i j : nat) (ci cj : Call) (input_i input_j : any)
        (toolUseID : string) (chi chj : nat) (a : Action) :
  i ≠ j →
  calls w !! i = Some ci → frame ci = AtSelect input_i toolUseID chi →
  calls w !! j = Some cj → frame cj = AtSelect input_j toolUseID chj →
  a = Receive i ∨ a = CtxDone i →
  step w a = Some w' →
  frame_of w' j = Some (AtSelect input_j toolUseID chj)
  ∧ pendingApprovals (server w') !! toolUseID = None
  ∧ ∀ event rest,
      subscription w' = event :: rest →
      (decision_of_event event).1 = toolUseID →
      step w' Listen = Some (with_subscription w' rest)
      ∧ frame_of (with_subscription w' rest) j
        = Some (AtSelect input_j toolUseID chj)
      ∧ channels (with_subscription w' rest) = channels w'.
Proof.
  intros Hne Hi Hfi Hj Hfj Ha Hstep.
  destruct (return_step_inv _ _ _ _ _ _ _ _ Hi Hfi Ha Hstep) as (r & chs & -> & _).
  assert (Hframe : frame_of (leave (with_channels w chs) i ci toolUseID r) j
                   = Some (AtSelect input_j toolUseID chj)).
  { unfold frame_of. cbn. rewrite list_lookup_insert_ne by done.
    by rewrite Hj; cbn; rewrite Hfj. }
  split; [done|]. split; [cbn; apply lookup_delete_eq|].
  intros event rest Hq Ht. split; [|done].
  apply (listen_unmatched _ event rest Hq). rewrite Ht. cbn. apply lookup_delete_eq.
Qed.

End Facts.

End GatewayFacts.

(** ** More on the images: the case of the extension *)

Module ImageFacts.
Import MCP.

Definition ascii_only (s : string) : Prop :=
  forallb Go.isASCII (list_ascii_of_string s) = true.

(** Two paths that differ only in the case of ASCII letters. *)
Definition same_up_to_case (p q : string) : Prop :=
  Go.map_bytes Go.lower_byte p = Go.map_bytes Go.lower_byte q.

Lemma lower_byte_idem c : Go.lower_byte (Go.lower_byte c) = Go.lower_byte c.
Proof.
  destruct c as [[] [] [] [] [] [] [] []]; reflexivity.
Qed.

Lemma lower_byte_slash c : Ascii.eqb (Go.lower_byte c) "/" = Ascii.eqb c "/".
Proof. destruct c as [[] [] [] [] [] [] [] []]; reflexivity. Qed.

Lemma lower_byte_dot c : Ascii.eqb (Go.lower_byte c) "." = Ascii.eqb c ".".
Proof. destruct c as [[] [] [] [] [] [] [] []]; reflexivity. Qed.

Lemma lower_byte_ascii c : Go.isASCII (Go.lower_byte c) = Go.isASCII c.
Proof. destruct c as [[] [] [] [] [] [] [] []]; reflexivity. Qed.

Lemma map_bytes_list f s :
  list_ascii_of_string (Go.map_bytes f s) = map f (list_ascii_of_string s).
Proof. induction s as [|c s IH]; cbn; [done|by rewrite IH]. Qed.

Lemma map_bytes_of_list f l :
  Go.map_bytes f (string_of_list_ascii l) = string_of_list_ascii (map f l).
Proof. induction l as [|c l IH]; cbn; [done|by rewrite IH]. Qed.

Lemma map_bytes_idem s :
  Go.map_bytes Go.lower_byte (Go.map_bytes Go.lower_byte s)
  = Go.map_bytes Go.lower_byte s.
Proof. induction s as [|c s IH]; cbn; [done|by rewrite lower_byte_idem, IH]. Qed.

(** The extension of the lowered path is the lowered extension. *)
Lemma Ext_scan_lower rev_path acc :
  Go.Ext_scan (map Go.lower_byte rev_path) (map Go.lower_byte acc)
  = Go.map_bytes Go.lower_byte (Go.Ext_scan rev_path acc).
Proof.
  revert acc; induction rev_path as [|c r IH]; intros acc; [done|].
  cbn [map Go.Ext_scan]. rewrite lower_byte_slash, lower_byte_dot.
  destruct (Ascii.eqb c "/"); [done|].
  destruct (Ascii.eqb c ".").
  - by rewrite map_bytes_of_list.
  - apply (IH (c :: acc)).
Qed.

Lemma Ext_lower path :
  Go.Ext (Go.map_bytes Go.lower_byte path)
  = Go.map_bytes Go.lower_byte (Go.Ext path).
Proof.
  unfold Go.Ext. rewrite map_bytes_list, <- map_rev.
  apply (Ext_scan_lower _ []).
Qed.

Lemma Ext_scan_ascii rev_path acc :
  forallb Go.isASCII rev_path = true → forallb Go.isASCII acc = true →
  ascii_only (Go.Ext_scan rev_path acc).
Proof.
  revert acc; induction rev_path as [|c r IH]; intros acc Hr Ha; [done|].
  cbn in Hr. apply andb_prop in Hr as [Hc Hr]. cbn [Go.Ext_scan].
  destruct (Ascii.eqb c "/"); [done|].
  destruct (Ascii.eqb c ".").
  - unfold ascii_only. rewrite list_ascii_of_string_of_list_ascii. cbn.
    by rewrite Hc, Ha.
  - apply IH; [done|]. cbn. by rewrite Hc, Ha.
Qed.

Lemma Ext_ascii path : ascii_only path → ascii_only (Go.Ext path).
Proof.
  intros Hp. unfold Go.Ext. apply Ext_scan_ascii; [|done].
  unfold ascii_only in Hp. rewrite forallb_forall in *.
  intros c Hc. apply Hp. by apply in_rev.
Qed.

(** X7. [detectMimeType] does not depend on the case of the path: two
    ASCII paths that differ only in the case of their letters get the
    same MIME type (so ".PNG", ".Png" and ".png" are all image/png),
    whatever the Unicode tables say. *)
Theorem detectMimeType_ignores_case
        (unicodeToLower : string → string) (p q : string) :
  ascii_only p → ascii_only q → same_up_to_case p q →
  detectMimeType unicodeToLower p = detectMimeType unicodeToLower q.
Proof.
  intros Hp Hq Hpq. unfold detectMimeType.
  assert (Hlow : ∀ x, ascii_only x →
            Go.ToLower unicodeToLower (Go.Ext x)
            = Go.Ext (Go.map_bytes Go.lower_byte x)).
  { intros x Hx. unfold Go.ToLower.
    pose proof (Ext_ascii x Hx) as Hext. unfold ascii_only in Hext.
    by rewrite Hext, Ext_lower. }
  rewrite (Hlow p Hp), (Hlow q Hq). unfold same_up_to_case in Hpq.
  by rewrite Hpq.
Qed.

Lemma detectMimeType_ignores_case_witness :
  detectMimeType (λ s, s) "/tmp/Shot.PNG" = detectMimeType (λ s, s) "/TMP/shot.png".
Proof.
  apply (detectMimeType_ignores_case (λ s, s) "/tmp/Shot.PNG" "/TMP/shot.png");
    reflexivity.
Defined.

End ImageFacts.

(** ** The gateway's invariants at concrete worlds *)

Module GatewayFactsAt.
Import MCP ApprovalManager Scenarios GatewayFacts.

Definition request_without_id : CallToolRequest :=
  {| Arguments := {[ "tool_name" := Str "Bash"; "input" := ls_input ]} |}.

Definition from_S2 : Request :=
  {| Header := read_header [("Mcp-Session-Id", "S2")]; RequestContext := ∅ |}.

Definition two_calls_same_id : World :=
  after (start ∅ store_S1)
        [ Invoke (ServeHTTP from_S1) request_t1;
          Invoke (ServeHTTP from_S1) request_t1;
          Enter 0; Enter 1; Register 0; Register 1;
          Cancel 0 "context canceled" ].

(** The call has taken its decision from the channel and has not yet
    returned: its entry is still in the map. *)
Definition schedule_past_select : list FineAction :=
  [ Coarse (Invoke (ServeHTTP from_S1) request_t1); Coarse (Enter 0);
    Coarse (Register 0); Coarse (Submit (ByToolUseID "t1") true "ok" []);
    Coarse Listen; TakeDecision 0 ].

Definition past_select : Fine (M := State) :=
  default (fine_start ∅ store_S1)
          (fine_run lower readFile marshal marshalMap (fine_start ∅ store_S1)
                    schedule_past_select).

Example entry_outlives_the_select :
  pendingApprovals (server (world past_select)) !! "t1" = Some 0
  ∧ position past_select 0
    = Some (PastSelect ls_input "t1" 0
              (Ok (Result {[ "behavior" := Str "allow";
                             "updatedInput" := ls_input ]})))
  ∧ ((λ f, (pendingApprovals (server (world f)) !! "t1", frame_of (world f) 0))
       <$> fine_run lower readFile marshal marshalMap past_select [Return 0])
    = Some (None,
            Some (Returned (Ok (Result {[ "behavior" := Str "allow";
                                          "updatedInput" := ls_input ]})))).
Proof. by vm_compute. Qed.

Lemma never_leaks_witness :
  ∃ i input,
    position past_select i = Some (InSelect input "t1" 0)
    ∨ ∃ r, position past_select i = Some (PastSelect input "t1" 0 r).
Proof.
  exact (pendingApprovals_never_leaks lower readFile marshal marshalMap
           ∅ store_S1 schedule_past_select past_select eq_refl "t1" 0 eq_refl).
Defined.

Lemma without_id_witness :
  (frame_of (after (start ∅ store_S1)
               [ Invoke (ServeHTTP from_S1) request_without_id; Enter 0;
                 Register 0; Publish (resolution_event "" true "ok" []); Listen ]) 0
   = Some (AtSelect ls_input "" 0)
   ∧ Step (after (start ∅ store_S1)
             [ Invoke (ServeHTTP from_S1) request_without_id; Enter 0;
               Register 0; Publish (resolution_event "" true "ok" []); Listen ])
          (Receive 0) = None)
  ∨ ∃ err,
      frame_of (after (start ∅ store_S1)
                  [ Invoke (ServeHTTP from_S1) request_without_id; Enter 0;
                    Register 0; Publish (resolution_event "" true "ok" []); Listen ]) 0
      = Some (Returned (Err err)).
Proof.
  exact (call_without_tool_use_id_is_never_resolved
           lower readFile marshal marshalMap ∅ store_S1
           [Invoke (ServeHTTP from_S1) request_without_id; Enter 0]
           [Publish (resolution_event "" true "ok" []); Listen]
           (after (start ∅ store_S1)
                  [Invoke (ServeHTTP from_S1) request_without_id; Enter 0])
           _ 0 {| frame := AtRegister ls_input ""; ctxErr := None |} ls_input
           eq_refl eq_refl eq_refl eq_refl).
Defined.

Lemma delivery_witness :
  ∃ w1 w2,
    Step (after waiting_world [Submit (ByToolUseID "t1") true "ok" []]) Listen = Some w1
    ∧ Step w1 (Receive 0) = Some w2
    ∧ pendingApprovals (server w2) !! "t1" = None.
Proof.
  destruct (resolution_event_reaches_waiting_call lower readFile marshal marshalMap
              (after waiting_world [Submit (ByToolUseID "t1") true "ok" []])
              0 call_waiting ls_input "t1" 0
              (resolution_event "t1" true "ok" []) [])
    as (w1 & w2 & H1 & _ & H3 & _ & H5 & _);
    [by vm_compute ..|].
  by exists w1, w2.
Defined.

Lemma creation_error_witness :
  ∃ w', Step (after (start ∅ store_S1)
                    [Invoke (ServeHTTP from_S2) request_t1]) (Enter 0) = Some w'
        ∧ frame_of w' 0
          = Some (Returned (Err "failed to create approval: SessionNotFound"))
        ∧ journal w' = [].
Proof.
  destruct (creation_errors_fail_the_call lower readFile marshal marshalMap
              (after (start ∅ store_S1) [Invoke (ServeHTTP from_S2) request_t1])
              0 {| frame := AtEntry (ServeHTTP from_S2) request_t1; ctxErr := None |}
              (ServeHTTP from_S2) request_t1)
    as (w' & H1 & _ & _ & H4 & H5);
    [by vm_compute ..|].
  exists w'. split; [exact H1|]. split; [|exact H4].
  exact (proj1 (H5 "SessionNotFound" store_S1 eq_refl)).
Defined.

Lemma cancel_leaves_others_witness :
  server (after waiting_world [Cancel 0 "context canceled"]) = server waiting_world.
Proof.
  exact (proj1 (proj1
    (cancel_and_return_leave_other_waits lower readFile marshal marshalMap
       waiting_world 0 call_waiting ls_input "t1" 0 eq_refl eq_refl)
    "context canceled" (after waiting_world [Cancel 0 "context canceled"]) eq_refl)).
Defined.

Lemma duplicate_id_witness :
  frame_of (after two_calls_same_id [CtxDone 0]) 1 = Some (AtSelect ls_input "t1" 1)
  ∧ pendingApprovals (server (after two_calls_same_id [CtxDone 0])) !! "t1" = None.
Proof.
  destruct (duplicate_tool_use_id_loses_the_handle lower readFile marshal marshalMap
              two_calls_same_id (after two_calls_same_id [CtxDone 0]) 0 1
              {| frame := AtSelect ls_input "t1" 0; ctxErr := Some "context canceled" |}
              {| frame := AtSelect ls_input "t1" 1; ctxErr := None |}
              ls_input ls_input "t1" 0 1 (CtxDone 0))
    as (H1 & H2 & _);
    [by vm_compute ..| |by vm_compute|]; [by right|].
  split; [exact H1|exact H2].
Defined.

End GatewayFactsAt.

(** ** More on the ephemeral chat: rejections, the panic, the reply *)

Module EphemeralChatFacts.
Import EphemeralChat.

Local Open Scope Z_scope.

Lemma length_append (s1 s2 : string) :
  String.length (s1 +:+ s2) = (String.length s1 + String.length s2)%nat.
Proof. induction s1 as [|c s1 IH]; simpl; [done|by f_equal]. Qed.

Lemma length_substring_le (s : string) : ∀ n m,
  (String.length (String.substring n m s) ≤ m)%nat.
Proof.
  induction s as [|c s IH]; intros [|n] [|m]; cbn; try lia.
  - specialize (IH 0%nat m). lia.
  - apply (IH n 0%nat).
  - apply (IH n (S m)).
Qed.

(** X8. Requests rejected before the model is asked. Without a Claude
    client the reply is 503; with one, an unparsable body or an empty
    message is answered 400; in these cases the store is not called at
    all. With a message, an unknown session is answered 404 after the
    single call [GetSession]. No query is launched in any of them. *)
Theorem rejected_requests_launch_nothing
        (h : EphemeralChatHandler) (sessionID : string) :
  (claudeClient h = None →
   ∀ body, HandleEphemeralChat h sessionID body
           = {| reply := JSONError 503 "Claude Code not available";
                store_calls := []; launches := [] |})
  ∧ (∀ client, claudeClient h = Some client →
       HandleEphemeralChat h sessionID None
       = {| reply := JSONError 400 "Invalid request body";
            store_calls := []; launches := [] |}
       ∧ (∀ req, Message req = "" →
            HandleEphemeralChat h sessionID (Some req)
            = {| reply := JSONError 400 "Message is required";
                 store_calls := []; launches := [] |})
       ∧ (∀ req err, Message req ≠ "" →
            GetSession (store h) sessionID = Err err →
            HandleEphemeralChat h sessionID (Some req)
            = {| reply := JSONError 404 "Session not found";
                 store_calls := [CallGetSession sessionID]; launches := [] |})).
Proof.
  split.
  - intros Hc body. unfold HandleEphemeralChat. by rewrite Hc.
  - intros client Hc. unfold HandleEphemeralChat. rewrite Hc.
    split; [done|]. split.
    + intros req Hm. by rewrite Hm.
    + intros req err Hm Hs. apply String.eqb_neq in Hm. by rewrite Hm, Hs.
Qed.

(** X9. A negative [max_events] panics. For a request with a message,
    a known session, recent events asked for and a non-empty
    conversation, a negative [max_events] makes the start index exceed
    the length of the conversation: the handler panics on the slice
    after its two store reads, before any query is launched. *)
Theorem negative_max_events_panics
        (h : EphemeralChatHandler) (sessionID : string) (req : EphemeralChatRequest)
        (client : SessionConfig → result ClaudeResult) (session : Session)
        (events : list ConversationEvent) :
  claudeClient h = Some client →
  Message req ≠ "" →
  GetSession (store h) sessionID = Ok session →
  IncludeRecentEvents (Context req) = true →
  GetSessionConversation (store h) sessionID = Ok events →
  0 < Z.of_nat (length events) < 2 ^ 63 →
  - 2 ^ 63 ≤ MaxEvents (Context req) < 0 →
  HandleEphemeralChat h sessionID (Some req)
  = {| reply := Panic "slice bounds out of range";
       store_calls := [CallGetSession sessionID; CallGetSessionConversation sessionID];
       launches := [] |}.
Proof.
  intros Hc Hm Hs Hinc Hev Hlen Hmax.
  unfold HandleEphemeralChat. rewrite Hc. apply String.eqb_neq in Hm. rewrite Hm, Hs.
  destruct (Z.eqb_spec (MaxEvents (Context req)) 0) as [H0|_]; [lia|].
  unfold conversation_parts. rewrite Hinc, Hev.
  destruct (Z.ltb_spec 0 (Z.of_nat (length events))) as [_|?]; [|lia].
  rewrite recent_events_cases by lia.
  destruct (Z.ltb_spec 0 (MaxEvents (Context req))) as [?|_]; [lia|]. done.
Qed.

(** X10. The reply follows the model. For a request with a message and
    a known session, unless the handler panics it launches exactly one
    query, single-turn and in the session's working directory, and the
    reply is 200 with the model's result verbatim when the client
    returns a result that is not an error, and 500 "Failed to get AI
    response" otherwise: the client's error text is never sent back. *)
Theorem reply_follows_the_model
        (h : EphemeralChatHandler) (sessionID : string) (req : EphemeralChatRequest)
        (client : SessionConfig → result ClaudeResult) (session : Session) :
  claudeClient h = Some client →
  Message req ≠ "" →
  GetSession (store h) sessionID = Ok session →
  (∀ msg, reply (HandleEphemeralChat h sessionID (Some req)) ≠ Panic msg) →
  ∃ config,
    launches (HandleEphemeralChat h sessionID (Some req)) = [config]
    ∧ MaxTurns config = 1
    ∧ ConfigWorkingDir config = WorkingDir session
    ∧ reply (HandleEphemeralChat h sessionID (Some req))
      = match client config with
        | Ok r => if IsError r then JSONError 500 "Failed to get AI response"
                  else JSONContent 200 (Result r)
        | Err _ => JSONError 500 "Failed to get AI response"
        end.
Proof.
  intros Hc Hm Hs. unfold HandleEphemeralChat.
  rewrite Hc. apply String.eqb_neq in Hm. rewrite Hm, Hs.
  destruct (conversation_parts _ _ _ _) as [[parts|] calls]; cbn.
  - intros _. unfold runEphemeralQuery.
    eexists. split; [|split; [|split]].
    + destruct (client _) as [r|e]; [destruct (IsError r)|]; reflexivity.
    + done.
    + done.
    + cbn. destruct (client _) as [r|e]; [destruct (IsError r)|]; reflexivity.
  - intros Hp. by destruct (Hp "slice bounds out of range").
Qed.


Lemma negative_max_events_witness :
  reply (HandleEphemeralChat demo_handler "S1" (Some (ask (-5))))
  = Panic "slice bounds out of range".
Proof.
  rewrite (negative_max_events_panics demo_handler "S1" (ask (-5))
             (λ config, Ok {| IsError := false; Error := ""; Result := "It ran the build." |})
             demo_session demo_conversation);
    try reflexivity; try discriminate; cbn; lia.
Defined.

Lemma reply_follows_witness :
  ∃ config,
    launches (HandleEphemeralChat demo_handler "S1" (Some (ask 2))) = [config]
    ∧ MaxTurns config = 1.
Proof.
  assert (Hm : Message (ask 2) ≠ "") by discriminate.
  assert (Hp : ∀ msg, reply (HandleEphemeralChat demo_handler "S1" (Some (ask 2)))
                      ≠ Panic msg).
  { intros msg. vm_compute. discriminate. }
  destruct (reply_follows_the_model demo_handler "S1" (ask 2)
              (λ config, Ok {| IsError := false; Error := ""; Result := "It ran the build." |})
              demo_session eq_refl Hm eq_refl Hp)
    as (config & H1 & H2 & _).
  by exists config.
Defined.


End EphemeralChatFacts.

(** ** The parts of Go's [strings] the git handler relies on *)

Module GoStrings.

Definition NUL : ascii := "000"%char.
Definition LF : ascii := "010"%char.

(** The ASCII white space of [strings.TrimSpace]: tab, line feed,
    vertical tab, form feed, carriage return, space. *)
Definition asciiSpace (c : ascii) : bool :=
  let n := N_of_ascii c in
  ((9 <=? n) && (n <=? 13) || (n =? 32))%N.

Section Trim.

(** [strings.TrimFunc(s, unicode.IsSpace)] and
    [strings.TrimRightFunc(s, unicode.IsSpace)], which [TrimSpace] falls
    back to when it meets a byte >= 0x80. *)
Variable TrimFunc_IsSpace : string → string.
Variable TrimRightFunc_IsSpace : string → string.

(** The first loop of [TrimSpace]: the text from the first byte that is
    not ASCII white space, or the result of the fallback. *)
Fixpoint trim_start (s : list ascii) : list ascii + string :=
  match s with
  | [] => inl []
  | c :: r =>
      if negb (Go.isASCII c) then inr (TrimFunc_IsSpace (string_of_list_ascii (c :: r)))
      else if asciiSpace c then trim_start r
      else inl (c :: r)
  end.

(** The second loop, over the reversed text. *)
Fixpoint trim_stop (rev_s : list ascii) : list ascii + string :=
  match rev_s with
  | [] => inl []
  | c :: r =>
      if negb (Go.isASCII c)
      then inr (TrimRightFunc_IsSpace (string_of_list_ascii (rev (c :: r))))
      else if asciiSpace c then trim_stop r
      else inl (c :: r)
  end.

Definition TrimSpace (s : string) : string :=
  match trim_start (list_ascii_of_string s) with
  | inr result => result
  | inl from_start =>
      match trim_stop (rev from_start) with
      | inr result => result
      | inl rev_kept => string_of_list_ascii (rev rev_kept)
      end
  end.

End Trim.

(** [strings.TrimPrefix] and [strings.TrimSuffix]. *)
Definition TrimPrefix (s prefix : string) : string :=
  if String.prefix prefix s
  then String.substring (String.length prefix)
                        (String.length s - String.length prefix) s
  else s.

Definition HasSuffix (s suffix : string) : bool :=
  (String.length suffix <=? String.length s)
  && String.eqb (String.substring (String.length s - String.length suffix)
                                  (String.length suffix) s) suffix.

Definition TrimSuffix (s suffix : string) : string :=
  if HasSuffix s suffix
  then String.substring 0 (String.length s - String.length suffix) s
  else s.

(** [strings.Fields]: a text of ASCII bytes is cut around its runs of
    ASCII white space, [field] holding the bytes of the field being read,
    last first; a text with a byte >= 0x80 is left to
    [FieldsFunc(s, unicode.IsSpace)]. *)
Fixpoint fields_ascii (s field : list ascii) : list string :=
  match s with
  | [] => match field with
          | [] => []
          | _ => [string_of_list_ascii (rev field)]
          end
  | c :: r =>
      if asciiSpace c then
        match field with
        | [] => fields_ascii r []
        | _ => string_of_list_ascii (rev field) :: fields_ascii r []
        end
      else fields_ascii r (c :: field)
  end.

Definition Fields (FieldsFunc_IsSpace : string → list string) (s : string)
  : list string :=
  if forallb Go.isASCII (list_ascii_of_string s)
  then fields_ascii (list_ascii_of_string s) []
  else FieldsFunc_IsSpace s.

(** [strings.Split(s, sep)] for a separator of one byte. *)
Fixpoint split_bytes (sep : ascii) (s : list ascii) : list (list ascii) :=
  match s with
  | [] => [[]]
  | c :: r =>
      if Ascii.eqb c sep then [] :: split_bytes sep r
      else match split_bytes sep r with
           | piece :: pieces => (c :: piece) :: pieces
           | [] => [[c]]
           end
  end.

Definition Split (s : string) (sep : ascii) : list string :=
  map string_of_list_ascii (split_bytes sep (list_ascii_of_string s)).

Example Split_porcelain :
  Split ("?? a" +:+ String NUL ("M  b" +:+ String NUL "")) NUL = ["?? a"; "M  b"; ""].
Proof. reflexivity. Qed.

Example Split_empty : Split "" LF = [""].
Proof. reflexivity. Qed.

Example TrimSpace_ascii f g :
  TrimSpace f g (String LF "  a b " +:+ String LF "") = "a b".
Proof. reflexivity. Qed.

Example Fields_numstat f :
  Fields f ("12" +:+ String "009" "3" +:+ String "009" "hld/api/git.go")
  = ["12"; "3"; "hld/api/git.go"].
Proof. reflexivity. Qed.

Example TrimPrefix_fence : TrimPrefix "```json{}" "```json" = "{}".
Proof. reflexivity. Qed.

Example TrimSuffix_fence : TrimSuffix "{}```" "```" = "{}".
Proof. reflexivity. Qed.

Example TrimSuffix_absent : TrimSuffix "{}" "```" = "{}".
Proof. reflexivity. Qed.

End GoStrings.

(** ** hld/api/handlers: the git handler *)

Module Git.
Import GoStrings.

(** [GitFile] represents a file in git status. *)
Record GitFile := {
  Path : string;
  Status : string;
  OldPath : string;
  Diff : string;
}.

(** The three lists of [GitStatusResponse], which the parsing loop fills. *)
Record FileLists := {
  Staged : list GitFile;
  Unstaged : list GitFile;
  Untracked : list GitFile;
}.

(** [GitStatusResponse] represents the response for git status. *)
Record GitStatusResponse := {
  Files : FileLists;
  Branch : string;
  HasChanges : bool;
  Ahead : Z;
  Behind : Z;
}.

(** [CommitMessage], [CommitRequest] and [CommitResponse]. *)
Record CommitMessage := {
  Subject : string;
  Body : string;
  Footer : string;
  CommitFiles : list string;
}.

Record CommitRequest := {
  Commits : list CommitMessage;
  CreateBranch : string;
  StageUntracked : bool;
  StageFiles : list string;
}.

Record CommitResponse := {
  Success : bool;
  CommitHashes : list string;
  BranchCreated : string;
  Error : string;
}.

(** What [cmd.Run] leaves: its error if any, and the two buffers. *)
Record Finished := {
  failed : option string;
  stdout : string;
  stderr : string;
}.

Definition byte_at (s : string) (i : nat) : ascii :=
  default NUL (String.get i s).

Definition with_status (file : GitFile) (status : string) : GitFile :=
  {| Path := Path file; Status := status; OldPath := OldPath file; Diff := Diff file |}.

Definition with_old_path (file : GitFile) (old : string) : GitFile :=
  {| Path := Path file; Status := Status file; OldPath := old; Diff := Diff file |}.

(** The three appends at the end of one iteration of the parsing loop,
    for an entry with the given status bytes and [file]. *)
Definition record_entry (indexStatus workTreeStatus : ascii) (file : GitFile)
           (lists : FileLists) : FileLists :=
  let staged :=
    if negb (Ascii.eqb indexStatus " ") && negb (Ascii.eqb indexStatus "?") then
      let stagedFile :=
        if Ascii.eqb indexStatus "A" then with_status file "added"
        else if Ascii.eqb indexStatus "M" then with_status file "modified"
        else if Ascii.eqb indexStatus "D" then with_status file "deleted"
        else if Ascii.eqb indexStatus "R" then with_status file "renamed"
        else if Ascii.eqb indexStatus "C" then with_status file "copied"
        else file in
      Staged lists ++ [stagedFile]
    else Staged lists in
  let unstaged :=
    if negb (Ascii.eqb workTreeStatus " ") && negb (Ascii.eqb workTreeStatus "?") then
      let unstagedFile :=
        if Ascii.eqb workTreeStatus "M" then with_status file "modified"
        else if Ascii.eqb workTreeStatus "D" then with_status file "deleted"
        else file in
      Unstaged lists ++ [unstagedFile]
    else Unstaged lists in
  let untracked :=
    if Ascii.eqb indexStatus "?" && Ascii.eqb workTreeStatus "?"
    then Untracked lists ++ [with_status file "untracked"]
    else Untracked lists in
  {| Staged := staged; Unstaged := unstaged; Untracked := untracked |}.

(** The loop over the NUL-separated entries of [git status --porcelain
    -z]. An entry of fewer than three bytes is skipped; a rename takes
    the next entry as its old path. *)
Fixpoint parse_entries (entries : list string) (lists : FileLists) : FileLists :=
  match entries with
  | [] => lists
  | entry :: rest =>
      if String.length entry <? 3 then parse_entries rest lists
      else
        let indexStatus := byte_at entry 0 in
        let workTreeStatus := byte_at entry 1 in
        let path := String.substring 3 (String.length entry - 3) entry in
        let file := {| Path := path; Status := ""; OldPath := ""; Diff := "" |} in
        if Ascii.eqb indexStatus "R" || Ascii.eqb workTreeStatus "R" then
          match rest with
          | old :: rest' =>
              parse_entries rest'
                (record_entry indexStatus workTreeStatus
                   (with_status (with_old_path file old) "renamed") lists)
          | [] =>
              record_entry indexStatus workTreeStatus
                (with_status file "renamed") lists
          end
        else
          parse_entries rest (record_entry indexStatus workTreeStatus file lists)
  end.

Definition no_files : FileLists :=
  {| Staged := []; Unstaged := []; Untracked := [] |}.

(** The porcelain output as [getGitStatus] parses it. *)
Definition parse_porcelain (output : string) : FileLists :=
  if String.eqb output "" then no_files
  else parse_entries (Split output NUL) no_files.

Definition has_changes (lists : FileLists) : bool :=
  (0 <? length (Staged lists)) || (0 <? length (Unstaged lists))
  || (0 <? length (Untracked lists)).

(** *** Running git *)

Section Handler.

(** The repository on disk and the [git] executable: running a command
    in a directory leaves the buffers and a new repository. *)
Variable Repo : Type.
Variable exec : Repo → string → list string → Finished * Repo.
Variable TrimFunc_IsSpace : string → string.
Variable TrimRightFunc_IsSpace : string → string.
(** [fmt.Sscanf(text, "%d", &n)]: the value of [n] afterwards, given
    its value before. *)
Variable Sscanf_d : string → Z → Z.

(** The repository and the commands run so far. *)
Record Git := {
  repo : Repo;
  ran : list (list string);
}.

Definition runGitCommand (g : Git) (dir : string) (args : list string)
  : result string * Git :=
  let '(out, repo') := exec (repo g) dir args in
  let g' := {| repo := repo'; ran := ran g ++ [args] |} in
  match failed out with
  | Some err => (Err (err +:+ ": " +:+ stderr out), g')
  | None => (Ok (TrimSpace TrimFunc_IsSpace TrimRightFunc_IsSpace (stdout out)), g')
  end.

(** The text of a result, empty on error: [out, _ := runGitCommand(...)]. *)
Definition text_of (r : result string) : string :=
  match r with Ok s => s | Err _ => "" end.

Definition getGitStatus (g : Git) (dir : string) : result GitStatusResponse * Git :=
  match runGitCommand g dir ["rev-parse"; "--abbrev-ref"; "HEAD"] with
  | (Err err, g) => (Err err, g)
  | (Ok branch, g) =>
      let '(upstream, g) := runGitCommand g dir ["rev-parse"; "--abbrev-ref"; "@{upstream}"] in
      let '(ahead, behind, g) :=
        if negb (String.eqb (text_of upstream) "") then
          let '(ahead, g) := runGitCommand g dir ["rev-list"; "--count"; "@{upstream}..HEAD"] in
          let aheadN := if negb (String.eqb (text_of ahead) "")
                        then Sscanf_d (text_of ahead) 0 else 0%Z in
          let '(behind, g) := runGitCommand g dir ["rev-list"; "--count"; "HEAD..@{upstream}"] in
          let behindN := if negb (String.eqb (text_of behind) "")
                         then Sscanf_d (text_of behind) 0 else 0%Z in
          (aheadN, behindN, g)
        else (0%Z, 0%Z, g) in
      match runGitCommand g dir ["status"; "--porcelain"; "-z"] with
      | (Err err, g) => (Err err, g)
      | (Ok output, g) =>
          let lists := parse_porcelain output in
          (Ok {| Files := lists; Branch := branch;
                 HasChanges := if String.eqb output "" then false else has_changes lists;
                 Ahead := ahead; Behind := behind |}, g)
      end
  end.

Definition createBranch (g : Git) (dir name : string) : option string * Git :=
  match runGitCommand g dir ["checkout"; "-b"; name] with
  | (Err err, g) => (Some err, g)
  | (Ok _, g) => (None, g)
  end.

Definition stageAllChanges (g : Git) (dir : string) : option string * Git :=
  match runGitCommand g dir ["add"; "-A"] with
  | (Err err, g) => (Some err, g)
  | (Ok _, g) => (None, g)
  end.

Definition stageFiles (g : Git) (dir : string) (files : list string)
  : option string * Git :=
  match runGitCommand g dir ("add" :: files) with
  | (Err err, g) => (Some err, g)
  | (Ok _, g) => (None, g)
  end.

(** [createCommit] returns the short hash; [hash[:8]] panics on a hash
    of fewer than eight bytes ([None]). *)
Definition createCommit (g : Git) (dir message : string)
  : option (result string) * Git :=
  match runGitCommand g dir ["commit"; "-m"; message] with
  | (Err err, g) => (Some (Err err), g)
  | (Ok _, g) =>
      match runGitCommand g dir ["rev-parse"; "HEAD"] with
      | (Err err, g) => (Some (Err err), g)
      | (Ok hash, g) =>
          if String.length hash <? 8 then (None, g)
          else (Some (Ok (String.substring 0 8 hash)), g)
      end
  end.

(** *** [HandleCommitChanges] *)

(** What the handler writes: an error object, a [CommitResponse] with
    its status code, or nothing when [createCommit] panics. *)
Inductive CommitReply :=
| ReplyError (code : Z) (error : string)
| ReplyCommit (code : Z) (response : CommitResponse)
| ReplyPanic.

Definition blank_line : string := String LF (String LF "").

(** "Build commit message". *)
Definition commit_message (commit : CommitMessage) : string :=
  let message := Subject commit in
  let message :=
    if negb (String.eqb (Body commit) "")
    then message +:+ blank_line +:+ Body commit else message in
  let message :=
    if negb (String.eqb (Footer commit) "")
    then message +:+ blank_line +:+ Footer commit else message in
  message.

Definition failure (response : CommitResponse) (error : string) : CommitResponse :=
  {| Success := false; CommitHashes := CommitHashes response;
     BranchCreated := BranchCreated response; Error := error |}.

Definition with_hash (response : CommitResponse) (hash : string) : CommitResponse :=
  {| Success := Success response; CommitHashes := CommitHashes response ++ [hash];
     BranchCreated := BranchCreated response; Error := Error response |}.

(** "Create commits": the loop over [req.Commits]. *)
Fixpoint create_commits (g : Git) (dir : string) (commits : list CommitMessage)
         (response : CommitResponse) : CommitReply * Git :=
  match commits with
  | [] => (ReplyCommit 200 response, g)
  | commit :: rest =>
      let message := commit_message commit in
      let '(staged, g) :=
        if 0 <? length (CommitFiles commit)
        then stageFiles g dir (CommitFiles commit)
        else (None, g) in
      match staged with
      | Some err =>
          (ReplyCommit 500
             (failure response ("Failed to stage files for commit: " +:+ err)), g)
      | None =>
          match createCommit g dir message with
          | (None, g) => (ReplyPanic, g)
          | (Some (Err err), g) =>
              (ReplyCommit 500
                 (failure response ("Failed to create commit: " +:+ err)), g)
          | (Some (Ok hash), g) =>
              create_commits g dir rest (with_hash response hash)
          end
      end
  end.

(** "Stage files if requested" and "Create commits". *)
Definition stage_and_commit (g : Git) (dir : string) (req : CommitRequest)
           (response : CommitResponse) : CommitReply * Git :=
  if StageUntracked req then
    match stageAllChanges g dir with
    | (Some err, g) =>
        (ReplyCommit 500 (failure response ("Failed to stage changes: " +:+ err)), g)
    | (None, g) => create_commits g dir (Commits req) response
    end
  else if 0 <? length (StageFiles req) then
    match stageFiles g dir (StageFiles req) with
    | (Some err, g) =>
        (ReplyCommit 500 (failure response ("Failed to stage files: " +:+ err)), g)
    | (None, g) => create_commits g dir (Commits req) response
    end
  else create_commits g dir (Commits req) response.

(** [HandleCommitChanges] executes git commits; [body] is the request
    as [ShouldBindJSON] parsed it, [None] when it could not. *)
Definition HandleCommitChanges (store : EphemeralChat.ConversationStore)
           (g : Git) (sessionID : string) (body : option CommitRequest)
  : CommitReply * Git :=
  match body with
  | None => (ReplyError 400 "Invalid request body", g)
  | Some req =>
      if length (Commits req) =? 0 then (ReplyError 400 "No commits provided", g)
      else
        match EphemeralChat.GetSession store sessionID with
        | Err _ => (ReplyError 404 "Session not found", g)
        | Ok session =>
            let dir := EphemeralChat.WorkingDir session in
            if String.eqb dir "" then
              (ReplyError 400 "Session has no working directory", g)
            else
              let response := {| Success := true; CommitHashes := [];
                                 BranchCreated := ""; Error := "" |} in
              if negb (String.eqb (CreateBranch req) "") then
                match createBranch g dir (CreateBranch req) with
                | (Some err, g) =>
                    (ReplyCommit 500
                       (failure response ("Failed to create branch: " +:+ err)), g)
                | (None, g) =>
                    stage_and_commit g dir req
                      {| Success := true; CommitHashes := [];
                         BranchCreated := CreateBranch req; Error := "" |}
                end
              else stage_and_commit g dir req response
        end
  end.

(** *** The commands a request asks for *)

Definition commit_commands (commit : CommitMessage) : list (list string) :=
  (if 0 <? length (CommitFiles commit) then ["add" :: CommitFiles commit] else [])
  ++ [ ["commit"; "-m"; commit_message commit]; ["rev-parse"; "HEAD"] ].

Definition branch_commands (req : CommitRequest) : list (list string) :=
  if String.eqb (CreateBranch req) "" then []
  else [ ["checkout"; "-b"; CreateBranch req] ].

Definition stage_commands (req : CommitRequest) : list (list string) :=
  if StageUntracked req then [ ["add"; "-A"] ]
  else if 0 <? length (StageFiles req) then ["add" :: StageFiles req]
  else [].

Definition planned_commands (req : CommitRequest) : list (list string) :=
  branch_commands req ++ stage_commands req
  ++ flat_map commit_commands (Commits req).

(** *** Facts about the commit handler *)

Lemma length_substring (s : string) : ∀ n m,
  n + m ≤ String.length s → String.length (String.substring n m s) = m.
Proof.
  induction s as [|c s IH]; intros [|n] [|m] Hle; cbn in *; try lia.
  - f_equal. apply (IH 0). lia.
  - apply (IH n 0). lia.
  - apply (IH n (S m)). lia.
Qed.

Lemma runGitCommand_ran g dir args :
  ran (runGitCommand g dir args).2 = ran g ++ [args].
Proof.
  unfold runGitCommand. destruct (exec _ _ _) as [out repo'].
  by destruct (failed out).
Qed.

Lemma createBranch_ran g dir name :
  ran (createBranch g dir name).2 = ran g ++ [ ["checkout"; "-b"; name] ].
Proof.
  unfold createBranch.
  pose proof (runGitCommand_ran g dir ["checkout"; "-b"; name]) as H.
  by destruct (runGitCommand _ _ _) as [[?|?] g'].
Qed.

Lemma stageAllChanges_ran g dir :
  ran (stageAllChanges g dir).2 = ran g ++ [ ["add"; "-A"] ].
Proof.
  unfold stageAllChanges.
  pose proof (runGitCommand_ran g dir ["add"; "-A"]) as H.
  by destruct (runGitCommand _ _ _) as [[?|?] g'].
Qed.

Lemma stageFiles_ran g dir files :
  ran (stageFiles g dir files).2 = ran g ++ ["add" :: files].
Proof.
  unfold stageFiles.
  pose proof (runGitCommand_ran g dir ("add" :: files)) as H.
  by destruct (runGitCommand _ _ _) as [[?|?] g'].
Qed.

(** [createCommit] runs [commit] and, when that succeeded, [rev-parse];
    a hash it returns has eight bytes. *)
Lemma createCommit_spec g dir message :
  ∃ done,
    ran (createCommit g dir message).2 = ran g ++ done
    ∧ done `prefix_of` [ ["commit"; "-m"; message]; ["rev-parse"; "HEAD"] ]
    ∧ ∀ hash, (createCommit g dir message).1 = Some (Ok hash) →
        done = [ ["commit"; "-m"; message]; ["rev-parse"; "HEAD"] ]
        ∧ String.length hash = 8.
Proof.
  unfold createCommit.
  pose proof (runGitCommand_ran g dir ["commit"; "-m"; message]) as H1.
  destruct (runGitCommand g dir _) as [[out1|err1] g1]; cbn in H1.
  - pose proof (runGitCommand_ran g1 dir ["rev-parse"; "HEAD"]) as H2.
    destruct (runGitCommand g1 dir _) as [[hash|err2] g2]; cbn in H2.
    + exists [ ["commit"; "-m"; message]; ["rev-parse"; "HEAD"] ].
      destruct (Nat.ltb_spec (String.length hash) 8) as [Hshort|Hlong]; cbn.
      * rewrite H2, H1, <- app_assoc. by repeat split.
      * rewrite H2, H1, <- app_assoc. split; [done|]. split; [done|].
        intros hash0 [= <-]. split; [done|]. by apply length_substring.
    + exists [ ["commit"; "-m"; message]; ["rev-parse"; "HEAD"] ]. cbn.
      rewrite H2, H1, <- app_assoc. by repeat split.
  - exists [ ["commit"; "-m"; message] ]. cbn. rewrite H1.
    repeat split; try done. by apply prefix_cons, prefix_nil.
Qed.

Lemma prefix_two {A} (done : list A) a b later :
  done `prefix_of` [a; b] → done `prefix_of` a :: b :: later.
Proof. intros H. by apply (prefix_app_r _ [a; b] later). Qed.

(** The shape of a reply of the commit loop that started from
    [response], and of the commands [done] it ran. *)
Definition loop_outcome (response : CommitResponse) (commits : list CommitMessage)
           (reply : CommitReply) (done : list (list string)) : Prop :=
  match reply with
  | ReplyError _ _ => False
  | ReplyPanic => True
  | ReplyCommit code r =>
      BranchCreated r = BranchCreated response
      ∧ ∃ hashes,
          CommitHashes r = CommitHashes response ++ hashes
          ∧ Forall (λ hash, String.length hash = 8) hashes
          ∧ ((code = 200%Z ∧ Success r = Success response ∧ Error r = Error response
              ∧ length hashes = length commits
              ∧ done = flat_map commit_commands commits)
             ∨ (code = 500%Z ∧ Success r = false ∧ Error r ≠ ""
                ∧ length hashes < length commits))
  end.

Lemma create_commits_spec dir commits : ∀ g response,
  ∃ done,
    ran (create_commits g dir commits response).2 = ran g ++ done
    ∧ done `prefix_of` flat_map commit_commands commits
    ∧ loop_outcome response commits (create_commits g dir commits response).1 done.
Proof.
  induction commits as [|commit rest IH]; intros g response.
  - exists []. cbn. rewrite app_nil_r. repeat split; try done.
    exists []. rewrite app_nil_r. repeat split; try done. by left.
  - cbn [create_commits flat_map]. unfold loop_outcome in *. cbn [flat_map].
    remember (flat_map commit_commands rest) as later eqn:Hlater.
    unfold commit_commands. clear Hlater.
    destruct (Nat.ltb_spec 0 (length (CommitFiles commit))) as [Hfiles|Hnone].
    + pose proof (stageFiles_ran g dir (CommitFiles commit)) as Hs.
      destruct (stageFiles g dir (CommitFiles commit)) as [[err|] g1]; cbn in Hs.
      * exists ["add" :: CommitFiles commit]. cbn. repeat split; try done.
        { by apply prefix_cons, prefix_nil. }
        exists []. rewrite app_nil_r. repeat split; try done.
        right. repeat split; try done. cbn. lia.
      * destruct (createCommit_spec g1 dir (commit_message commit))
          as (done1 & Hr1 & Hp1 & Hh1).
        destruct (createCommit g1 dir (commit_message commit))
          as [[[hash|err]|] g2]; cbn in Hr1, Hh1.
        -- destruct (Hh1 hash eq_refl) as [-> Hlen].
           destruct (IH g2 (with_hash response hash)) as (done2 & Hr2 & Hp2 & Ho2).
           exists (("add" :: CommitFiles commit)
                   :: [ ["commit"; "-m"; commit_message commit]; ["rev-parse"; "HEAD"] ]
                   ++ done2).
           split; [rewrite Hr2, Hr1, Hs; by rewrite <- !app_assoc|].
           split; [cbn; by do 3 apply prefix_cons|].
           revert Ho2.
           destruct (create_commits g2 dir rest _).1 as [| code r |]; [done| |done].
           cbn [with_hash BranchCreated CommitHashes Success Error].
           intros (Hb & hashes & Hhs & Hall & Hcase). split; [done|].
           exists (hash :: hashes). rewrite Hhs, <- app_assoc.
           split; [done|]. split; [by constructor|].
           destruct Hcase as [(-> & ? & ? & ? & ->)|(-> & ? & ? & ?)].
           ++ left. repeat split; try done. cbn. lia.
           ++ right. repeat split; try done. cbn. lia.
        -- exists (("add" :: CommitFiles commit) :: done1). cbn.
           split; [rewrite Hr1, Hs; by rewrite <- app_assoc|].
           split; [apply prefix_cons; by apply prefix_two|].
           split; [done|]. exists []. rewrite app_nil_r. repeat split; try done.
           right. repeat split; try done. cbn. lia.
        -- exists (("add" :: CommitFiles commit) :: done1). cbn.
           split; [rewrite Hr1, Hs; by rewrite <- app_assoc|].
           split; [apply prefix_cons; by apply prefix_two|done].
    + destruct (createCommit_spec g dir (commit_message commit))
        as (done1 & Hr1 & Hp1 & Hh1).
      destruct (createCommit g dir (commit_message commit))
        as [[[hash|err]|] g2]; cbn in Hr1, Hh1.
      * destruct (Hh1 hash eq_refl) as [-> Hlen].
        destruct (IH g2 (with_hash response hash)) as (done2 & Hr2 & Hp2 & Ho2).
        exists ([ ["commit"; "-m"; commit_message commit]; ["rev-parse"; "HEAD"] ]
                ++ done2).
        split; [rewrite Hr2, Hr1; by rewrite <- !app_assoc|].
        split; [cbn; by do 2 apply prefix_cons|].
        revert Ho2.
        destruct (create_commits g2 dir rest _).1 as [| code r |]; [done| |done].
        cbn [with_hash BranchCreated CommitHashes Success Error].
        intros (Hb & hashes & Hhs & Hall & Hcase). split; [done|].
        exists (hash :: hashes). rewrite Hhs, <- app_assoc.
        split; [done|]. split; [by constructor|].
        destruct Hcase as [(-> & ? & ? & ? & ->)|(-> & ? & ? & ?)].
        -- left. repeat split; try done. cbn. lia.
        -- right. repeat split; try done. cbn. lia.
      * exists done1. cbn. split; [done|]. split; [by apply prefix_two|].
        split; [done|]. exists []. rewrite app_nil_r. repeat split; try done.
        right. repeat split; try done. cbn. lia.
      * exists done1. cbn. split; [done|]. split; [by apply prefix_two|done].
Qed.

(** A request the handler rejects before it runs anything. *)
Definition rejected (store : EphemeralChat.ConversationStore) (sessionID : string)
           (body : option CommitRequest) : Prop :=
  match body with
  | None => True
  | Some req =>
      Commits req = []
      ∨ match EphemeralChat.GetSession store sessionID with
        | Err _ => True
        | Ok session => EphemeralChat.WorkingDir session = ""
        end
  end.

(** The shape of a reply to an accepted request, and of the commands
    [done] the handler ran for it. *)
Definition reply_outcome (req : CommitRequest) (reply : CommitReply)
           (done : list (list string)) : Prop :=
  done `prefix_of` planned_commands req
  ∧ match reply with
    | ReplyError _ _ => False
    | ReplyPanic => True
    | ReplyCommit code r =>
        Forall (λ hash, String.length hash = 8) (CommitHashes r)
        ∧ ((code = 200%Z ∧ Success r = true ∧ Error r = ""
            ∧ BranchCreated r = CreateBranch req
            ∧ length (CommitHashes r) = length (Commits req)
            ∧ done = planned_commands req)
           ∨ (code = 500%Z ∧ Success r = false ∧ Error r ≠ ""
              ∧ length (CommitHashes r) < length (Commits req)))
    end.

Lemma failed_before_commits req code response done :
  Commits req ≠ [] → done `prefix_of` planned_commands req →
  code = 500%Z → Success response = false → Error response ≠ "" →
  CommitHashes response = [] →
  reply_outcome req (ReplyCommit code response) done.
Proof.
  intros Hne Hp -> Hs He Hh. split; [done|]. rewrite Hh. split; [constructor|].
  right. repeat split; try done. destruct (Commits req); [done|cbn; lia].
Qed.

Lemma commits_after dir req g0 g1 pre response :
  ran g1 = ran g0 ++ pre →
  planned_commands req = pre ++ flat_map commit_commands (Commits req) →
  Success response = true → Error response = "" → CommitHashes response = [] →
  BranchCreated response = CreateBranch req →
  ∃ done,
    ran (create_commits g1 dir (Commits req) response).2 = ran g0 ++ done
    ∧ reply_outcome req (create_commits g1 dir (Commits req) response).1 done.
Proof.
  intros Hran Hplan Hs He Hh Hb.
  destruct (create_commits_spec dir (Commits req) g1 response) as (done2 & Hr & Hp & Ho).
  exists (pre ++ done2). split; [rewrite Hr, Hran; by rewrite <- app_assoc|].
  unfold reply_outcome. rewrite Hplan. split; [by apply prefix_app|].
  revert Ho. unfold loop_outcome.
  destruct (create_commits g1 dir (Commits req) response).1 as [|code r|]; [done| |done].
  rewrite Hh, Hs, He, Hb. cbn [app].
  intros (Hb' & hashes & -> & Hall & [(-> & ? & ? & ? & ->)|(-> & ? & ? & ?)]).
  - split; [done|]. left. by repeat split.
  - split; [done|]. right. by repeat split.
Qed.

Lemma stage_and_commit_spec dir req g0 g1 response :
  Commits req ≠ [] →
  ran g1 = ran g0 ++ branch_commands req →
  Success response = true → Error response = "" → CommitHashes response = [] →
  BranchCreated response = CreateBranch req →
  ∃ done,
    ran (stage_and_commit g1 dir req response).2 = ran g0 ++ done
    ∧ reply_outcome req (stage_and_commit g1 dir req response).1 done.
Proof.
  intros Hne Hran Hs He Hh Hb. unfold stage_and_commit.
  assert (Hfail : ∀ g2 error,
            ran g2 = ran g1 ++ stage_commands req → error ≠ "" →
            ∃ done, ran g2 = ran g0 ++ done
                    ∧ reply_outcome req (ReplyCommit 500 (failure response error)) done).
  { intros g2 error H2 Herr. exists (branch_commands req ++ stage_commands req).
    split; [rewrite H2, Hran; by rewrite <- app_assoc|].
    apply failed_before_commits; try done.
    unfold planned_commands. rewrite app_assoc. by apply prefix_app_r. }
  assert (Hgo : ∀ g2,
            ran g2 = ran g1 ++ stage_commands req →
            ∃ done,
              ran (create_commits g2 dir (Commits req) response).2 = ran g0 ++ done
              ∧ reply_outcome req (create_commits g2 dir (Commits req) response).1 done).
  { intros g2 H2.
    apply (commits_after dir req g0 g2 (branch_commands req ++ stage_commands req));
      try done.
    - rewrite H2, Hran. by rewrite <- app_assoc.
    - unfold planned_commands. by rewrite app_assoc. }
  unfold stage_commands in Hfail, Hgo.
  destruct (StageUntracked req).
  - pose proof (stageAllChanges_ran g1 dir) as H2.
    destruct (stageAllChanges g1 dir) as [[err|] g2]; cbn in H2; [|by apply Hgo].
    by apply Hfail.
  - destruct (0 <? length (StageFiles req)).
    + pose proof (stageFiles_ran g1 dir (StageFiles req)) as H2.
      destruct (stageFiles g1 dir (StageFiles req)) as [[err|] g2]; cbn in H2;
        [|by apply Hgo].
      by apply Hfail.
    + apply Hgo. by rewrite app_nil_r.
Qed.

Lemma reply_outcome_not_error req code error done :
  ¬ reply_outcome req (ReplyError code error) done.
Proof. by intros [_ ?]. Qed.

(** X12. A commit request is rejected, with a 400 or 404 error object and
    without running any git command or touching the repository, exactly
    when its body cannot be parsed, it lists no commit, its session is
    unknown, or the session has no working directory. *)
Theorem rejected_commit_requests_run_no_git
        (store : EphemeralChat.ConversationStore) (g : Git) (sessionID : string)
        (body : option CommitRequest) :
  match (HandleCommitChanges store g sessionID body).1 with
  | ReplyError code _ =>
      rejected store sessionID body
      ∧ (code = 400%Z ∨ code = 404%Z)
      ∧ (HandleCommitChanges store g sessionID body).2 = g
  | ReplyCommit _ _ | ReplyPanic => ¬ rejected store sessionID body
  end.
Proof.
  unfold HandleCommitChanges, rejected.
  destruct body as [req|]; [|cbn; auto].
  destruct (Commits req) as [|commit rest] eqn:Hcommits; [cbn; auto|].
  cbn [length Nat.eqb].
  destruct (EphemeralChat.GetSession store sessionID) as [session|err]; [|cbn; auto].
  destruct (String.eqb_spec (EphemeralChat.WorkingDir session) "") as [Hd|Hd];
    [cbn; auto|].
  assert (Hnot : ¬ (commit :: rest = [] ∨ EphemeralChat.WorkingDir session = ""))
    by (intros [?|?]; done).
  assert (Hne : Commits req ≠ []) by (by rewrite Hcommits).
  assert (Hstage : ∀ g1 response,
    ran g1 = ran g ++ branch_commands req →
    Success response = true → Error response = "" → CommitHashes response = [] →
    BranchCreated response = CreateBranch req →
    match (stage_and_commit g1 (EphemeralChat.WorkingDir session) req response).1 with
    | ReplyError _ _ => False
    | ReplyCommit _ _ | ReplyPanic => True
    end).
  { intros g1 response H1 H2 H3 H4 H5.
    destruct (stage_and_commit_spec (EphemeralChat.WorkingDir session) req g g1
                response Hne H1 H2 H3 H4 H5) as (done & _ & Ho).
    destruct (stage_and_commit _ _ _ _).1; [|done..].
    by apply reply_outcome_not_error in Ho. }
  unfold branch_commands in Hstage.
  destruct (String.eqb_spec (CreateBranch req) "") as [Hb|Hb]; cbn [negb].
  - specialize (Hstage g {| Success := true; CommitHashes := [];
                            BranchCreated := ""; Error := "" |}).
    rewrite app_nil_r in Hstage. specialize (Hstage eq_refl eq_refl eq_refl eq_refl).
    cbn in Hstage. specialize (Hstage (eq_sym Hb)).
    by destruct (stage_and_commit _ _ _ _).1.
  - pose proof (createBranch_ran g (EphemeralChat.WorkingDir session) (CreateBranch req))
      as H1.
    destruct (createBranch g _ _) as [[err|] g1]; [done|]. cbn in H1.
    specialize (Hstage g1 {| Success := true; CommitHashes := [];
                             BranchCreated := CreateBranch req; Error := "" |}
                       H1 eq_refl eq_refl eq_refl eq_refl).
    by destruct (stage_and_commit _ _ _ _).1.
Qed.


End Handler.

(** *** The porcelain format, printed *)

(** One change as [git status --porcelain -z] lists it: the two status
    bytes, the path and, for a rename or a copy, the path it comes
    from. *)
Record Change := {
  index_status : ascii;
  worktree_status : ascii;
  path : string;
  old_path : string;
}.

Definition is_rename (c : Change) : bool :=
  Ascii.eqb (index_status c) "R" || Ascii.eqb (worktree_status c) "R".

Definition entry_of (c : Change) : string :=
  String (index_status c) (String (worktree_status c) (String " " (path c))).

Definition is_copy (c : Change) : bool :=
  Ascii.eqb (index_status c) "C" || Ascii.eqb (worktree_status c) "C".

(** git prints the source path after the entry of a rename and after
    the entry of a copy. *)
Definition has_source (c : Change) : bool := is_rename c || is_copy c.

Definition entries_of (c : Change) : list string :=
  entry_of c :: (if has_source c then [old_path c] else []).

(** Entries, each followed by NUL. *)
Definition z_join (entries : list string) : string :=
  String.concat "" (map (λ entry, entry +:+ String NUL "") entries).

Definition stdout_of (changes : list Change) : string :=
  z_join (flat_map entries_of changes).

Definition file_of (c : Change) : GitFile :=
  if is_rename c
  then {| Path := path c; Status := "renamed"; OldPath := old_path c; Diff := "" |}
  else {| Path := path c; Status := ""; OldPath := ""; Diff := "" |}.

(** What the lists should hold for the changes, in order. *)
Definition expected (changes : list Change) : FileLists :=
  fold_left (λ lists c, record_entry (index_status c) (worktree_status c)
                                     (file_of c) lists)
            changes no_files.

Definition NUL_free (s : string) : Prop :=
  NUL ∉ list_ascii_of_string s.

Definition append_lists (a b : FileLists) : FileLists :=
  {| Staged := Staged a ++ Staged b;
     Unstaged := Unstaged a ++ Unstaged b;
     Untracked := Untracked a ++ Untracked b |}.

(** *** Facts about strings *)

Lemma list_of_append s1 s2 :
  list_ascii_of_string (s1 +:+ s2)
  = list_ascii_of_string s1 ++ list_ascii_of_string s2.
Proof. induction s1 as [|c s1 IH]; simpl; [done|by f_equal]. Qed.

Lemma substring_whole s : String.substring 0 (String.length s) s = s.
Proof. induction s as [|c s IH]; simpl; [done|by f_equal]. Qed.

Lemma split_bytes_piece sep piece rest :
  sep ∉ piece →
  split_bytes sep (piece ++ sep :: rest) = piece :: split_bytes sep rest.
Proof.
  induction piece as [|c piece IH]; intros Hnot; cbn.
  - by rewrite Ascii.eqb_refl.
  - apply not_elem_of_cons in Hnot as [Hc Hnot].
    destruct (Ascii.eqb_spec c sep) as [->|_]; [done|]. by rewrite IH.
Qed.

Lemma list_of_z_join entries :
  list_ascii_of_string (z_join entries)
  = concat (map (λ entry, list_ascii_of_string entry ++ [NUL]) entries).
Proof.
  unfold z_join. induction entries as [|entry rest IH]; [done|].
  cbn [map concat]. rewrite <- IH. clear IH.
  destruct rest as [|next rest'].
  - cbn. by rewrite list_of_append, app_nil_r.
  - cbn [map String.concat]. by rewrite !list_of_append.
Qed.

(** Splitting NUL-terminated entries gives the entries and a last empty
    piece. *)
Lemma Split_z_join entries :
  Forall NUL_free entries →
  Split (z_join entries) NUL = entries ++ [""].
Proof.
  intros Hfree. unfold Split. rewrite list_of_z_join.
  induction Hfree as [|entry rest Hentry _ IH]; [done|].
  cbn [map concat]. rewrite <- app_assoc. cbn [app].
  rewrite split_bytes_piece by done. cbn [map app].
  by rewrite IH, string_of_list_ascii_of_string.
Qed.

(** *** Facts about the parsing loop *)

Lemma record_entry_acc X Y file lists :
  record_entry X Y file lists
  = append_lists lists (record_entry X Y file no_files).
Proof.
  unfold record_entry, append_lists. cbn.
  destruct (negb (Ascii.eqb X " ") && negb (Ascii.eqb X "?"));
    destruct (negb (Ascii.eqb Y " ") && negb (Ascii.eqb Y "?"));
    destruct (Ascii.eqb X "?" && Ascii.eqb Y "?");
    cbn; by rewrite ?app_nil_r.
Qed.

Lemma append_lists_assoc a b c :
  append_lists (append_lists a b) c = append_lists a (append_lists b c).
Proof. unfold append_lists. cbn. by rewrite !app_assoc. Qed.

Lemma append_lists_no_files a : append_lists a no_files = a.
Proof. destruct a. unfold append_lists. cbn. by rewrite !app_nil_r. Qed.

(** The loop adds to the lists it is given what it would add to empty
    lists. *)
Lemma parse_entries_acc_bounded n : ∀ entries lists,
  length entries ≤ n →
  parse_entries entries lists
  = append_lists lists (parse_entries entries no_files).
Proof.
  induction n as [|n IH]; intros [|entry rest] lists Hn.
  - cbn. by rewrite append_lists_no_files.
  - cbn in Hn. lia.
  - cbn. by rewrite append_lists_no_files.
  - cbn [length] in Hn. cbn [parse_entries].
    destruct (String.length entry <? 3); [apply IH; lia|].
    destruct (Ascii.eqb (byte_at entry 0) "R" || Ascii.eqb (byte_at entry 1) "R").
    + destruct rest as [|old rest'].
      * apply record_entry_acc.
      * cbn [length] in Hn. rewrite (IH rest' (record_entry _ _ _ lists)) by lia.
        rewrite (IH rest' (record_entry _ _ _ no_files)) by lia.
        by rewrite record_entry_acc, append_lists_assoc.
    + rewrite (IH rest (record_entry _ _ _ lists)) by lia.
      rewrite (IH rest (record_entry _ _ _ no_files)) by lia.
      by rewrite record_entry_acc, append_lists_assoc.
Qed.

Lemma parse_entries_acc entries lists :
  parse_entries entries lists
  = append_lists lists (parse_entries entries no_files).
Proof. by apply (parse_entries_acc_bounded (length entries)). Qed.

Lemma entry_of_fields c :
  (String.length (entry_of c) <? 3) = false
  ∧ byte_at (entry_of c) 0 = index_status c
  ∧ byte_at (entry_of c) 1 = worktree_status c
  ∧ String.substring 3 (String.length (entry_of c) - 3) (entry_of c) = path c.
Proof.
  unfold entry_of. cbn. rewrite Nat.sub_0_r. by rewrite substring_whole.
Qed.

(** The loop reads printed changes back, one change at a time, when
    none is a copy: the old path of a rename is taken with its entry and
    the last empty piece is skipped. *)
Lemma parse_printed changes :
  Forall (λ c, is_copy c = false) changes →
  ∀ lists,
    parse_entries (flat_map entries_of changes ++ [""]) lists
    = fold_left (λ lists c, record_entry (index_status c) (worktree_status c)
                                         (file_of c) lists)
                changes lists.
Proof.
  induction 1 as [|c rest Hc _ IH]; intros lists; [done|].
  cbn [flat_map fold_left]. unfold entries_of at 1, has_source.
  rewrite Hc, orb_false_r. cbn [app parse_entries].
  destruct (entry_of_fields c) as (-> & -> & -> & ->).
  unfold file_of, is_rename.
  destruct (Ascii.eqb (index_status c) "R" || Ascii.eqb (worktree_status c) "R");
    cbn [app]; apply IH.
Qed.

(** *** [TrimSpace] on NUL-terminated output *)

Lemma z_join_ends_NUL entry entries :
  ∃ body, list_ascii_of_string (z_join (entry :: entries)) = body ++ [NUL].
Proof.
  rewrite list_of_z_join. revert entry.
  induction entries as [|next rest IH]; intros entry.
  - exists (list_ascii_of_string entry). cbn. by rewrite app_nil_r.
  - destruct (IH next) as [body Hbody].
    exists ((list_ascii_of_string entry ++ [NUL]) ++ body).
    cbn [map concat] in *. by rewrite Hbody, <- !app_assoc.
Qed.

Lemma TrimSpace_from_kept f g (text : string) x rest :
  list_ascii_of_string text = x :: rest →
  Go.isASCII x = true → asciiSpace x = false →
  (∃ body, x :: rest = body ++ [NUL]) →
  trim_start f (x :: rest) = inl (x :: rest)
  ∧ match trim_stop g (rev (x :: rest)) with
    | inr result => False
    | inl rev_kept => string_of_list_ascii (rev rev_kept) = text
    end.
Proof.
  intros Hlist Hascii Hspace [body Hbody]. split.
  - cbn. by rewrite Hascii, Hspace.
  - assert (Hrev : rev (x :: rest) = NUL :: rev body).
    { rewrite Hbody. apply rev_app_distr. }
    rewrite Hrev. cbn [trim_stop].
    change (negb (Go.isASCII NUL)) with false. change (asciiSpace NUL) with false.
    cbn match. by rewrite <- Hrev, rev_involutive, <- Hlist, string_of_list_ascii_of_string.
Qed.

(** Output that starts with an ASCII byte that is not white space and
    ends with NUL is returned as it is. *)
Lemma TrimSpace_z_join f g x entry entries :
  Go.isASCII x = true → asciiSpace x = false →
  TrimSpace f g (z_join (String x entry :: entries))
  = z_join (String x entry :: entries).
Proof.
  intros Hascii Hspace.
  destruct (z_join_ends_NUL (String x entry) entries) as [body Hbody].
  assert (Hhead : ∃ rest, list_ascii_of_string (z_join (String x entry :: entries))
                          = x :: rest).
  { rewrite list_of_z_join. cbn. by eexists. }
  destruct Hhead as [rest Hlist].
  destruct (TrimSpace_from_kept f g _ x rest Hlist Hascii Hspace) as [H1 H2].
  { exists body. by rewrite <- Hlist. }
  unfold TrimSpace. rewrite Hlist, H1.
  by destruct (trim_stop g (rev (x :: rest))).
Qed.

(** A leading space is trimmed away, and with it the index status of the
    first entry. *)
Lemma TrimSpace_leading_space f g y entry entries :
  Go.isASCII y = true → asciiSpace y = false →
  TrimSpace f g (z_join (String " " (String y entry) :: entries))
  = z_join (String y entry :: entries).
Proof.
  intros Hascii Hspace.
  destruct (z_join_ends_NUL (String y entry) entries) as [body Hbody].
  assert (Hhead : ∃ rest, list_ascii_of_string (z_join (String y entry :: entries))
                          = y :: rest
                          ∧ list_ascii_of_string
                              (z_join (String " " (String y entry) :: entries))
                            = " "%char :: y :: rest).
  { rewrite !list_of_z_join. cbn. by eexists. }
  destruct Hhead as (rest & Hlist & Hspaced).
  destruct (TrimSpace_from_kept f g _ y rest Hlist Hascii Hspace) as [H1 H2].
  { exists body. by rewrite <- Hlist. }
  assert (Hskip : trim_start f (" "%char :: y :: rest) = trim_start f (y :: rest))
    by reflexivity.
  unfold TrimSpace. rewrite Hspaced, Hskip, H1.
  by destruct (trim_stop g (rev (y :: rest))).
Qed.

(** *** Reading git's output back *)

Definition well_formed (c : Change) : Prop :=
  index_status c ≠ NUL ∧ worktree_status c ≠ NUL
  ∧ NUL_free (path c) ∧ NUL_free (old_path c).

Lemma entries_of_NUL_free c :
  well_formed c → Forall NUL_free (entries_of c).
Proof.
  intros (HX & HY & Hp & Ho). unfold entries_of.
  assert (He : NUL_free (entry_of c)).
  { unfold NUL_free, entry_of. cbn. rewrite !not_elem_of_cons.
    repeat split; try done. }
  destruct (has_source c); by repeat constructor.
Qed.

Lemma z_join_not_empty x entry entries :
  String.eqb (z_join (String x entry :: entries)) "" = false.
Proof.
  apply String.eqb_neq. intros Heq.
  apply (f_equal list_ascii_of_string) in Heq.
  rewrite list_of_z_join in Heq. by cbn in Heq.
Qed.

(** X14. Round trip through the porcelain format. For changes none of
    which is a copy, whose status bytes and paths contain no NUL, and
    whose first index status is an ASCII byte other than white space,
    printing them as [git status --porcelain -z] does (status bytes,
    space, path, NUL, and for a rename the old path and NUL) and passing
    the text through [runGitCommand]'s [TrimSpace] and the parsing loop
    gives back exactly the lists for those changes, in order: the old
    path of a rename is never read as an entry of its own. (The source
    path git prints after a copy is not skipped by the loop, so copies
    are left out.) *)
Theorem porcelain_round_trip
        (TrimFunc_IsSpace TrimRightFunc_IsSpace : string → string)
        (changes : list Change) :
  Forall well_formed changes →
  Forall (λ c, is_copy c = false) changes →
  (∀ c rest, changes = c :: rest →
     Go.isASCII (index_status c) = true ∧ asciiSpace (index_status c) = false) →
  parse_porcelain (TrimSpace TrimFunc_IsSpace TrimRightFunc_IsSpace
                             (stdout_of changes))
  = expected changes.
Proof.
  intros Hwf Hcopy Hfirst. destruct changes as [|c rest]; [done|].
  destruct (Hfirst c rest eq_refl) as [Hascii Hspace].
  assert (Hfree : Forall NUL_free (flat_map entries_of (c :: rest))).
  { apply Forall_flat_map. eapply Forall_impl; [exact Hwf|].
    intros c' Hc'. by apply entries_of_NUL_free. }
  unfold stdout_of in *. cbn [flat_map] in *. unfold entries_of at 1 in Hfree.
  unfold entries_of at 1. unfold entry_of at 1 in Hfree. unfold entry_of at 1.
  cbn [app] in *. rewrite TrimSpace_z_join by done.
  unfold parse_porcelain. rewrite z_join_not_empty, Split_z_join by done.
  change (String (index_status c)
            (String (worktree_status c) (String " " (path c)))
          :: (if has_source c then [old_path c] else []) ++ flat_map entries_of rest)
    with (flat_map entries_of (c :: rest)).
  by apply parse_printed.
Qed.

(** An entry that is not a rename: two status bytes, any third byte,
    the path. *)
Lemma parse_entry_plain X Y third file_path rest lists :
  Ascii.eqb X "R" || Ascii.eqb Y "R" = false →
  parse_entries (String X (String Y (String third file_path)) :: rest) lists
  = parse_entries rest
      (record_entry X Y {| Path := file_path; Status := ""; OldPath := ""; Diff := "" |}
                    lists).
Proof.
  intros Hplain. cbn [parse_entries].
  change (String.length (String X (String Y (String third file_path))) <? 3)
    with false.
  change (byte_at (String X (String Y (String third file_path))) 0) with X.
  change (byte_at (String X (String Y (String third file_path))) 1) with Y.
  rewrite Hplain.
  replace (String.substring 3 _ _) with file_path; [done|].
  simpl. by rewrite Nat.sub_0_r, substring_whole.
Qed.

(** X15. The leading space is lost. When the first entry of the output
    has a space as its index status (a change in the work tree only,
    [" M path"] or [" D path"]), [TrimSpace] removes that space and the
    entry is read one byte off: the file is reported as staged, not as
    unstaged, and under its path without the first byte. The entries
    after it are read as usual. *)
Theorem leading_space_misreads_first_entry
        (TrimFunc_IsSpace TrimRightFunc_IsSpace : string → string)
        (y c : ascii) (p : string) (entries : list string) :
  y = "M"%char ∨ y = "D"%char →
  NUL_free (String c p) →
  Forall NUL_free entries →
  parse_porcelain
    (TrimSpace TrimFunc_IsSpace TrimRightFunc_IsSpace
       (z_join (String " " (String y (String " " (String c p))) :: entries)))
  = append_lists
      {| Staged := [ {| Path := p;
                        Status := if Ascii.eqb y "M" then "modified" else "deleted";
                        OldPath := ""; Diff := "" |} ];
         Unstaged := []; Untracked := [] |}
      (parse_entries (entries ++ [""]) no_files)
  ∧ expected [ {| index_status := " "; worktree_status := y;
                  path := String c p; old_path := "" |} ]
    = {| Staged := [];
         Unstaged := [ {| Path := String c p;
                          Status := if Ascii.eqb y "M" then "modified" else "deleted";
                          OldPath := ""; Diff := "" |} ];
         Untracked := [] |}.
Proof.
  intros Hy Hp Hfree. split; [|by destruct Hy as [->| ->]].
  assert (Hascii : Go.isASCII y = true ∧ asciiSpace y = false ∧ y ≠ NUL)
    by (by destruct Hy as [->| ->]).
  destruct Hascii as (Hascii & Hspace & HyN).
  rewrite TrimSpace_leading_space by done.
  unfold parse_porcelain. rewrite z_join_not_empty.
  rewrite Split_z_join.
  - cbn [app]. rewrite parse_entry_plain by (by destruct Hy as [->| ->]).
    rewrite parse_entries_acc. f_equal.
    destruct Hy as [->| ->]; reflexivity.
  - constructor; [|done]. unfold NUL_free in Hp |- *. cbn in Hp |- *.
    apply not_elem_of_cons in Hp as [Hc Hp].
    rewrite !not_elem_of_cons. split; [congruence|]. split; [done|]. by split.
Qed.

(** *** What the lists always satisfy *)

(** Lists that [n] entries can have produced. *)
Definition consistent (n : nat) (lists : FileLists) : Prop :=
  Forall (λ file, Status file = "untracked") (Untracked lists)
  ∧ Forall (λ file, Status file ∈ ["added"; "modified"; "deleted"; "renamed"; "copied"; ""])
           (Staged lists)
  ∧ Forall (λ file, Status file ∈ ["modified"; "deleted"; "renamed"; ""])
           (Unstaged lists)
  ∧ length (Staged lists) + length (Untracked lists) ≤ n
  ∧ length (Unstaged lists) + length (Untracked lists) ≤ n.

Lemma consistent_append n m a b :
  consistent n a → consistent m b → consistent (n + m) (append_lists a b).
Proof.
  intros (A1 & A2 & A3 & A4 & A5) (B1 & B2 & B3 & B4 & B5).
  unfold consistent, append_lists. cbn. rewrite !length_app.
  repeat split; try (by apply Forall_app); lia.
Qed.

Lemma consistent_mono n m lists : n ≤ m → consistent n lists → consistent m lists.
Proof.
  intros Hle (A1 & A2 & A3 & A4 & A5). unfold consistent.
  repeat split; try done; lia.
Qed.

Ltac status_listed :=
  cbn [with_status Status];
  repeat first [apply list_elem_of_here | apply list_elem_of_further].

Lemma staged_status_listed X file :
  Status file = "" ∨ Status file = "renamed" →
  Status (if Ascii.eqb X "A" then with_status file "added"
          else if Ascii.eqb X "M" then with_status file "modified"
          else if Ascii.eqb X "D" then with_status file "deleted"
          else if Ascii.eqb X "R" then with_status file "renamed"
          else if Ascii.eqb X "C" then with_status file "copied"
          else file)
  ∈ ["added"; "modified"; "deleted"; "renamed"; "copied"; ""].
Proof.
  intros Hs.
  destruct (Ascii.eqb X "A"); [status_listed|].
  destruct (Ascii.eqb X "M"); [status_listed|].
  destruct (Ascii.eqb X "D"); [status_listed|].
  destruct (Ascii.eqb X "R"); [status_listed|].
  destruct (Ascii.eqb X "C"); [status_listed|].
  destruct Hs as [-> | ->]; status_listed.
Qed.

Lemma unstaged_status_listed Y file :
  Status file = "" ∨ Status file = "renamed" →
  Status (if Ascii.eqb Y "M" then with_status file "modified"
          else if Ascii.eqb Y "D" then with_status file "deleted"
          else file)
  ∈ ["modified"; "deleted"; "renamed"; ""].
Proof.
  intros Hs.
  destruct (Ascii.eqb Y "M"); [status_listed|].
  destruct (Ascii.eqb Y "D"); [status_listed|].
  destruct Hs as [-> | ->]; status_listed.
Qed.

Lemma consistent_record X Y file :
  Status file = "" ∨ Status file = "renamed" →
  consistent 1 (record_entry X Y file no_files).
Proof.
  intros Hs. unfold consistent, record_entry.
  pose proof (staged_status_listed X file Hs) as Hst.
  pose proof (unstaged_status_listed Y file Hs) as Hun.
  cbn [Staged Unstaged Untracked no_files app].
  destruct (Ascii.eqb X "?") eqn:HXq; destruct (Ascii.eqb X " ") eqn:HXs;
    destruct (Ascii.eqb Y "?") eqn:HYq; destruct (Ascii.eqb Y " ") eqn:HYs;
    cbn [negb andb length app];
    repeat split; try lia; try (by repeat constructor);
    try (constructor; [exact Hst | constructor]);
    try (constructor; [exact Hun | constructor]).
Qed.

Lemma parse_entries_consistent_bounded n : ∀ entries,
  length entries ≤ n → consistent (length entries) (parse_entries entries no_files).
Proof.
  induction n as [|n IH]; intros [|entry rest] Hn.
  - repeat split; try constructor; cbn; lia.
  - cbn in Hn. lia.
  - repeat split; try constructor; cbn; lia.
  - cbn [length] in Hn |- *. cbn [parse_entries].
    destruct (String.length entry <? 3).
    { apply (consistent_mono (length rest)); [lia|]. apply IH. lia. }
    destruct (Ascii.eqb (byte_at entry 0) "R" || Ascii.eqb (byte_at entry 1) "R").
    + destruct rest as [|old rest'].
      * apply consistent_record. by right.
      * rewrite parse_entries_acc. cbn [length] in Hn |- *.
        apply (consistent_mono (1 + length rest')); [lia|].
        apply consistent_append; [apply consistent_record; by right|].
        apply IH. lia.
    + rewrite parse_entries_acc. apply (consistent_append 1).
      * apply consistent_record. by left.
      * apply IH. lia.
Qed.

(** X16. Whatever the output, the lists the parsing loop builds are
    consistent: every untracked file has status untracked; a staged
    file's status is added, modified, deleted, renamed or copied, or is
    empty when its index status is another letter; an unstaged file's
    status is modified or deleted, renamed for a rename, or empty; and
    since an entry is never both untracked and staged or unstaged, the
    staged and untracked files together, like the unstaged and untracked
    ones, are no more than the entries. *)
Theorem parsed_lists_are_consistent (output : string) :
  consistent (length (Split output NUL)) (parse_porcelain output).
Proof.
  unfold parse_porcelain. destruct (String.eqb output "").
  - repeat split; try constructor; cbn; lia.
  - by apply (parse_entries_consistent_bounded (length (Split output NUL))).
Qed.

End Git.

(** ** hld/api/handlers: git status and commit-message generation *)

Module GitMessage.
Import GoStrings Git.

(** [FileAction] and [ConversationContext]: context extracted from the
    conversation. *)
Record FileAction := {
  ActionPath : string;
  Action : string;
  Purpose : string;
}.

Record ConversationContext := {
  OriginalQuery : string;
  SessionSummary : string;
  UserIntents : list string;
  KeyDecisions : list string;
  FilesModified : list FileAction;
  IssueReferences : list string;
  ChangeType : string;
  Scope : string;
}.

(** [GenerateCommitMessageRequest]; the context is a pointer, nil when
    the body has none. *)
Record GenerateCommitMessageRequest := {
  RequestContext : option ConversationContext;
  IncludeUntracked : bool;
}.

(** [CommitSuggestion] represents the AI-generated commit suggestion. *)
Record CommitSuggestion := {
  SuggestionType : string;
  BranchName : string;
  SuggestedCommits : list CommitMessage;
  Reasoning : string;
}.

Record GitContext := {
  RecentCommits : list string;
  ChangedFileCount : Z;
  AdditionsCount : Z;
  DeletionsCount : Z;
}.

Record GenerateCommitMessageResponse := {
  Suggestion : CommitSuggestion;
  ResponseGitContext : GitContext;
}.

(** The request [generateWithClaude] sends and what comes back: the
    status code and the body as [io.ReadAll] returns it. *)
Record Message := {
  role : string;
  content : string;
}.

Record Payload := {
  model : string;
  max_tokens : Z;
  system : string;
  messages : list Message;
}.

Record Request := {
  Method : string;
  URL : string;
  Header : list (string * string);
  RequestBody : string;
}.

Record Response := {
  StatusCode : Z;
  ResponseBody : result string;
}.

(** One element of the [content] array of the API's answer. *)
Record Content := {
  ContentType : string;
  Text : string;
}.

(** What a handler writes: an error object with its status code, or the
    value with status 200. *)
Inductive Reply (A : Type) :=
| ReplyError (code : Z) (error : string)
| ReplyOK (value : A).
Arguments ReplyError {A} code error.
Arguments ReplyOK {A} value.

Definition DQ : ascii := "034"%char.

Definition quoted (s : string) : string := String DQ s +:+ String DQ "".

Definition nl : string := String LF "".

(** The raw string at the end of [buildCommitMessagePrompt], line by
    line. *)
Definition instructions : string :=
  String.concat nl
    [ "";
      "";
      "## Instructions";
      "Generate a commit message that captures not just WHAT changed, but WHY it changed.";
      "";
      "1. Subject line (~50 chars, imperative mood, capitalized, no period):";
      "   - Use type prefix: feat/fix/docs/style/refactor/test/chore";
      "   - Include scope in parentheses if clear from files";
      "   - Reflect the user's original intent";
      "";
      "2. Body (optional, wrapped at 72 chars):";
      "   - Explain the problem solved";
      "   - Briefly describe the approach";
      "";
      "3. Footer (optional):";
      "   - Include issue references if found";
      "   - Note breaking changes";
      "";
      "4. Determine if changes should be:";
      "   - " +:+ quoted "single" +:+ ": Related changes with single intent";
      "   - " +:+ quoted "multiple" +:+ ": Multiple distinct tasks";
      "   - " +:+ quoted "branch" +:+ ": Major feature or breaking changes";
      "";
      "Respond ONLY with valid JSON (no markdown code blocks):";
      "{";
      "  " +:+ quoted "type" +:+ ": " +:+ quoted "single" +:+ ",";
      "  " +:+ quoted "branchName" +:+ ": " +:+ quoted "" +:+ ",";
      "  " +:+ quoted "reasoning" +:+ ": " +:+ quoted "Brief explanation" +:+ ",";
      "  " +:+ quoted "commits" +:+ ": [";
      "    {";
      "      " +:+ quoted "subject" +:+ ": " +:+ quoted "type(scope): description" +:+ ",";
      "      " +:+ quoted "body" +:+ ": " +:+ quoted "Optional longer description" +:+ ",";
      "      " +:+ quoted "footer" +:+ ": " +:+ quoted "Closes #123" +:+ ",";
      "      " +:+ quoted "files" +:+ ": [" +:+ quoted "file1.ts" +:+ ", "
        +:+ quoted "file2.ts" +:+ "]";
      "    }";
      "  ]";
      "}" ].

(** The loops that write one ["- %s\n"] per item. *)
Definition bullets (items : list string) : string :=
  String.concat "" (map (λ item, "- " +:+ item +:+ nl) items).

Definition file_bullet (f : FileAction) : string :=
  "- " +:+ ActionPath f +:+ " (" +:+ Action f +:+ ")"
  +:+ (if negb (String.eqb (Purpose f) "") then ": " +:+ Purpose f
       else "")
  +:+ nl.

Definition session_context (ctx : ConversationContext) : string :=
  "## Session Intent" +:+ nl
  +:+ "Original Request: " +:+ OriginalQuery ctx +:+ nl
  +:+ (if negb (String.eqb (SessionSummary ctx) "")
       then "Session Summary: " +:+ SessionSummary ctx +:+ nl else "")
  +:+ (if 0 <? length (KeyDecisions ctx)
       then nl +:+ "## Key Decisions Made" +:+ nl +:+ bullets (KeyDecisions ctx)
       else "")
  +:+ (if 0 <? length (UserIntents ctx)
       then nl +:+ "## User Feedback During Session" +:+ nl
            +:+ bullets (UserIntents ctx)
       else "")
  +:+ (if 0 <? length (FilesModified ctx)
       then nl +:+ "## Files Changed (with purpose)" +:+ nl
            +:+ String.concat "" (map file_bullet (FilesModified ctx))
       else "")
  +:+ (if 0 <? length (IssueReferences ctx)
       then nl +:+ "## Issue References Found" +:+ nl
            +:+ String.concat ", " (IssueReferences ctx) +:+ nl
       else "").

Definition buildCommitMessagePrompt (ctx : option ConversationContext)
           (status : GitStatusResponse) (diff : string)
           (recentCommits : list string) : string :=
  "Generate a commit message for the following changes. "
  +:+ "You have access to the conversation context from the AI coding session that produced these changes."
  +:+ nl +:+ nl
  +:+ match ctx with
      | Some ctx => session_context ctx
      | None => ""
      end
  +:+ nl +:+ "## Git Status" +:+ nl
  +:+ "Branch: " +:+ Branch status +:+ nl
  +:+ "Staged: " +:+ pretty (length (Staged (Files status))) +:+ " files" +:+ nl
  +:+ "Unstaged: " +:+ pretty (length (Unstaged (Files status))) +:+ " files" +:+ nl
  +:+ "Untracked: " +:+ pretty (length (Untracked (Files status))) +:+ " files" +:+ nl
  +:+ nl +:+ "## Git Diff Summary" +:+ nl
  +:+ diff
  +:+ (if 0 <? length recentCommits
       then nl +:+ nl +:+ "## Recent Commits (for style consistency)" +:+ nl
            +:+ bullets recentCommits
       else "")
  +:+ instructions.

(** "Extract text": the text of the first content of type text. *)
Fixpoint first_text (contents : list Content) : string :=
  match contents with
  | [] => ""
  | c :: rest =>
      if String.eqb (ContentType c) "text" then Text c else first_text rest
  end.

Definition fence : string := "```".
Definition json_fence : string := "```json".

Definition api_url : string := "https://api.anthropic.com/v1/messages".

(** The suggestion returned when the answer cannot be parsed. *)
Definition default_suggestion : CommitSuggestion :=
  {| SuggestionType := "single";
     BranchName := "";
     SuggestedCommits :=
       [ {| Subject := "chore: Update files"; Body := "";
            Footer := ""; CommitFiles := [] |} ];
     Reasoning := "Failed to parse AI response, using default" |}.

Definition truncated_mark : string := nl +:+ "... (truncated)".

(** The git commands that only read the repository. *)
Definition is_query (args : list string) : bool :=
  match args with
  | [] => false
  | command :: _ =>
      bool_decide (command ∈ ["rev-parse"; "rev-list"; "status"; "diff"; "log"])
  end.

(** Every command of [getGitStatus], [getGitDiff] and
    [getRecentCommits 5], in the order in which they can run. *)
Definition read_commands : list (list string) :=
  [ ["rev-parse"; "--abbrev-ref"; "HEAD"];
    ["rev-parse"; "--abbrev-ref"; "@{upstream}"];
    ["rev-list"; "--count"; "@{upstream}..HEAD"];
    ["rev-list"; "--count"; "HEAD..@{upstream}"];
    ["status"; "--porcelain"; "-z"];
    ["diff"; "--stat"; "HEAD"];
    ["diff"; "--numstat"; "HEAD"];
    ["log"; "-5"; "--pretty=format:%s"] ].

Definition status_commands : list (list string) := take 5 read_commands.

(** A text of ASCII white space only. *)
Definition blank (ws : string) : bool :=
  forallb asciiSpace (list_ascii_of_string ws).

(** The object with white space around it and the closing fence after
    it: what is left once the opening fence is removed. *)
Definition before_closing_fence (ws1 ws2 mid : string) : string :=
  ws1 +:+ String "{" (mid +:+ String "}" (ws2 +:+ fence)).

Section Handler.

Variable Repo : Type.
Variable exec : Repo → string → list string → Finished * Repo.
Variable TrimFunc_IsSpace : string → string.
Variable TrimRightFunc_IsSpace : string → string.
Variable Sscanf_d : string → Z → Z.
Variable FieldsFunc_IsSpace : string → list string.
(** [os.Stat]: whether the path is a directory, [None] on error; and
    [filepath.Join]. *)
Variable Stat : string → option bool.
Variable filepath_Join : string → string → string.
(** [os.Getenv]. *)
Variable Getenv : string → string.
(** [json.Marshal] of the payload, and [json.Unmarshal] into the
    answer's [content] and into a [CommitSuggestion]. *)
Variable json_Marshal : Payload → result string.
Variable Unmarshal_content : string → result (list Content).
Variable Unmarshal_suggestion : string → result CommitSuggestion.
(** The error of [http.NewRequestWithContext] for a method and a URL,
    if any, and [httpClient.Do]. *)
Variable NewRequest_error : string → string → option string.
Variable Do : Request → result Response.

Local Abbreviation Git := (Git.Git Repo).
Local Abbreviation runGitCommand :=
  (Git.runGitCommand Repo exec TrimFunc_IsSpace TrimRightFunc_IsSpace).
Local Abbreviation getGitStatus :=
  (Git.getGitStatus Repo exec TrimFunc_IsSpace TrimRightFunc_IsSpace Sscanf_d).
Local Abbreviation TrimSpace :=
  (GoStrings.TrimSpace TrimFunc_IsSpace TrimRightFunc_IsSpace).
Local Abbreviation Fields := (GoStrings.Fields FieldsFunc_IsSpace).
Local Abbreviation ran := (Git.ran Repo).
Local Abbreviation runGitCommand_ran :=
  (Git.runGitCommand_ran Repo exec TrimFunc_IsSpace TrimRightFunc_IsSpace).

Definition isGitRepo (dir : string) : bool :=
  match Stat (filepath_Join dir ".git") with
  | None => false
  | Some isDir => isDir
  end.

(** "Get line counts": one line of [git diff --numstat]. *)
Definition count_line (counts : Z * Z) (line : string) : Z * Z :=
  match Fields line with
  | a :: d :: _ =>
      (EphemeralChat.wrap64 (counts.1 + Sscanf_d a 0),
       EphemeralChat.wrap64 (counts.2 + Sscanf_d d 0))
  | _ => counts
  end.

(** "Truncate diff if too long". *)
Definition truncate (diff : string) : string :=
  if 5000 <? String.length diff
  then String.substring 0 5000 diff +:+ truncated_mark
  else diff.

Definition getGitDiff (g : Git) (dir : string) : (string * Z * Z) * Git :=
  let '(diff, g) := runGitCommand g dir ["diff"; "--stat"; "HEAD"] in
  let '(addDel, g) := runGitCommand g dir ["diff"; "--numstat"; "HEAD"] in
  let counts := fold_left count_line (Split (text_of addDel) LF) (0%Z, 0%Z) in
  ((truncate (text_of diff), counts.1, counts.2), g).

Definition getRecentCommits (g : Git) (dir : string) (count : Z)
  : list string * Git :=
  match runGitCommand g dir ["log"; "-" +:+ pretty count; "--pretty=format:%s"] with
  | (Err _, g) => ([], g)
  | (Ok output, g) =>
      if String.eqb output "" then ([], g) else (Split output LF, g)
  end.

(** "Clean up response (remove markdown code blocks if present)". *)
Definition clean_up (text : string) : string :=
  let text := TrimSpace text in
  let text := TrimPrefix text json_fence in
  let text := TrimPrefix text fence in
  let text := TrimSuffix text fence in
  TrimSpace text.

Definition api_payload (prompt : string) : Payload :=
  {| model := "claude-sonnet-4-20250514";
     max_tokens := 2048;
     system := "You are a git commit message generator. Generate clear, conventional commit messages.";
     messages := [ {| role := "user"; content := prompt |} ] |}.

Definition api_request (apiKey payloadBytes : string) : Request :=
  {| Method := "POST"; URL := api_url;
     Header := [ ("Content-Type", "application/json");
                 ("x-api-key", apiKey);
                 ("anthropic-version", "2023-06-01") ];
     RequestBody := payloadBytes |}.

(** [generateWithClaude]: the suggestion or the error, and the requests
    sent. *)
Definition generateWithClaude (prompt : string)
  : result CommitSuggestion * list Request :=
  let apiKey := Getenv "ANTHROPIC_API_KEY" in
  if String.eqb apiKey "" then (Err "ANTHROPIC_API_KEY not configured", [])
  else
    match json_Marshal (api_payload prompt) with
    | Err err => (Err ("failed to marshal request: " +:+ err), [])
    | Ok payloadBytes =>
        match NewRequest_error "POST" api_url with
        | Some err => (Err ("failed to create request: " +:+ err), [])
        | None =>
            let req := api_request apiKey payloadBytes in
            match Do req with
            | Err err => (Err ("API request failed: " +:+ err), [req])
            | Ok resp =>
                match ResponseBody resp with
                | Err err => (Err ("failed to read response: " +:+ err), [req])
                | Ok respBody =>
                    if negb (StatusCode resp =? 200)%Z then
                      (Err ("API returned status " +:+ pretty (StatusCode resp)), [req])
                    else
                      match Unmarshal_content respBody with
                      | Err err => (Err ("failed to parse response: " +:+ err), [req])
                      | Ok contents =>
                          let text := clean_up (first_text contents) in
                          match Unmarshal_suggestion text with
                          | Err _ => (Ok default_suggestion, [req])
                          | Ok suggestion => (Ok suggestion, [req])
                          end
                      end
                end
            end
        end
    end.

(** [HandleGetGitStatus] returns git status for a session's working
    directory. *)
Definition HandleGetGitStatus (store : EphemeralChat.ConversationStore)
           (g : Git) (sessionID : string) : Reply GitStatusResponse * Git :=
  match EphemeralChat.GetSession store sessionID with
  | Err _ => (ReplyError 404 "Session not found", g)
  | Ok session =>
      let dir := EphemeralChat.WorkingDir session in
      if String.eqb dir "" then
        (ReplyError 400 "Session has no working directory", g)
      else if negb (isGitRepo dir) then (ReplyError 400 "Not a git repository", g)
      else
        match getGitStatus g dir with
        | (Err _, g) => (ReplyError 500 "Failed to get git status", g)
        | (Ok status, g) => (ReplyOK status, g)
        end
  end.

Definition changed_files (status : GitStatusResponse) : nat :=
  length (Staged (Files status)) + length (Unstaged (Files status))
  + length (Untracked (Files status)).

(** [HandleGenerateCommitMessage] generates a commit message using
    Claude; [body] is the request as [ShouldBindJSON] parsed it. The
    result holds the reply, the repository and the requests sent. *)
Definition HandleGenerateCommitMessage (store : EphemeralChat.ConversationStore)
           (g : Git) (sessionID : string)
           (body : option GenerateCommitMessageRequest)
  : Reply GenerateCommitMessageResponse * Git * list Request :=
  match body with
  | None => (ReplyError 400 "Invalid request body", g, [])
  | Some req =>
      match EphemeralChat.GetSession store sessionID with
      | Err _ => (ReplyError 404 "Session not found", g, [])
      | Ok session =>
          let dir := EphemeralChat.WorkingDir session in
          if String.eqb dir "" then
            (ReplyError 400 "Session has no working directory", g, [])
          else
            match getGitStatus g dir with
            | (Err _, g) => (ReplyError 500 "Failed to get git status", g, [])
            | (Ok status, g) =>
                if negb (HasChanges status) then
                  (ReplyError 400 "No changes to commit", g, [])
                else
                  let '(diff, additions, deletions, g) := getGitDiff g dir in
                  let '(recentCommits, g) := getRecentCommits g dir 5 in
                  let prompt :=
                    buildCommitMessagePrompt (RequestContext req) status diff
                                             recentCommits in
                  match generateWithClaude prompt with
                  | (Err _, sent) =>
                      (ReplyError 500 "Failed to generate commit message", g, sent)
                  | (Ok suggestion, sent) =>
                      (ReplyOK
                         {| Suggestion := suggestion;
                            ResponseGitContext :=
                              {| RecentCommits := recentCommits;
                                 ChangedFileCount := Z.of_nat (changed_files status);
                                 AdditionsCount := additions;
                                 DeletionsCount := deletions |} |},
                       g, sent)
                  end
            end
      end
  end.

(** A command that succeeds, or fails, in a directory whatever the
    state of the repository. *)
Definition succeeds (dir : string) (args : list string) : Prop :=
  ∀ repo, failed (exec repo dir args).1 = None.

Definition fails (dir : string) (args : list string) : Prop :=
  ∀ repo, failed (exec repo dir args).1 ≠ None.

(** *** The commands the two reading handlers run *)

Ltac in_order :=
  repeat first [apply sublist_nil | apply sublist_skip | apply sublist_cons].

(** [getGitStatus] runs [rev-parse HEAD] and stops if it fails; else it
    asks for the upstream, counts ahead and behind when there is one,
    and runs [status]. *)
Lemma getGitStatus_ran g dir :
  ∃ cmds,
    ran (getGitStatus g dir).2 = ran g ++ cmds
    ∧ cmds `sublist_of` status_commands
    ∧ ∀ status, (getGitStatus g dir).1 = Ok status →
        last cmds = Some ["status"; "--porcelain"; "-z"].
Proof.
  unfold Git.getGitStatus.
  pose proof (runGitCommand_ran g dir ["rev-parse"; "--abbrev-ref"; "HEAD"]) as H1.
  destruct (runGitCommand g dir _) as [[branch|err] g1]; cbn in H1.
  2: { exists [ ["rev-parse"; "--abbrev-ref"; "HEAD"] ]. cbn.
       split; [done|]. split; [unfold status_commands; cbn; in_order|done]. }
  pose proof (runGitCommand_ran g1 dir ["rev-parse"; "--abbrev-ref"; "@{upstream}"])
    as H2.
  destruct (runGitCommand g1 dir _) as [upstream g2]; cbn in H2.
  destruct (negb (String.eqb (text_of upstream) "")).
  - pose proof (runGitCommand_ran g2 dir ["rev-list"; "--count"; "@{upstream}..HEAD"])
      as H3.
    destruct (runGitCommand g2 dir _) as [ahead g3]; cbn in H3.
    pose proof (runGitCommand_ran g3 dir ["rev-list"; "--count"; "HEAD..@{upstream}"])
      as H4.
    destruct (runGitCommand g3 dir _) as [behind g4]; cbn in H4.
    pose proof (runGitCommand_ran g4 dir ["status"; "--porcelain"; "-z"]) as H5.
    exists status_commands.
    destruct (runGitCommand g4 dir _) as [[output|err] g5]; cbn in H5 |- *;
      rewrite H5, H4, H3, H2, H1, <- !app_assoc; by repeat split.
  - pose proof (runGitCommand_ran g2 dir ["status"; "--porcelain"; "-z"]) as H5.
    exists [ ["rev-parse"; "--abbrev-ref"; "HEAD"];
             ["rev-parse"; "--abbrev-ref"; "@{upstream}"];
             ["status"; "--porcelain"; "-z"] ].
    destruct (runGitCommand g2 dir _) as [[output|err] g5]; cbn in H5 |- *;
      rewrite H5, H2, H1, <- !app_assoc; (split; [done|]); (split; [unfold status_commands; cbn; in_order|done]).
Qed.

Lemma getGitDiff_ran g dir :
  ran (getGitDiff g dir).2
  = ran g ++ [ ["diff"; "--stat"; "HEAD"]; ["diff"; "--numstat"; "HEAD"] ].
Proof.
  unfold getGitDiff.
  pose proof (runGitCommand_ran g dir ["diff"; "--stat"; "HEAD"]) as H1.
  destruct (runGitCommand g dir _) as [diff g1]; cbn in H1.
  pose proof (runGitCommand_ran g1 dir ["diff"; "--numstat"; "HEAD"]) as H2.
  destruct (runGitCommand g1 dir _) as [addDel g2]; cbn in H2 |- *.
  by rewrite H2, H1, <- app_assoc.
Qed.

Lemma getRecentCommits_ran g dir count :
  ran (getRecentCommits g dir count).2
  = ran g ++ [ ["log"; "-" +:+ pretty count; "--pretty=format:%s"] ].
Proof.
  unfold getRecentCommits.
  pose proof (runGitCommand_ran g dir ["log"; "-" +:+ pretty count; "--pretty=format:%s"])
    as H1.
  destruct (runGitCommand g dir _) as [[output|err] g1]; cbn in H1 |- *; [|done].
  by destruct (String.eqb output "").
Qed.

(** The commands a request for a commit message runs, given those
    [getGitStatus] ran. *)
Lemma sublist_of_reads cmds later :
  cmds `sublist_of` status_commands →
  later `sublist_of` drop 5 read_commands →
  cmds ++ later `sublist_of` read_commands.
Proof.
  intros H1 H2. rewrite <- (take_drop 5 read_commands). by apply sublist_app.
Qed.

Lemma read_commands_query : Forall (λ args, is_query args = true) read_commands.
Proof. by repeat constructor. Qed.

Lemma Forall_sublist {A} (P : A → Prop) (l k : list A) :
  l `sublist_of` k → Forall P k → Forall P l.
Proof. induction 1; intros HF; [done| |]; inversion_clear HF; auto. Qed.

Lemma sublist_query cmds :
  cmds `sublist_of` read_commands → Forall (λ args, is_query args = true) cmds.
Proof. intros H. eapply Forall_sublist; [exact H|apply read_commands_query]. Qed.

Lemma status_commands_read cmds :
  cmds `sublist_of` status_commands → cmds `sublist_of` read_commands.
Proof.
  intros H. rewrite <- (app_nil_r cmds). apply sublist_of_reads; [done|].
  apply sublist_nil_l.
Qed.

(** X17. The two reading handlers run only fixed queries. Whatever the
    request, the session and the repository, the commands that
    [HandleGetGitStatus] and [HandleGenerateCommitMessage] run are, in
    order, among the eight of [read_commands] (the first five for the
    status): each is a [rev-parse], [rev-list], [status], [diff] or
    [log] with constant arguments, so nothing of the request reaches a
    git command line and nothing is staged, committed or checked out. *)
Theorem reading_handlers_run_fixed_queries
        (store : EphemeralChat.ConversationStore) (g : Git) (sessionID : string)
        (body : option GenerateCommitMessageRequest) :
  (∃ cmds,
     ran (HandleGetGitStatus store g sessionID).2 = ran g ++ cmds
     ∧ cmds `sublist_of` status_commands
     ∧ Forall (λ args, is_query args = true) cmds)
  ∧ (∃ cmds,
       ran (HandleGenerateCommitMessage store g sessionID body).1.2 = ran g ++ cmds
       ∧ cmds `sublist_of` read_commands
       ∧ Forall (λ args, is_query args = true) cmds).
Proof.
  assert (Hnone : ∃ cmds : list (list string),
            ran g = ran g ++ cmds ∧ cmds `sublist_of` status_commands)
    by (exists []; rewrite app_nil_r; split; [done|apply sublist_nil_l]).
  split.
  - cut (∃ cmds, ran (HandleGetGitStatus store g sessionID).2 = ran g ++ cmds
                 ∧ cmds `sublist_of` status_commands).
    { intros (cmds & ? & ?). exists cmds.
      by repeat split; [..|apply sublist_query, status_commands_read]. }
    unfold HandleGetGitStatus.
    destruct (EphemeralChat.GetSession store sessionID) as [session|err]; [|done].
    destruct (String.eqb _ ""); [done|].
    destruct (negb (isGitRepo _)); [done|].
    destruct (getGitStatus_ran g (EphemeralChat.WorkingDir session))
      as (cmds & Hran & Hsub & _).
    exists cmds. by destruct (getGitStatus g _) as [[status|err] g1].
  - cut (∃ cmds,
           ran (HandleGenerateCommitMessage store g sessionID body).1.2 = ran g ++ cmds
           ∧ cmds `sublist_of` read_commands).
    { intros (cmds & ? & ?). exists cmds. by repeat split; [..|apply sublist_query]. }
    assert (Hnone' : ∃ cmds : list (list string),
              ran g = ran g ++ cmds ∧ cmds `sublist_of` read_commands).
    { destruct Hnone as (cmds & ? & ?). exists cmds.
      split; [done|by apply status_commands_read]. }
    unfold HandleGenerateCommitMessage.
    destruct body as [req|]; [|done].
    destruct (EphemeralChat.GetSession store sessionID) as [session|err]; [|done].
    destruct (String.eqb _ ""); [done|].
    destruct (getGitStatus_ran g (EphemeralChat.WorkingDir session))
      as (cmds & Hran & Hsub & _).
    destruct (getGitStatus g _) as [[status|err] g1]; cbn in Hran;
      [|exists cmds; split; [done|by apply status_commands_read]].
    destruct (negb (HasChanges status));
      [exists cmds; split; [done|by apply status_commands_read]|].
    pose proof (getGitDiff_ran g1 (EphemeralChat.WorkingDir session)) as Hdiff.
    destruct (getGitDiff g1 _) as [[[diff additions] deletions] g2]; cbn in Hdiff.
    pose proof (getRecentCommits_ran g2 (EphemeralChat.WorkingDir session) 5) as Hlog.
    destruct (getRecentCommits g2 _ 5) as [recentCommits g3]; cbn in Hlog.
    exists (cmds ++ drop 5 read_commands). split.
    + destruct (generateWithClaude _) as [[suggestion|err] sent]; cbn;
        by rewrite Hlog, Hdiff, Hran, <- !app_assoc.
    + by apply sublist_of_reads.
Qed.

Lemma getGitStatus_HasChanges g dir status :
  (getGitStatus g dir).1 = Ok status →
  HasChanges status = (0 <? changed_files status).
Proof.
  unfold Git.getGitStatus.
  destruct (runGitCommand g dir _) as [[branch|err] g1]; [|done].
  destruct (runGitCommand g1 dir _) as [upstream g2].
  destruct (negb (String.eqb (text_of upstream) "")).
  - destruct (runGitCommand g2 dir _) as [ahead g3].
    destruct (runGitCommand g3 dir _) as [behind g4].
    destruct (runGitCommand g4 dir _) as [[output|err] g5]; [|done].
    intros [= <-]. unfold changed_files, parse_porcelain, has_changes. cbn.
    destruct (String.eqb output ""); [done|].
    by destruct (Staged _), (Unstaged _), (Untracked _).
  - destruct (runGitCommand g2 dir _) as [[output|err] g5]; [|done].
    intros [= <-]. unfold changed_files, parse_porcelain, has_changes. cbn.
    destruct (String.eqb output ""); [done|].
    by destruct (Staged _), (Unstaged _), (Untracked _).
Qed.

(** What [generateWithClaude] sends: nothing, and then it fails, or one
    request with the key of the environment and the marshalled payload
    of the prompt. *)
Lemma generateWithClaude_sent prompt :
  ((generateWithClaude prompt).2 = [] ∧ ∃ err, (generateWithClaude prompt).1 = Err err)
  ∨ (Getenv "ANTHROPIC_API_KEY" ≠ ""
     ∧ ∃ payloadBytes,
         json_Marshal (api_payload prompt) = Ok payloadBytes
         ∧ (generateWithClaude prompt).2
           = [api_request (Getenv "ANTHROPIC_API_KEY") payloadBytes]).
Proof.
  unfold generateWithClaude.
  destruct (String.eqb_spec (Getenv "ANTHROPIC_API_KEY") "") as [Hkey|Hkey];
    [left; eauto|].
  destruct (json_Marshal _) as [payloadBytes|err]; [|left; eauto].
  destruct (NewRequest_error _ _) as [err|]; [left; eauto|].
  right. split; [done|]. exists payloadBytes. split; [done|].
  destruct (Do _) as [resp|err]; [|done].
  destruct (ResponseBody resp) as [respBody|err]; [|done].
  destruct (negb _); [done|].
  destruct (Unmarshal_content respBody) as [contents|err]; [|done].
  by destruct (Unmarshal_suggestion _).
Qed.

Ltac nothing_sent :=
  cbn; split; [by left|]; split; [done|]; split; [auto|done].

(** X18. The model is asked at most once, and only for changes. A
    request for a commit message sends at most one request to the API:
    a POST to the messages endpoint with the key of the environment,
    which is not empty, and the marshalled payload of a prompt. It is
    sent only after the body was parsed, the session found with a
    working directory, and [getGitStatus] succeeded and reported
    changes. A 200 reply means exactly one request was sent and counts
    at least one changed file; a 400 or 404 reply means none was. *)
Theorem model_is_asked_once_and_only_for_changes
        (store : EphemeralChat.ConversationStore) (g : Git) (sessionID : string)
        (body : option GenerateCommitMessageRequest) :
  let out := HandleGenerateCommitMessage store g sessionID body in
  let key := Getenv "ANTHROPIC_API_KEY" in
  (out.2 = []
   ∨ key ≠ ""
     ∧ ∃ prompt payloadBytes,
         json_Marshal (api_payload prompt) = Ok payloadBytes
         ∧ out.2 = [api_request key payloadBytes])
  ∧ (out.2 ≠ [] →
     ∃ req session status g1,
       body = Some req
       ∧ EphemeralChat.GetSession store sessionID = Ok session
       ∧ EphemeralChat.WorkingDir session ≠ ""
       ∧ getGitStatus g (EphemeralChat.WorkingDir session) = (Ok status, g1)
       ∧ HasChanges status = true)
  ∧ match out.1.1 with
    | ReplyOK response =>
        length out.2 = 1
        ∧ (1 ≤ ChangedFileCount (ResponseGitContext response))%Z
    | ReplyError code _ =>
        (code = 400 ∨ code = 404 ∨ code = 500)%Z
        ∧ (code ≠ 500%Z → out.2 = [])
    end.
Proof.
  cbn zeta. unfold HandleGenerateCommitMessage.
  destruct body as [req|]; [|nothing_sent].
  destruct (EphemeralChat.GetSession store sessionID) as [session|err] eqn:Hsession;
    [|nothing_sent].
  destruct (String.eqb_spec (EphemeralChat.WorkingDir session) "") as [Hdir|Hdir];
    [nothing_sent|].
  pose proof (getGitStatus_HasChanges g (EphemeralChat.WorkingDir session)) as Hchanges.
  destruct (getGitStatus g _) as [[status|err] g1] eqn:Hstatus; [|nothing_sent].
  specialize (Hchanges status eq_refl).
  destruct (HasChanges status) eqn:Hhas; [|nothing_sent]. cbn [negb].
  destruct (getGitDiff g1 _) as [[[diff additions] deletions] g2].
  destruct (getRecentCommits g2 _ 5) as [recentCommits g3].
  set (prompt := buildCommitMessagePrompt _ _ _ _).
  assert (Hcount : (1 ≤ Z.of_nat (changed_files status))%Z).
  { symmetry in Hchanges. apply Nat.ltb_lt in Hchanges. lia. }
  assert (Hcontext : ∃ req0 session0 status0 g0,
            Some req = Some req0
            ∧ Ok session = Ok session0
            ∧ EphemeralChat.WorkingDir session0 ≠ ""
            ∧ getGitStatus g (EphemeralChat.WorkingDir session0) = (Ok status0, g0)
            ∧ HasChanges status0 = true)
    by (by exists req, session, status, g1).
  destruct (generateWithClaude_sent prompt)
    as [[Hsent [err Herr]]|(Hkey & bytes & Hm & Hsent)].
  - destruct (generateWithClaude prompt) as [[suggestion|err'] sent]; cbn in *;
      [done|]. subst sent. split; [by left|]. split; [done|]. split; [auto|done].
  - destruct (generateWithClaude prompt) as [[suggestion|err'] sent]; cbn in *;
      subst sent.
    + split; [right; split; [done|by exists prompt, bytes]|]. by split.
    + split; [right; split; [done|by exists prompt, bytes]|]. split; [done|].
      split; [auto|done].
Qed.

(** *** The diff summary and the recent commits *)

Lemma truncate_bounded diff : String.length (truncate diff) ≤ 5000 + 16.
Proof.
  unfold truncate. destruct (Nat.ltb_spec 5000 (String.length diff)) as [Hlong|Hshort].
  - rewrite EphemeralChatFacts.length_append.
    pose proof (EphemeralChatFacts.length_substring_le diff 0 5000) as Hcut.
    change (String.length truncated_mark) with 16. lia.
  - lia.
Qed.

(** X19. [getGitDiff] cannot fail and always runs its two commands,
    [diff --stat HEAD] and [diff --numstat HEAD], whatever the first
    returns. The summary it returns never exceeds 5016 bytes (5000 of
    the output and the truncation mark). When git fails on both
    commands the errors are dropped: the summary is empty and both
    counts are zero. *)
Theorem diff_summary_is_bounded (g : Git) (dir : string) :
  ran (getGitDiff g dir).2
  = ran g ++ [ ["diff"; "--stat"; "HEAD"]; ["diff"; "--numstat"; "HEAD"] ]
  ∧ String.length (getGitDiff g dir).1.1.1 ≤ 5000 + 16
  ∧ (fails dir ["diff"; "--stat"; "HEAD"] →
     fails dir ["diff"; "--numstat"; "HEAD"] →
     (getGitDiff g dir).1 = ("", 0%Z, 0%Z)).
Proof.
  split; [apply getGitDiff_ran|]. split.
  - unfold getGitDiff.
    destruct (runGitCommand g dir _) as [diff g1].
    destruct (runGitCommand g1 dir _) as [addDel g2]. cbn [fst snd].
    apply truncate_bounded.
  - intros Hstat Hnumstat. unfold getGitDiff, Git.runGitCommand.
    pose proof (Hstat (repo Repo g)) as H1.
    destruct (exec (repo Repo g) dir _) as [out1 repo1]; cbn in H1.
    destruct (failed out1) as [err1|]; [|done]. cbn.
    pose proof (Hnumstat repo1) as H2.
    destruct (exec repo1 dir _) as [out2 repo2]; cbn in H2.
    by destruct (failed out2) as [err2|].
Qed.

Lemma Split_not_empty s sep : Split s sep ≠ [].
Proof.
  unfold Split. destruct (list_ascii_of_string s) as [|c r]; [done|]. cbn.
  destruct (Ascii.eqb c sep); [done|]. by destruct (split_bytes sep r).
Qed.

Lemma concat_two sep (x y : string) ys :
  String.concat sep (x :: y :: ys) = x +:+ sep +:+ String.concat sep (y :: ys).
Proof. reflexivity. Qed.

(** Joining the pieces with the separator gives the text back. *)
Lemma concat_Split s sep : String.concat (String sep "") (Split s sep) = s.
Proof.
  unfold Split. induction s as [|c s IH]; [done|].
  cbn [list_ascii_of_string split_bytes].
  pose proof (Split_not_empty s sep) as Hne. unfold Split in Hne.
  destruct (split_bytes sep (list_ascii_of_string s)) as [|piece pieces]; [done|].
  destruct (Ascii.eqb_spec c sep) as [->|Hc].
  - change (map string_of_list_ascii ([] :: piece :: pieces))
      with ("" :: map string_of_list_ascii (piece :: pieces)).
    cbn [map] in *. by rewrite concat_two, IH.
  - cbn [map string_of_list_ascii] in *.
    apply (f_equal (String c)) in IH.
    destruct pieces as [|next pieces]; exact IH.
Qed.

Lemma Split_pieces_free s sep :
  Forall (λ piece, sep ∉ list_ascii_of_string piece) (Split s sep).
Proof.
  unfold Split. induction (list_ascii_of_string s) as [|c r IH]; cbn.
  - repeat constructor. cbn. apply not_elem_of_nil.
  - destruct (Ascii.eqb_spec c sep) as [->|Hc].
    + constructor; [apply not_elem_of_nil|done].
    + destruct (split_bytes sep r) as [|piece pieces]; cbn in *.
      * repeat constructor. cbn. rewrite list_elem_of_singleton. congruence.
      * inversion_clear IH as [|? ? Hpiece Hrest]. constructor; [|done].
        cbn. rewrite list_ascii_of_string_of_list_ascii in *.
        rewrite not_elem_of_cons. split; [congruence|done].
Qed.

(** X20. The recent commits are the lines of the log. [getRecentCommits]
    runs the one command [log -<count> --pretty=format:%s]; the subjects
    it returns, joined by line feeds, are exactly the trimmed output of
    that command, taken as empty when it failed; no subject contains a
    line feed; and the list is empty exactly when that output is, never
    a list holding one empty subject. *)
Theorem recent_commits_are_the_log_lines (g : Git) (dir : string) (count : Z) :
  let log := runGitCommand g dir ["log"; "-" +:+ pretty count; "--pretty=format:%s"] in
  (getRecentCommits g dir count).2 = log.2
  ∧ String.concat nl (getRecentCommits g dir count).1 = text_of log.1
  ∧ Forall (λ subject, LF ∉ list_ascii_of_string subject)
           (getRecentCommits g dir count).1
  ∧ ((getRecentCommits g dir count).1 = [] ↔ text_of log.1 = "").
Proof.
  cbn zeta. unfold getRecentCommits.
  destruct (runGitCommand g dir _) as [[output|err] g1]; cbn [fst snd text_of];
    [|by repeat split].
  destruct (String.eqb_spec output "") as [->|Hout]; cbn [fst snd];
    [by repeat split|].
  split; [done|]. split; [apply concat_Split|]. split; [apply Split_pieces_free|].
  split; [intros H; by apply Split_not_empty in H|done].
Qed.

(** *** Unwrapping a fenced answer *)

Lemma asciiSpace_ascii c : asciiSpace c = true → Go.isASCII c = true.
Proof.
  unfold asciiSpace, Go.isASCII. cbn zeta. intros H. apply N.ltb_lt.
  apply orb_true_iff in H as [H|H].
  - apply andb_true_iff in H as [_ H]. apply N.leb_le in H. lia.
  - apply N.eqb_eq in H. lia.
Qed.

Lemma trim_start_blank f ws x rest :
  forallb asciiSpace ws = true → Go.isASCII x = true → asciiSpace x = false →
  trim_start f (ws ++ x :: rest) = inl (x :: rest).
Proof.
  intros Hws Hx Hs. induction ws as [|c ws IH]; cbn in *.
  - by rewrite Hx, Hs.
  - apply andb_true_iff in Hws as [Hc Hws].
    rewrite (asciiSpace_ascii c Hc), Hc. cbn. by apply IH.
Qed.

Lemma trim_stop_blank g ws y rest :
  forallb asciiSpace ws = true → Go.isASCII y = true → asciiSpace y = false →
  trim_stop g (ws ++ y :: rest) = inl (y :: rest).
Proof.
  intros Hws Hy Hs. induction ws as [|c ws IH]; cbn [app trim_stop].
  - by rewrite Hy, Hs.
  - cbn in Hws. apply andb_true_iff in Hws as [Hc Hws].
    rewrite (asciiSpace_ascii c Hc), Hc. cbn [negb]. by apply IH.
Qed.

Lemma forallb_rev {A} (p : A → bool) l : forallb p (rev l) = forallb p l.
Proof.
  induction l as [|a l IH]; [done|]. cbn. rewrite forallb_app, IH. cbn.
  by rewrite andb_true_r, andb_comm.
Qed.

(** [TrimSpace] removes the white space around a text that starts and
    ends with ASCII bytes that are not white space. *)
Lemma TrimSpace_padded ws1 ws2 x mid y :
  blank ws1 = true → blank ws2 = true →
  Go.isASCII x = true → asciiSpace x = false →
  Go.isASCII y = true → asciiSpace y = false →
  TrimSpace (ws1 +:+ String x (mid +:+ String y ws2)) = String x (mid +:+ String y "").
Proof.
  unfold blank. intros H1 H2 Hx Hxs Hy Hys. unfold GoStrings.TrimSpace.
  rewrite list_of_append. cbn [list_ascii_of_string].
  rewrite trim_start_blank by done.
  rewrite list_of_append. cbn [list_ascii_of_string].
  replace (rev (x :: list_ascii_of_string mid ++ y :: list_ascii_of_string ws2))
    with (rev (list_ascii_of_string ws2) ++ y :: rev (x :: list_ascii_of_string mid)).
  2: { cbn [rev]. rewrite !rev_app_distr. cbn [rev]. by rewrite <- !app_assoc. }
  rewrite trim_stop_blank by (by rewrite ?forallb_rev).
  change (y :: rev (x :: list_ascii_of_string mid))
    with (rev [y] ++ rev (x :: list_ascii_of_string mid)).
  rewrite <- rev_app_distr, rev_involutive. cbn [app string_of_list_ascii].
  f_equal. rewrite <- (string_of_list_ascii_of_string (mid +:+ String y "")).
  by rewrite list_of_append.
Qed.

Lemma prefix_append p s : String.prefix p (p +:+ s) = true.
Proof.
  induction p as [|a p IH]; [by destruct s|]. simpl. by destruct (ascii_dec a a).
Qed.

Lemma prefix_same a p s : String.prefix (String a p) (String a s) = String.prefix p s.
Proof. simpl. by destruct (ascii_dec a a). Qed.

Lemma prefix_other a c p s : a ≠ c → String.prefix (String a p) (String c s) = false.
Proof. intros Hne. simpl. by destruct (ascii_dec a c). Qed.

Lemma TrimPrefix_append p s : TrimPrefix (p +:+ s) p = s.
Proof.
  unfold TrimPrefix. rewrite prefix_append, EphemeralChatFacts.length_append.
  replace (String.length p + String.length s - String.length p)
    with (String.length s) by lia.
  induction p as [|a p IH]; [apply substring_whole|done].
Qed.

Lemma TrimPrefix_other a p c s : a ≠ c → TrimPrefix (String c s) (String a p) = String c s.
Proof. intros Hne. unfold TrimPrefix. cbn. by destruct (ascii_dec a c). Qed.

(** The first byte of white space followed by an opening brace. *)
Lemma padded_brace_head ws rest :
  blank ws = true →
  ∃ c s, ws +:+ String "{" rest = String c s ∧ c ≠ "`"%char ∧ c ≠ "j"%char.
Proof.
  unfold blank. intros H. destruct ws as [|c ws].
  - by exists "{"%char, rest.
  - exists c, (ws +:+ String "{" rest). split; [done|].
    cbn in H. apply andb_true_iff in H as [Hc _]. split; by intros ->.
Qed.

Lemma substring_append_l s t : String.substring 0 (String.length s) (s +:+ t) = s.
Proof. induction s as [|a s IH]; [by destruct t|]. simpl. by rewrite IH. Qed.

Lemma substring_append_r s t m :
  String.substring (String.length s) m (s +:+ t) = String.substring 0 m t.
Proof. induction s as [|a s IH]; done. Qed.

Lemma TrimSuffix_append s suffix : TrimSuffix (s +:+ suffix) suffix = s.
Proof.
  unfold TrimSuffix, HasSuffix. rewrite EphemeralChatFacts.length_append.
  replace (String.length s + String.length suffix - String.length suffix)
    with (String.length s) by lia.
  rewrite substring_append_r, substring_whole, String.eqb_refl, substring_append_l.
  by destruct (Nat.leb_spec (String.length suffix)
                            (String.length s + String.length suffix)); [|lia].
Qed.

Lemma substring_split s : ∀ n,
  n ≤ String.length s →
  s = String.substring 0 n s +:+ String.substring n (String.length s - n) s.
Proof.
  induction s as [|a s IH]; intros [|n] Hn; simpl in *; try lia.
  - done.
  - by rewrite substring_whole.
  - change (String a s
            = String a (String.substring 0 n s
                        +:+ String.substring n (String.length s - n) s)).
    f_equal. apply IH. lia.
Qed.

Lemma HasSuffix_split s suffix :
  HasSuffix s suffix = true → ∃ p, s = p +:+ suffix.
Proof.
  unfold HasSuffix. intros H. apply andb_true_iff in H as [Hlen Heq].
  apply Nat.leb_le in Hlen. apply String.eqb_eq in Heq.
  exists (String.substring 0 (String.length s - String.length suffix) s).
  etransitivity;
    [apply (substring_split s (String.length s - String.length suffix)); lia|].
  f_equal.
  replace (String.length s - (String.length s - String.length suffix))
    with (String.length suffix) by lia.
  exact Heq.
Qed.

Lemma TrimSuffix_other s y suffix z :
  y ≠ z → TrimSuffix (s +:+ String y "") (suffix +:+ String z "") = s +:+ String y "".
Proof.
  intros Hne. unfold TrimSuffix.
  destruct (HasSuffix _ _) eqn:Hhas; [|done].
  apply HasSuffix_split in Hhas as [p Hp].
  apply (f_equal list_ascii_of_string) in Hp. rewrite !list_of_append in Hp.
  cbn [list_ascii_of_string] in Hp. rewrite app_assoc in Hp.
  apply app_inj_tail in Hp as [_ Hp]. congruence.
Qed.

Lemma append_assoc (s1 s2 s3 : string) : (s1 +:+ s2) +:+ s3 = s1 +:+ s2 +:+ s3.
Proof.
  induction s1 as [|a s1 IH]; [done|].
  change (String a ((s1 +:+ s2) +:+ s3) = String a (s1 +:+ s2 +:+ s3)).
  by rewrite IH.
Qed.

Lemma string_of_bytes_inj s t :
  list_ascii_of_string s = list_ascii_of_string t → s = t.
Proof.
  intros H. rewrite <- (string_of_list_ascii_of_string s), H.
  apply string_of_list_ascii_of_string.
Qed.

Ltac same_bytes :=
  apply string_of_bytes_inj;
  repeat first [rewrite list_of_append | progress simpl list_ascii_of_string];
  repeat first [rewrite <- app_assoc | progress simpl app];
  reflexivity.

Lemma no_fence_at_head ws1 ws2 mid :
  blank ws1 = true →
  TrimPrefix (before_closing_fence ws1 ws2 mid) fence
  = before_closing_fence ws1 ws2 mid.
Proof.
  intros H1. unfold before_closing_fence.
  destruct (padded_brace_head ws1 (mid +:+ String "}" (ws2 +:+ fence)) H1)
    as (c & s & -> & Hc & _).
  unfold fence. by apply TrimPrefix_other.
Qed.

Lemma no_json_fence_at_head ws1 ws2 mid :
  blank ws1 = true →
  TrimPrefix (fence +:+ before_closing_fence ws1 ws2 mid) json_fence
  = fence +:+ before_closing_fence ws1 ws2 mid.
Proof.
  intros H1. unfold before_closing_fence.
  destruct (padded_brace_head ws1 (mid +:+ String "}" (ws2 +:+ fence)) H1)
    as (c & s & -> & _ & Hc).
  unfold TrimPrefix.
  change (String.prefix json_fence (fence +:+ String c s))
    with (String.prefix (String "`" (String "`" (String "`" "json")))
                        (String "`" (String "`" (String "`" (String c s))))).
  by rewrite !prefix_same, prefix_other.
Qed.

Lemma closing_fence_removed ws1 ws2 mid :
  blank ws1 = true → blank ws2 = true →
  TrimSpace (TrimSuffix (before_closing_fence ws1 ws2 mid) fence)
  = String "{" (mid +:+ "}").
Proof.
  intros H1 H2. unfold before_closing_fence.
  replace (ws1 +:+ String "{" (mid +:+ String "}" (ws2 +:+ fence)))
    with ((ws1 +:+ String "{" (mid +:+ String "}" ws2)) +:+ fence)
    by same_bytes.
  rewrite TrimSuffix_append. by apply TrimSpace_padded.
Qed.

(** The first [TrimSpace] on a fenced text, [opening] being the opening
    fence without its first backquote. *)
Lemma TrimSpace_fenced ws0 opening ws1 ws2 ws3 mid :
  blank ws0 = true → blank ws3 = true →
  TrimSpace (ws0 +:+ String "`" opening +:+ ws1 +:+ String "{" (mid +:+ "}")
             +:+ ws2 +:+ fence +:+ ws3)
  = String "`" opening +:+ before_closing_fence ws1 ws2 mid.
Proof.
  intros H0 H3. unfold before_closing_fence.
  replace (ws0 +:+ String "`" opening +:+ ws1 +:+ String "{" (mid +:+ "}")
           +:+ ws2 +:+ fence +:+ ws3)
    with (ws0 +:+ String "`"
            ((opening +:+ ws1 +:+ String "{" (mid +:+ String "}" (ws2 +:+ "``")))
             +:+ String "`" ws3))
    by (unfold fence; same_bytes).
  rewrite TrimSpace_padded by done. unfold fence. same_bytes.
Qed.

(** X21. A fenced answer is unwrapped. For a JSON object, that is a text
    between an opening and a closing brace, the clean-up gives the
    object itself whether the answer is the bare object, or the object
    inside a markdown fence opened by three backquotes and [json] or by
    three backquotes alone, with any ASCII white space around the object
    and around the fence: the three forms are parsed alike. *)
Theorem fenced_answer_is_unwrapped (ws0 ws1 ws2 ws3 mid : string) :
  blank ws0 = true → blank ws1 = true → blank ws2 = true → blank ws3 = true →
  let body := "{" +:+ mid +:+ "}" in
  clean_up (ws0 +:+ body +:+ ws3) = body
  ∧ clean_up (ws0 +:+ json_fence +:+ ws1 +:+ body +:+ ws2 +:+ fence +:+ ws3) = body
  ∧ clean_up (ws0 +:+ fence +:+ ws1 +:+ body +:+ ws2 +:+ fence +:+ ws3) = body.
Proof.
  intros H0 H1 H2 H3. cbn zeta. unfold clean_up. cbn zeta.
  change ("{" +:+ mid +:+ "}") with (String "{" (mid +:+ "}")).
  repeat split.
  - replace (String "{" (mid +:+ "}") +:+ ws3)
      with (String "{" (mid +:+ String "}" ws3))
      by (change (String "{" (mid +:+ String "}" ws3)
                  = String "{" ((mid +:+ "}") +:+ ws3));
          by rewrite append_assoc).
    rewrite TrimSpace_padded by done.
    unfold json_fence, fence. rewrite !TrimPrefix_other by done.
    change (TrimSuffix (String "{" (mid +:+ "}")) "```")
      with (TrimSuffix (String "{" mid +:+ "}") ("``" +:+ "`")).
    rewrite TrimSuffix_other by done.
    change (String "{" mid +:+ "}") with (String "{" (mid +:+ "}")).
    apply (TrimSpace_padded "" ""); done.
  - unfold json_fence at 1. rewrite TrimSpace_fenced by done.
    change (String "`" "``json") with json_fence.
    rewrite TrimPrefix_append, no_fence_at_head by done.
    by apply closing_fence_removed.
  - unfold fence at 1. rewrite TrimSpace_fenced by done.
    change (String "`" "``") with fence.
    rewrite no_json_fence_at_head, TrimPrefix_append by done.
    by apply closing_fence_removed.
Qed.

(** *** The status without an upstream *)

Lemma runGitCommand_succeeds g dir args :
  succeeds dir args → ∃ out, (runGitCommand g dir args).1 = Ok out.
Proof.
  intros H. unfold Git.runGitCommand. specialize (H (repo Repo g)).
  destruct (exec (repo Repo g) dir args) as [out repo']. cbn in H. rewrite H.
  by eexists.
Qed.

Lemma runGitCommand_fails g dir args :
  fails dir args → text_of (runGitCommand g dir args).1 = "".
Proof.
  intros H. unfold Git.runGitCommand. specialize (H (repo Repo g)).
  destruct (exec (repo Repo g) dir args) as [out repo']. cbn in H.
  by destruct (failed out).
Qed.

(** X22. Only the branch and the status commands can fail
    [getGitStatus]. When [rev-parse --abbrev-ref HEAD] and
    [status --porcelain -z] succeed in the directory, [getGitStatus]
    returns a status whatever the other commands do: their errors are
    dropped. When the upstream cannot be named, ahead and behind are
    both zero and the two [rev-list] counts are not run; when the
    upstream is named but the counts fail, ahead and behind are zero as
    well. *)
Theorem status_survives_upstream_errors (g : Git) (dir : string) :
  succeeds dir ["rev-parse"; "--abbrev-ref"; "HEAD"] →
  succeeds dir ["status"; "--porcelain"; "-z"] →
  ∃ status,
    (getGitStatus g dir).1 = Ok status
    ∧ (fails dir ["rev-parse"; "--abbrev-ref"; "@{upstream}"] →
       Ahead status = 0%Z ∧ Behind status = 0%Z
       ∧ ran (getGitStatus g dir).2
         = ran g ++ [ ["rev-parse"; "--abbrev-ref"; "HEAD"];
                      ["rev-parse"; "--abbrev-ref"; "@{upstream}"];
                      ["status"; "--porcelain"; "-z"] ])
    ∧ (fails dir ["rev-list"; "--count"; "@{upstream}..HEAD"] →
       fails dir ["rev-list"; "--count"; "HEAD..@{upstream}"] →
       Ahead status = 0%Z ∧ Behind status = 0%Z).
Proof.
  intros Hbranch Hstatus. unfold Git.getGitStatus.
  pose proof (runGitCommand_ran g dir ["rev-parse"; "--abbrev-ref"; "HEAD"]) as R1.
  destruct (runGitCommand_succeeds g dir _ Hbranch) as [branch H1].
  destruct (runGitCommand g dir _) as [r1 g1]. cbn in H1, R1. subst r1.
  pose proof (runGitCommand_ran g1 dir ["rev-parse"; "--abbrev-ref"; "@{upstream}"])
    as R2.
  pose proof (runGitCommand_fails g1 dir ["rev-parse"; "--abbrev-ref"; "@{upstream}"])
    as H2.
  destruct (runGitCommand g1 dir _) as [upstream g2]. cbn in H2, R2.
  destruct (String.eqb_spec (text_of upstream) "") as [Hup|Hup]; cbn [negb].
  - pose proof (runGitCommand_ran g2 dir ["status"; "--porcelain"; "-z"]) as R3.
    destruct (runGitCommand_succeeds g2 dir _ Hstatus) as [output H3].
    destruct (runGitCommand g2 dir _) as [r3 g3]. cbn in H3, R3. subst r3.
    eexists. split; [done|]. cbn. split; [|done]. intros _.
    by rewrite R3, R2, R1, <- !app_assoc.
  - pose proof (runGitCommand_fails g2 dir ["rev-list"; "--count"; "@{upstream}..HEAD"])
      as H4.
    destruct (runGitCommand g2 dir _) as [ahead g3]. cbn in H4.
    pose proof (runGitCommand_fails g3 dir ["rev-list"; "--count"; "HEAD..@{upstream}"])
      as H5.
    destruct (runGitCommand g3 dir _) as [behind g4]. cbn in H5.
    destruct (runGitCommand_succeeds g4 dir _ Hstatus) as [output H3].
    destruct (runGitCommand g4 dir _) as [r3 g5]. cbn in H3. subst r3.
    eexists. split; [done|]. cbn. split.
    + intros Hfail. by specialize (H2 Hfail).
    + intros Ha Hb. by rewrite (H4 Ha), (H5 Hb).
Qed.

End Handler.

End GitMessage.

(** ** The git facts at concrete outputs *)

Module GitFactsAt.

Import GoStrings Git.

(** A staged modification, a rename with its old path, an untracked
    file. *)
Definition three_changes : list Change :=
  [ {| index_status := "M"; worktree_status := " "; path := "a.go"; old_path := "" |};
    {| index_status := "R"; worktree_status := " "; path := "new.go";
       old_path := "old.go" |};
    {| index_status := "?"; worktree_status := "?"; path := "notes.md";
       old_path := "" |} ].

Ltac no_NUL :=
  unfold NUL_free; cbn; rewrite ?not_elem_of_cons;
  repeat split; try discriminate; apply not_elem_of_nil.

Lemma three_changes_well_formed : Forall well_formed three_changes.
Proof.
  repeat constructor; try discriminate; no_NUL.
Defined.

Lemma porcelain_round_trip_witness :
  parse_porcelain (TrimSpace id id (stdout_of three_changes))
  = {| Staged := [ {| Path := "a.go"; Status := "modified"; OldPath := ""; Diff := "" |};
                   {| Path := "new.go"; Status := "renamed"; OldPath := "old.go";
                      Diff := "" |} ];
       Unstaged := [];
       Untracked := [ {| Path := "notes.md"; Status := "untracked"; OldPath := "";
                         Diff := "" |} ] |}.
Proof.
  refine (eq_trans (porcelain_round_trip id id three_changes
                      three_changes_well_formed _ _) eq_refl).
  - by repeat constructor.
  - intros c rest Heq. injection Heq as <- _. by split.
Defined.

(** The source path git prints after a copy is read as an entry of its
    own: its first two bytes are taken for status bytes and the file is
    listed, staged and unstaged, under what follows its third byte. *)
Example copy_source_is_read_as_an_entry :
  parse_porcelain
    (TrimSpace id id
       (stdout_of [ {| index_status := "C"; worktree_status := " ";
                       path := "new.go"; old_path := "old.go" |} ]))
  = {| Staged := [ {| Path := "new.go"; Status := "copied"; OldPath := ""; Diff := "" |};
                   {| Path := ".go"; Status := ""; OldPath := ""; Diff := "" |} ];
       Unstaged := [ {| Path := ".go"; Status := ""; OldPath := ""; Diff := "" |} ];
       Untracked := [] |}.
Proof. reflexivity. Qed.

Lemma leading_space_witness :
  parse_porcelain (TrimSpace id id (z_join [" M main.go"; "?? notes.md"]))
  = {| Staged := [ {| Path := "ain.go"; Status := "modified"; OldPath := "";
                      Diff := "" |} ];
       Unstaged := [];
       Untracked := [ {| Path := "notes.md"; Status := "untracked"; OldPath := "";
                         Diff := "" |} ] |}.
Proof.
  refine (eq_trans (proj1 (leading_space_misreads_first_entry id id "M" "m" "ain.go"
                             ["?? notes.md"] (or_introl eq_refl) _ _)) eq_refl).
  - no_NUL.
  - repeat constructor. no_NUL.
Defined.

(** A repository on branch main, without upstream and without a first
    commit to compare with, holding one untracked file: [git] answers
    the branch and the status and fails on every other command. *)
Definition no_upstream (repo : unit) (dir : string) (args : list string)
  : Finished * unit :=
  if bool_decide (args = ["rev-parse"; "--abbrev-ref"; "HEAD"]) then
    ({| failed := None; stdout := "main" +:+ String LF ""; stderr := "" |}, repo)
  else if bool_decide (args = ["status"; "--porcelain"; "-z"]) then
    ({| failed := None; stdout := "?? notes.md" +:+ String NUL ""; stderr := "" |},
     repo)
  else
    ({| failed := Some "exit status 128";
        stdout := "";
        stderr := "fatal: no upstream configured" |}, repo).

Definition nothing_ran : Git unit := {| repo := tt; ran := [] |}.

(** [Sscanf] that never reads a number. *)
Definition Sscanf_nothing (text : string) (n : Z) : Z := n.

Lemma status_without_upstream_witness :
  ∃ status,
    (getGitStatus unit no_upstream id id Sscanf_nothing nothing_ran "/repo").1
    = Ok status
    ∧ Branch status = "main"
    ∧ Ahead status = 0%Z ∧ Behind status = 0%Z.
Proof.
  destruct (GitMessage.status_survives_upstream_errors unit no_upstream id id
              Sscanf_nothing nothing_ran "/repo")
    as (status & Hok & Hup & _).
  - intros repo. reflexivity.
  - intros repo. reflexivity.
  - exists status. split; [exact Hok|].
    split; [by injection Hok as <-|].
    destruct Hup as (Ha & Hb & _); [|by split].
    intros repo. discriminate.
Defined.

Lemma fenced_answer_witness :
  GitMessage.clean_up id id
    (GitMessage.json_fence +:+ String LF "{ }" +:+ String LF GitMessage.fence)
  = "{ }".
Proof.
  exact (proj1 (proj2 (GitMessage.fenced_answer_is_unwrapped id id
                         "" (String LF "") (String LF "") "" " "
                         eq_refl eq_refl eq_refl eq_refl))).
Defined.

End GitFactsAt.
